(** * Page synchronisation engine of astral (src/page.ts)

    A shallow embedding of the [Page] class: the listener registry of the
    protocol client, the timer table, the promise heap with its reaction
    queue, and the asynchronous methods of the page written in a state
    monad over that world.  Every [await] of the source becomes a reaction
    (a constructor of [cont]) registered on the awaited promise. *)

From Stdlib Require Import ZArith String Ascii List Lia Bool.
From Stdlib Require DecimalString DecimalPos.
From stdpp Require Import base decidable option list strings.

Open Scope Z_scope.

(** ** JavaScript values *)

(** A JavaScript number: the zeros and NaN (the falsy numbers) are told
    apart from the other numbers, whose magnitude no method of the page
    reads; they carry the decimal text of their JSON encoding. *)
Inductive number :=
| NZero
| NNaN
| NOther (literal : string).

Unset Elimination Schemes.

Inductive jsval :=
| VUndefined
| VNull
| VBool (b : bool)
| VNumber (x : number)
| VBigInt (n : Z)
| VString (s : string)
| VArray (items : list jsval)
| VObject (fields : list (string * jsval)).

Set Elimination Schemes.

(** ToBoolean *)
Definition truthy (v : jsval) : bool :=
  match v with
  | VUndefined | VNull => false
  | VBool b => b
  | VNumber NZero | VNumber NNaN => false
  | VNumber (NOther _) => true
  | VBigInt n => negb (n =? 0)
  | VString s => negb (String.eqb s "")
  | VArray _ | VObject _ => true
  end.

(** String.prototype.slice(start, end) *)
Definition slice (s : string) (start end_ : Z) : string :=
  let len := Z.of_nat (String.length s) in
  let from := if start <? 0 then Z.max (len + start) 0 else Z.min start len in
  let to := if end_ <? 0 then Z.max (len + end_) 0 else Z.min end_ len in
  String.substring (Z.to_nat from) (Z.to_nat (to - from)) s.

Definition digit_of (c : ascii) : option Z :=
  let n := Z.of_nat (nat_of_ascii c) in
  if (48 <=? n) && (n <=? 57) then Some (n - 48) else None.

Fixpoint parse_digits (acc : Z) (s : string) : option Z :=
  match s with
  | EmptyString => Some acc
  | String c rest =>
      match digit_of c with
      | Some d => parse_digits (10 * acc + d) rest
      | None => None
      end
  end.

(** BigInt(string) on the decimal literals the protocol emits: an optional
    sign followed by decimal digits, the empty string being 0n.  [None] is
    the SyntaxError of the platform.  (White space and the 0x, 0o and 0b
    forms, which the protocol never sends, are not read.) *)
Definition BigInt (s : string) : option Z :=
  match s with
  | EmptyString => Some 0
  | String "-" (String _ _ as ds) => Z.opp <$> parse_digits 0 ds
  | String "+" (String _ _ as ds) => parse_digits 0 ds
  | String "-" EmptyString | String "+" EmptyString => None
  | _ => parse_digits 0 s
  end.

(** ** Protocol types (bindings/celestial.ts, as page.ts reads them) *)

Record RemoteObject := {
  type : string;
  subtype : option string;
  value : jsval;                          (* undefined when absent *)
  unserializableValue : option string
}.

Record ExceptionDetails := {
  exceptionId : Z;
  text : string
}.

(** What a promise of the page can be fulfilled with. *)
Unset Elimination Schemes.

Inductive result :=
| Js (v : jsval)
| EvaluateResult (r : RemoteObject) (exceptionDetails : option ExceptionDetails)
| GetDocumentResult (root_nodeId : Z)
| FetchResponse (body : string)
| ElementHandle (nodeId : Z)
| Values (vs : list result).

Set Elimination Schemes.

(** [if (x)] on a result: protocol objects are objects, hence truthy. *)
Definition is_truthy (r : result) : bool :=
  match r with
  | Js v => truthy v
  | _ => true
  end.

Inductive error :=
| DeadlineError
| Thrown (e : ExceptionDetails)
| TypeError (message : string)
| SyntaxError (message : string)
| Error (message : string)
| ProtocolError (message : string).

Inductive outcome :=
| Fulfilled (v : result)
| Rejected (e : error).

(** ** Options of the public methods *)

Inductive WaitUntil := load | networkidle0 | networkidle2.

#[global] Instance WaitUntil_eq_dec : EqDecision WaitUntil.
Proof. solve_decision. Defined.

Record WaitForOptions := {
  waitUntil : option WaitUntil
}.

Record GoToOptions := {
  goto_waitUntil : option WaitUntil;
  referrer : option string
}.

(** The fields are optional; the closure variables of [waitForNetworkIdle]
    carry the plain names [idleTime] and [idleConnections] below. *)
Record WaitForNetworkIdleOptions := {
  opt_idleTime : option Z;
  opt_idleConnections : option Z
}.

Inductive EvaluateFunction :=
| Expression (source : string)
| Function (toString : string).

(** [args] holds JSON.stringify of each argument. *)
Record EvaluateOptions := {
  args : list string
}.

(** ** The world: protocol client, timers, promises *)

(** Timers, promises and closure environments are named by their index in
    the tables of the world. *)
Abbreviation timer_id := nat (only parsing).
Abbreviation promise := nat (only parsing).
Abbreviation env_id := nat (only parsing).

(** The closures the page hands to [addEventListener] and [setTimeout]. *)
Inductive callback :=
| FrameNavigated                      (* constructor, Page.frameNavigated *)
| JavascriptDialogOpening             (* constructor, Page.javascriptDialogOpening *)
| LoadCallback (p : promise)          (* [callback] of waitForNavigation *)
| TimeoutDone (e : env_id)            (* [timeoutDone] of waitForNetworkIdle *)
| RequestStarted (e : env_id)         (* [requestStarted] *)
| RequestFinished (e : env_id)        (* [requestFinished] *)
| DeadlineReject (p : promise).       (* the timer of [deadline] *)

#[global] Instance callback_eq_dec : EqDecision callback.
Proof. solve_decision. Defined.

(** The reactions: what runs when an awaited promise settles. *)
Inductive cont :=
| KDeadline (r : promise) (t : timer_id)
| KThenResolve (p : promise)
| KForward (r : promise)
| KAwaitVoid (r : promise)
| KAll (a : promise) (ps : list promise)
| KNavAfterLoad (options : WaitForOptions) (r : promise)
| KGetRootLoop (l : promise)
| KGetRootDone (r : promise)
| KEvaluate (r : promise)
| KWaitForFunctionLoop (func : EvaluateFunction) (o : option EvaluateOptions) (l : promise)
| KCloseFetched (r : promise)
| KCloseText (r : promise).

Inductive pstate :=
| Pending (reactions : list cont)
| Settled (o : outcome).

(** The closure variables of one call of [waitForNetworkIdle]. *)
Record IdleEnv := {
  idleTime : Z;
  idleConnections : Z;
  inflight : Z;
  timeout : timer_id;
  resolve : promise
}.

(** Calls that leave the page, in the order they are made. *)
Inductive io :=
| IoAdd (type_ : string) (cb : callback)
| IoRemove (type_ : string) (cb : callback)
| IoCall (method : string) (params : list (string * jsval)) (p : promise)
| IoFetch (url_ : string) (p : promise)
| IoClose
| IoDialog.

Abbreviation page_ref := nat (only parsing).

Record World := {
  (* Celestial, an EventTarget *)
  listeners : list (string * callback);
  ws_closed : bool;
  (* the timers of the platform *)
  timers : list (option (callback * Z));
  (* promises and the microtask queue *)
  promises : list pstate;
  jobs : list (cont * outcome);
  (* closure environments *)
  envs : list IdleEnv;
  (* Page *)
  this : page_ref;
  id : string;
  url : option string;
  BASE_URL : string;
  (* Browser *)
  pages : list page_ref;
  (* trace *)
  log : list io
}.

(** [readonly timeout = 10000] of the class; the closure variable of
    [waitForNetworkIdle] keeps the plain name [timeout]. *)
Definition Page_timeout : Z := 10000.

(** Field updates of the world. *)
Definition with_listeners (f : list (string * callback) → list (string * callback)) (w : World) : World :=
  {| listeners := f (listeners w); ws_closed := ws_closed w;
     timers := timers w; promises := promises w; jobs := jobs w;
     envs := envs w; this := this w; id := id w; url := url w;
     BASE_URL := BASE_URL w; pages := pages w; log := log w |}.

Definition with_ws_closed (f : bool → bool) (w : World) : World :=
  {| listeners := listeners w; ws_closed := f (ws_closed w);
     timers := timers w; promises := promises w; jobs := jobs w;
     envs := envs w; this := this w; id := id w; url := url w;
     BASE_URL := BASE_URL w; pages := pages w; log := log w |}.

Definition with_timers (f : list (option (callback * Z)) → list (option (callback * Z))) (w : World) : World :=
  {| listeners := listeners w; ws_closed := ws_closed w;
     timers := f (timers w); promises := promises w; jobs := jobs w;
     envs := envs w; this := this w; id := id w; url := url w;
     BASE_URL := BASE_URL w; pages := pages w; log := log w |}.

Definition with_promises (f : list pstate → list pstate) (w : World) : World :=
  {| listeners := listeners w; ws_closed := ws_closed w; timers := timers w;
     promises := f (promises w); jobs := jobs w; envs := envs w;
     this := this w; id := id w; url := url w; BASE_URL := BASE_URL w;
     pages := pages w; log := log w |}.

Definition with_jobs (f : list (cont * outcome) → list (cont * outcome)) (w : World) : World :=
  {| listeners := listeners w; ws_closed := ws_closed w; timers := timers w;
     promises := promises w; jobs := f (jobs w); envs := envs w;
     this := this w; id := id w; url := url w; BASE_URL := BASE_URL w;
     pages := pages w; log := log w |}.

Definition with_envs (f : list IdleEnv → list IdleEnv) (w : World) : World :=
  {| listeners := listeners w; ws_closed := ws_closed w; timers := timers w;
     promises := promises w; jobs := jobs w; envs := f (envs w);
     this := this w; id := id w; url := url w; BASE_URL := BASE_URL w;
     pages := pages w; log := log w |}.

Definition with_url (f : option string → option string) (w : World) : World :=
  {| listeners := listeners w; ws_closed := ws_closed w; timers := timers w;
     promises := promises w; jobs := jobs w; envs := envs w; this := this w;
     id := id w; url := f (url w); BASE_URL := BASE_URL w; pages := pages w;
     log := log w |}.

Definition with_pages (f : list page_ref → list page_ref) (w : World) : World :=
  {| listeners := listeners w; ws_closed := ws_closed w; timers := timers w;
     promises := promises w; jobs := jobs w; envs := envs w; this := this w;
     id := id w; url := url w; BASE_URL := BASE_URL w; pages := f (pages w);
     log := log w |}.

Definition with_log (f : list io → list io) (w : World) : World :=
  {| listeners := listeners w; ws_closed := ws_closed w; timers := timers w;
     promises := promises w; jobs := jobs w; envs := envs w; this := this w;
     id := id w; url := url w; BASE_URL := BASE_URL w; pages := pages w;
     log := f (log w) |}.

(** ** The state monad of the page *)

Definition M (A : Type) : Type := World → A * World.

Definition ret {A} (a : A) : M A := λ w, (a, w).

Definition bind {A B} (c : M A) (k : A → M B) : M B :=
  λ w, let '(a, w') := c w in k a w'.

Notation "x <- c ;; k" := (bind c (λ x, k))
  (at level 100, c at next level, right associativity).
Notation "c ;; k" := (bind c (λ _, k))
  (at level 100, right associativity).

Definition get {A} (f : World → A) : M A := λ w, (f w, w).
Definition modify (f : World → World) : M unit := λ w, (tt, f w).
Definition exec {A} (c : M A) (w : World) : World := (c w).2.
Definition when (b : bool) (c : M unit) : M unit := if b then c else ret tt.

Fixpoint for_each {A} (l : list A) (f : A → M unit) : M unit :=
  match l with
  | [] => ret tt
  | x :: rest => f x ;; for_each rest f
  end.

Definition trace (e : io) : M unit := modify (with_log (λ l, l ++ [e])).

(** ** Platform: EventTarget, timers, promises *)

(** An EventTarget keeps one entry for a type and callback, and removes by
    type and callback; a removal that names another type finds nothing. *)
Definition addEventListener (type_ : string) (cb : callback) : M unit :=
  trace (IoAdd type_ cb) ;;
  modify (with_listeners (λ ls,
    if bool_decide ((type_, cb) ∈ ls) then ls else ls ++ [(type_, cb)])).

Definition removeEventListener (type_ : string) (cb : callback) : M unit :=
  trace (IoRemove type_ cb) ;;
  modify (with_listeners (filter (λ l, l ≠ (type_, cb)))).

Definition setTimeout (cb : callback) (delay : Z) : M timer_id :=
  t <- get (λ w, length (timers w)) ;;
  modify (with_timers (λ ts, ts ++ [Some (cb, delay)])) ;;
  ret t.

Definition clearTimeout (t : timer_id) : M unit :=
  modify (with_timers (λ ts, <[t := None]> ts)).

Definition new_promise : M promise :=
  p <- get (λ w, length (promises w)) ;;
  modify (with_promises (λ ps, ps ++ [Pending []])) ;;
  ret p.

(** Settling a promise that is no longer pending does nothing; the
    reactions of a pending one are queued in registration order. *)
Definition settle (p : promise) (o : outcome) : M unit :=
  st <- get (λ w, promises w !! p) ;;
  match st with
  | Some (Pending ks) =>
      modify (with_promises (λ ps, <[p := Settled o]> ps)) ;;
      modify (with_jobs (λ js, js ++ map (λ k, (k, o)) ks))
  | _ => ret tt
  end.

Definition then_ (p : promise) (k : cont) : M unit :=
  st <- get (λ w, promises w !! p) ;;
  match st with
  | Some (Pending ks) =>
      modify (with_promises (λ ps, <[p := Pending (ks ++ [k])]> ps))
  | Some (Settled o) => modify (with_jobs (λ js, js ++ [(k, o)]))
  | None => ret tt
  end.

(** std/async [deadline(p, delay)]: the promise races a timer that rejects
    with DeadlineError, and the timer is cleared when the race settles. *)
Definition deadline (p : promise) (delay : Z) : M promise :=
  r <- new_promise ;;
  t <- setTimeout (DeadlineReject r) delay ;;
  then_ p (KDeadline r t) ;;
  ret r.

(** Modelled from the spec: [retryDeadline] of src/util.ts, which is not
    among the sources.  The Deadline Executor races the operation against a
    timer of [maxWaitMs], returns the operation's outcome verbatim when it
    completes first, and fails with the deadline error when the timer fires
    first; the timer is cleared on the operation-wins path. *)
Definition retryDeadline (t : promise) (maxWaitMs : Z) : M promise :=
  deadline t maxWaitMs.

(** A protocol command: the promise settles when the response arrives. *)
Definition call (method : string) (params : list (string * jsval)) : M promise :=
  p <- new_promise ;;
  trace (IoCall method params p) ;;
  ret p.

Definition fetch (url_ : string) : M promise :=
  p <- new_promise ;;
  trace (IoFetch url_ p) ;;
  ret p.

Definition celestial_close : M unit :=
  trace IoClose ;;
  modify (with_ws_closed (λ _, true)).

(** ** waitForNetworkIdle *)

Definition set_inflight (n : Z) (v : IdleEnv) : IdleEnv :=
  {| idleTime := idleTime v; idleConnections := idleConnections v;
     inflight := n; timeout := timeout v; resolve := resolve v |}.

Definition set_timeout (t : timer_id) (v : IdleEnv) : IdleEnv :=
  {| idleTime := idleTime v; idleConnections := idleConnections v;
     inflight := inflight v; timeout := t; resolve := resolve v |}.

(** The variables as the executor initialises them: [let inflight = 0]. *)
Definition new_env (idleTime_ idleConnections_ : Z) (t : timer_id) (p : promise)
  : IdleEnv :=
  {| idleTime := idleTime_; idleConnections := idleConnections_;
     inflight := 0; timeout := t; resolve := p |}.

(** Runs [k] on the closure variables of environment [e]. *)
Definition with_env (e : env_id) (k : IdleEnv → M unit) : M unit :=
  v <- get (λ w, envs w !! e) ;;
  match v with
  | Some v => k v
  | None => ret tt
  end.

Definition update_env (e : env_id) (f : IdleEnv → IdleEnv) : M unit :=
  modify (with_envs (alter f e)).

Definition timeoutDone (e : env_id) : M unit :=
  with_env e (λ v,
    removeEventListener "Network_requestWillBeSent" (RequestStarted e) ;;
    removeEventListener "Network_loadingFailed" (RequestFinished e) ;;
    removeEventListener "Network_loadingFinished" (RequestFinished e) ;;
    settle (resolve v) (Fulfilled (Js VUndefined))).

Definition requestStarted (e : env_id) : M unit :=
  update_env e (λ v, set_inflight (inflight v + 1) v) ;;
  with_env e (λ v,
    when (inflight v >? idleConnections v) (clearTimeout (timeout v))).

Definition requestFinished (e : env_id) : M unit :=
  with_env e (λ v,
    if inflight v =? 0 then ret tt
    else
      update_env e (λ v, set_inflight (inflight v - 1) v) ;;
      with_env e (λ v,
        when (inflight v =? idleConnections v)
          (t <- setTimeout (TimeoutDone e) (idleTime v) ;;
           update_env e (set_timeout t)))).

Definition waitForNetworkIdle (options : option WaitForNetworkIdleOptions)
  : M promise :=
  let idleTime := default 500 (options ≫= opt_idleTime) in
  let idleConnections := default 0 (options ≫= opt_idleConnections) in
  p <- new_promise ;;
  e <- get (λ w, length (envs w)) ;;
  timeout <- setTimeout (TimeoutDone e) idleTime ;;
  modify (with_envs (λ es, es ++
    [new_env idleTime idleConnections timeout p])) ;;
  addEventListener "Network.requestWillBeSent" (RequestStarted e) ;;
  addEventListener "Network.loadingFailed" (RequestFinished e) ;;
  addEventListener "Network.loadingFinished" (RequestFinished e) ;;
  retryDeadline p Page_timeout.

(** ** waitForNavigation *)

(** [callback] of the load criterion. *)
Definition loadCallback (p : promise) : M unit :=
  settle p (Fulfilled (Js VUndefined)) ;;
  removeEventListener "Page_loadEventFired" (LoadCallback p).

(** The executor of [new Promise<void>((resolve) => ...)]. *)
Definition navigation_executor (options : WaitForOptions) : M promise :=
  p <- new_promise ;;
  match waitUntil options with
  | Some load => addEventListener "Page.loadEventFired" (LoadCallback p)
  | Some networkidle0 =>
      q <- waitForNetworkIdle
             (Some {| opt_idleTime := Some 500; opt_idleConnections := None |}) ;;
      then_ q (KThenResolve p)
  | _ =>
      q <- waitForNetworkIdle
             (Some {| opt_idleTime := Some 500; opt_idleConnections := Some 2 |}) ;;
      then_ q (KThenResolve p)
  end ;;
  ret p.

(** [return retryDeadline(new Promise(...), this.timeout)]: the promise [r]
    of the async function follows the returned one. *)
Definition waitForNavigation_return (options : WaitForOptions) (r : promise)
  : M unit :=
  p <- navigation_executor options ;;
  d <- retryDeadline p Page_timeout ;;
  then_ d (KForward r).

(** The body of the method, its recursive call being [self]. *)
Definition waitForNavigation_body
    (self : option WaitForOptions → M promise)
    (options : option WaitForOptions) : M promise :=
  r <- new_promise ;;
  let options := default {| waitUntil := Some networkidle2 |} options in
  (if bool_decide (waitUntil options ≠ Some load) then
     q <- self (Some {| waitUntil := Some load |}) ;;
     then_ q (KNavAfterLoad options r)
   else waitForNavigation_return options r) ;;
  ret r.

(** The recursive call passes the load criterion, which does not recurse:
    two unfoldings of the body are the whole method (see
    [waitForNavigation_unfold]). *)
Definition waitForNavigation : option WaitForOptions → M promise :=
  waitForNavigation_body (waitForNavigation_body (λ _, new_promise)).

(** ** evaluate, waitForFunction, #getRoot *)

Definition expression_of (func : EvaluateFunction)
    (evaluateOptions : option EvaluateOptions) : string :=
  match func with
  | Function src =>
      "(" +:+ src +:+ ")(" +:+
      String.concat "," (default [] (args <$> evaluateOptions)) +:+ ")"
  | Expression s => s
  end.

(** The statements of [evaluate] after the response is destructured. *)
Definition unmarshal (result : RemoteObject)
    (exceptionDetails : option ExceptionDetails) : outcome :=
  match exceptionDetails with
  | Some e => Rejected (Thrown e)
  | None =>
      if String.eqb (type result) "bigint" then
        match unserializableValue result with
        | None => Rejected (TypeError "Cannot read properties of undefined")
        | Some s =>
            match BigInt (slice s 0 (-1)) with
            | Some n => Fulfilled (Js (VBigInt n))
            | None => Rejected (SyntaxError "Cannot convert to a BigInt")
            end
        end
      else if String.eqb (type result) "undefined" then
        Fulfilled (Js VUndefined)
      else if String.eqb (type result) "object" then
        if bool_decide (subtype result = Some "null") then Fulfilled (Js VNull)
        else Fulfilled (Js (value result))
      else Fulfilled (Js (value result))
  end.

Definition evaluate (func : EvaluateFunction)
    (evaluateOptions : option EvaluateOptions) : M promise :=
  r <- new_promise ;;
  let func := expression_of func evaluateOptions in
  q <- call "Runtime.evaluate"
         [("expression", VString func); ("awaitPromise", VBool true);
          ("returnByValue", VBool true)] ;;
  d <- retryDeadline q Page_timeout ;;
  then_ d (KEvaluate r) ;;
  ret r.

Definition waitForFunction (func : EvaluateFunction)
    (evaluateOptions : option EvaluateOptions) : M promise :=
  r <- new_promise ;;
  l <- new_promise ;;
  q <- evaluate func evaluateOptions ;;
  then_ q (KWaitForFunctionLoop func evaluateOptions l) ;;
  d <- deadline l Page_timeout ;;
  then_ d (KAwaitVoid r) ;;
  ret r.

Definition getDocument : M promise :=
  call "DOM.getDocument" [("depth", VNumber NZero)].

Definition getRoot : M promise :=
  r <- new_promise ;;
  l <- new_promise ;;
  q <- getDocument ;;
  then_ q (KGetRootLoop l) ;;
  doc <- retryDeadline l Page_timeout ;;
  then_ doc (KGetRootDone r) ;;
  ret r.

(** ** goto, reload, close *)

(** Promise.all: fulfilled with the values once every element is fulfilled,
    rejected as soon as one element is rejected. *)
Definition Promise_all (ps : list promise) : M promise :=
  a <- new_promise ;;
  for_each ps (λ p, then_ p (KAll a ps)) ;;
  when (bool_decide (ps = [])) (settle a (Fulfilled (Values []))) ;;
  ret a.

Definition fulfilled_value (st : option pstate) : option result :=
  match st with
  | Some (Settled (Fulfilled v)) => Some v
  | _ => None
  end.

Definition WaitUntil_text (c : WaitUntil) : string :=
  match c with
  | load => "load"
  | networkidle0 => "networkidle0"
  | networkidle2 => "networkidle2"
  end.

(** [{ url, ...options }] *)
Definition navigate_params (url_ : string) (options : GoToOptions)
  : list (string * jsval) :=
  [("url", VString url_)]
  ++ match goto_waitUntil options with
     | Some c => [("waitUntil", VString (WaitUntil_text c))]
     | None => []
     end
  ++ match referrer options with
     | Some s => [("referrer", VString s)]
     | None => []
     end.

Definition goto (url_ : string) (options : option GoToOptions) : M promise :=
  g <- new_promise ;;
  let options :=
    default {| goto_waitUntil := None; referrer := None |} options in
  c <- call "Page.navigate" (navigate_params url_ options) ;;
  d <- retryDeadline c Page_timeout ;;
  n <- waitForNavigation (Some {| waitUntil := goto_waitUntil options |}) ;;
  a <- Promise_all [d; n] ;;
  then_ a (KAwaitVoid g) ;;
  ret g.

Definition reload (options : option WaitForOptions) : M promise :=
  g <- new_promise ;;
  c <- call "Page.reload" [] ;;
  d <- retryDeadline c Page_timeout ;;
  n <- waitForNavigation options ;;
  a <- Promise_all [d; n] ;;
  then_ a (KAwaitVoid g) ;;
  ret g.

(** Array.prototype.indexOf *)
Fixpoint indexOf (l : list page_ref) (x : page_ref) : Z :=
  match l with
  | [] => -1
  | y :: rest =>
      if bool_decide (y = x) then 0
      else let i := indexOf rest x in if i <? 0 then -1 else i + 1
  end.

Definition close : M promise :=
  r <- new_promise ;;
  base <- get BASE_URL ;;
  i <- get id ;;
  req <- fetch (base +:+ "/json/close/" +:+ i) ;;
  then_ req (KCloseFetched r) ;;
  ret r.

(** The statements of [close] once [res] is known. *)
Definition close_after_text (res : string) (r : promise) : M unit :=
  if String.eqb res "Target is closing" then
    me <- get this ;;
    index <- get (λ w, indexOf (pages w) me) ;;
    when (index >? -1) (modify (with_pages (delete (Z.to_nat index)))) ;;
    settle r (Fulfilled (Js VUndefined))
  else
    celestial_close ;;
    settle r (Rejected (Error
      ("Page has already been closed or doesn't exist (" +:+ res +:+ ")"))).

(** ** Reactions *)

(** What the code after an [await] (or a [then] callback) does with the
    outcome of the awaited promise. *)
Definition run_job (k : cont) (o : outcome) : M unit :=
  match k, o with
  | KDeadline r t, _ => clearTimeout t ;; settle r o
  | KThenResolve p, Fulfilled _ => settle p (Fulfilled (Js VUndefined))
  | KThenResolve p, Rejected _ => ret tt
  | KForward r, _ => settle r o
  | KAwaitVoid r, Fulfilled _ => settle r (Fulfilled (Js VUndefined))
  | KAwaitVoid r, Rejected e => settle r (Rejected e)
  | KAll a ps, Fulfilled _ =>
      vs <- get (λ w, mapM (λ p, fulfilled_value (promises w !! p)) ps) ;;
      match vs with
      | Some vs => settle a (Fulfilled (Values vs))
      | None => ret tt
      end
  | KAll a ps, Rejected e => settle a (Rejected e)
  | KNavAfterLoad options r, Fulfilled _ => waitForNavigation_return options r
  | KNavAfterLoad options r, Rejected e => settle r (Rejected e)
  | KGetRootLoop l, Fulfilled root =>
      if is_truthy root then settle l (Fulfilled root)
      else q <- getDocument ;; then_ q (KGetRootLoop l)
  | KGetRootLoop l, Rejected e => settle l (Rejected e)
  | KGetRootDone r, Fulfilled (GetDocumentResult nodeId) =>
      settle r (Fulfilled (ElementHandle nodeId))
  | KGetRootDone r, Fulfilled _ =>
      settle r (Rejected (TypeError "Cannot read properties of undefined"))
  | KGetRootDone r, Rejected e => settle r (Rejected e)
  | KEvaluate r, Fulfilled (EvaluateResult result exceptionDetails) =>
      settle r (unmarshal result exceptionDetails)
  | KEvaluate r, Fulfilled _ =>
      settle r (Rejected (TypeError "Cannot destructure the response"))
  | KEvaluate r, Rejected e => settle r (Rejected e)
  | KWaitForFunctionLoop func opts l, Fulfilled result =>
      if is_truthy result then settle l (Fulfilled result)
      else q <- evaluate func opts ;;
           then_ q (KWaitForFunctionLoop func opts l)
  | KWaitForFunctionLoop func opts l, Rejected e => settle l (Rejected e)
  | KCloseFetched r, Fulfilled (FetchResponse body) =>
      t <- new_promise ;;
      settle t (Fulfilled (Js (VString body))) ;;
      then_ t (KCloseText r)
  | KCloseFetched r, Fulfilled _ =>
      settle r (Rejected (TypeError "req.text is not a function"))
  | KCloseFetched r, Rejected e => settle r (Rejected e)
  | KCloseText r, Fulfilled (Js (VString res)) => close_after_text res r
  | KCloseText r, Fulfilled _ => close_after_text "" r
  | KCloseText r, Rejected e => settle r (Rejected e)
  end.

(** ** The event loop *)

Inductive detail :=
| NoDetail
| Frame (urlFragment : option string) (frame_url : string).

Definition run_callback (cb : callback) (d : detail) : M unit :=
  match cb with
  | FrameNavigated =>
      match d with
      | Frame urlFragment frame_url =>
          modify (with_url (λ _, Some (default frame_url urlFragment)))
      | NoDetail => ret tt
      end
  | JavascriptDialogOpening => trace IoDialog
  | LoadCallback p => loadCallback p
  | TimeoutDone e => timeoutDone e
  | RequestStarted e => requestStarted e
  | RequestFinished e => requestFinished e
  | DeadlineReject r => settle r (Rejected DeadlineError)
  end.

(** EventTarget.dispatchEvent: the listeners of the type, in registration
    order; one removed meanwhile is skipped. *)
Definition dispatchEvent (type_ : string) (d : detail) : M unit :=
  ls <- get listeners ;;
  for_each (filter (λ l, l.1 = type_) ls) (λ l,
    still <- get (λ w, bool_decide (l ∈ listeners w)) ;;
    when still (run_callback l.2 d)).

(** A timer elapses: it leaves the table and its callback runs. *)
Definition fire (t : timer_id) : M unit :=
  entry <- get (λ w, timers w !! t) ;;
  match entry with
  | Some (Some (cb, _)) => clearTimeout t ;; run_callback cb NoDetail
  | _ => ret tt
  end.

Definition is_request (p : promise) (e : io) : bool :=
  match e with
  | IoCall _ _ q | IoFetch _ q => bool_decide (p = q)
  | _ => false
  end.

(** The response to a command or to the HTTP request whose promise is [p]. *)
Definition respond (p : promise) (o : outcome) : M unit :=
  sent <- get (λ w, existsb (is_request p) (log w)) ;;
  when sent (settle p o).

(** The microtask queue is emptied after every task. *)
Fixpoint drain (fuel : nat) (w : World) : World :=
  match fuel with
  | O => w
  | S fuel =>
      match jobs w with
      | [] => w
      | (k, o) :: rest =>
          drain fuel (exec (run_job k o) (with_jobs (λ _, rest) w))
      end
  end.

Definition fuel : nat := 64.

(** What the environment does to the page. *)
Inductive event :=
| Dispatch (type_ : string) (d : detail)
| TimerFire (t : timer_id)
| Response (p : promise) (o : outcome).

Definition task (ev : event) : M unit :=
  match ev with
  | Dispatch type_ d => dispatchEvent type_ d
  | TimerFire t => fire t
  | Response p o => respond p o
  end.

Definition step (ev : event) (w : World) : World :=
  drain fuel (exec (task ev) w).

Definition run (evs : list event) (w : World) : World :=
  foldl (λ w ev, step ev w) w evs.

(** A method call made by the user of the page is a task of its own. *)
Definition invoke {A} (c : M A) (w : World) : A * World :=
  let '(a, w') := c w in (a, drain fuel w').

(** [new Page(id, url, ws, browser)] *)
Definition constructor : M unit :=
  addEventListener "Page.frameNavigated" FrameNavigated ;;
  addEventListener "Page.javascriptDialogOpening" JavascriptDialogOpening.

Definition new_Page (me : page_ref) (id_ : string) (url_ : option string)
    (base : string) (browser_pages : list page_ref) : World :=
  exec constructor
    {| listeners := []; ws_closed := false; timers := []; promises := [];
       jobs := []; envs := []; this := me; id := id_; url := url_;
       BASE_URL := base; pages := browser_pages; log := [] |}.

Definition state (w : World) (p : promise) : option pstate := promises w !! p.

(** ** The unmarshalling policy in the words of the specification *)

(** A rule answers with an outcome when it applies. *)
Definition rule : Type := RemoteObject → option ExceptionDetails → option outcome.

(** The string encoding without its trailing type marker. *)
Fixpoint strip_marker (s : string) : string :=
  match s with
  | EmptyString => EmptyString
  | String c EmptyString => EmptyString
  | String c rest => String c (strip_marker rest)
  end.

Definition parse_big_integer (encoding : option string) : outcome :=
  match encoding with
  | Some s =>
      match BigInt (strip_marker s) with
      | Some n => Fulfilled (Js (VBigInt n))
      | None => Rejected (SyntaxError "Cannot convert to a BigInt")
      end
  | None => Rejected (TypeError "Cannot read properties of undefined")
  end.

Definition rule_exception : rule := λ _ exc, (λ e, Rejected (Thrown e)) <$> exc.

Definition rule_big_integer : rule := λ r _,
  if String.eqb (type r) "bigint"
  then Some (parse_big_integer (unserializableValue r)) else None.

Definition rule_absent : rule := λ r _,
  if String.eqb (type r) "undefined" then Some (Fulfilled (Js VUndefined)) else None.

Definition rule_null : rule := λ r _,
  if String.eqb (type r) "object" && bool_decide (subtype r = Some "null")
  then Some (Fulfilled (Js VNull)) else None.

Definition unmarshalling_policy : list rule :=
  [rule_exception; rule_big_integer; rule_absent; rule_null].

(** The first rule that applies decides; without one the value is returned
    as transported. *)
Fixpoint first_applicable (rules : list rule) (r : RemoteObject)
    (exc : option ExceptionDetails) : outcome :=
  match rules with
  | [] => Fulfilled (Js (value r))
  | rl :: rest =>
      match rl r exc with
      | Some o => o
      | None => first_applicable rest r exc
      end
  end.

(** ** Footprints *)

(** The promise a reaction settles. *)
Definition target (k : cont) : promise :=
  match k with
  | KDeadline r _ | KForward r | KAwaitVoid r | KNavAfterLoad _ r
  | KGetRootDone r | KEvaluate r | KCloseFetched r | KCloseText r => r
  | KThenResolve p => p
  | KAll a _ => a
  | KGetRootLoop l | KWaitForFunctionLoop _ _ l => l
  end.

(** The promises a callback or a call that leaves the page may settle. *)
Definition callback_ok (okp : promise → Prop) (cb : callback) : Prop :=
  match cb with
  | LoadCallback p | DeadlineReject p => okp p
  | _ => True
  end.

Definition io_ok (okp : promise → Prop) (e : io) : Prop :=
  match e with
  | IoCall _ _ p | IoFetch _ p => okp p
  | _ => True
  end.

(** ** Invariants *)

(** [c] keeps the invariant [I] and returns a value in [Q]. *)
Definition keeps (I : World → Prop) {A} (c : M A) (Q : A → Prop) : Prop :=
  ∀ w, I w → I (c w).2 ∧ Q (c w).1.

Definition anything {A} : A → Prop := λ _, True.

Definition settled_in (w : World) (p : promise) (o : outcome) : Prop :=
  promises w !! p = Some (Settled o).

(** Every promise settled in [w0] is settled with the same outcome in [w]. *)
Definition stable (w0 w : World) : Prop :=
  ∀ p o, settled_in w0 p o → settled_in w p o.

Definition nonnegative (w : World) : Prop :=
  Forall (λ v, 0 ≤ inflight v) (envs w).

(** What the platform operations owe an invariant [I] that lets the page
    settle the promises in [okp]. *)
Record frame (I : World → Prop) (okp : promise → Prop) : Prop := {
  frame_trace : ∀ e, io_ok okp e → keeps I (trace e) anything;
  frame_add : ∀ ty cb, callback_ok okp cb → keeps I (addEventListener ty cb) anything;
  frame_remove : ∀ ty cb, keeps I (removeEventListener ty cb) anything;
  frame_setTimeout : ∀ cb d, callback_ok okp cb → keeps I (setTimeout cb d) anything;
  frame_clearTimeout : ∀ t, keeps I (clearTimeout t) anything;
  frame_new_promise : keeps I new_promise okp;
  frame_settle : ∀ p o, okp p → keeps I (settle p o) anything;
  frame_then : ∀ p k, okp (target k) → keeps I (then_ p k) anything;
  frame_new_env : ∀ it ic t p, okp p →
    keeps I (modify (with_envs (λ es, es ++ [new_env it ic t p]))) anything;
  frame_requestStarted : ∀ e, keeps I (requestStarted e) anything;
  frame_requestFinished : ∀ e, keeps I (requestFinished e) anything;
  frame_url : ∀ f, keeps I (modify (with_url f)) anything;
  frame_pages : ∀ f, keeps I (modify (with_pages f)) anything;
  frame_ws_closed : ∀ f, keeps I (modify (with_ws_closed f)) anything;
  frame_env : ∀ w e v, I w → envs w !! e = Some v → okp (resolve v)
}.

(** What the event loop owes it: the callbacks and requests of the world are
    within [okp], and every queued reaction keeps [I]. *)
Record loop_frame (I : World → Prop) (okp : promise → Prop) : Prop := {
  loop_listeners : ∀ w l, I w → l ∈ listeners w → callback_ok okp l.2;
  loop_timers : ∀ w t cb d,
    I w → timers w !! t = Some (Some (cb, d)) → callback_ok okp cb;
  loop_requests : ∀ w p,
    I w → existsb (is_request p) (log w) = true → okp p;
  loop_job : ∀ w k o rest,
    I w → jobs w = (k, o) :: rest →
    I (exec (run_job k o) (with_jobs (λ _, rest) w))
}.

(** ** Sample runs *)

Definition sample_page : World :=
  new_Page 7%nat "ABC" None "http://localhost:9222" [3%nat; 7%nat; 9%nat].

Definition request_sent : event := Dispatch "Network.requestWillBeSent" NoDetail.
Definition request_finished : event := Dispatch "Network.loadingFinished" NoDetail.
Definition request_failed : event := Dispatch "Network.loadingFailed" NoDetail.
Definition load_fired : event := Dispatch "Page.loadEventFired" NoDetail.

(** ** The worlds of one network-idle wait on a new page *)

(** The listeners after [waitForNetworkIdle] on a new page: those of the
    constructor and the three of the wait, whose closure environment is the
    first of the page. *)
Definition idle_listeners : list (string * callback) :=
  [("Page.frameNavigated", FrameNavigated);
   ("Page.javascriptDialogOpening", JavascriptDialogOpening);
   ("Network.requestWillBeSent", RequestStarted 0);
   ("Network.loadingFailed", RequestFinished 0);
   ("Network.loadingFinished", RequestFinished 0)].

Definition idle_env (D T n : Z) (t : timer_id) : IdleEnv :=
  {| idleTime := D; idleConnections := T; inflight := n; timeout := t;
     resolve := 0 |}.

(** The wait is pending: promise 0 is the one [timeoutDone] resolves,
    promise 1 the one the method returned, timer 1 the deadline; [n] is the
    in-flight counter and [t] the timer the variable [timeout] holds. *)
Record idle_shape (D T : Z) (w : World) (n : Z) (t : timer_id) : Prop := {
  shape_listeners : listeners w = idle_listeners;
  shape_promises : promises w = [Pending [KDeadline 1 1]; Pending []];
  shape_jobs : jobs w = [];
  shape_envs : envs w = [idle_env D T n t];
  shape_deadline : timers w !! 1%nat = Some (Some (DeadlineReject 1, Page_timeout));
  shape_timers : ∀ t' cb d, timers w !! t' = Some (Some (cb, d)) →
    (t' = 1%nat ∧ cb = DeadlineReject 1) ∨
    (t' ≠ 1%nat ∧ cb = TimeoutDone 0 ∧ d = D);
  shape_timeout : t ≠ 1%nat;
  shape_counter : 0 ≤ n;
  shape_requests : ∀ p, existsb (is_request p) (log w) = false
}.

(** The idle timer is armed exactly while the counter is within the
    threshold, and it is the timer the variable [timeout] holds. *)
Record idle_armed (D T : Z) (w : World) (n : Z) (t : timer_id) : Prop := {
  armed_within : n ≤ T → timers w !! t = Some (Some (TimeoutDone 0, D));
  armed_only : ∀ t' d, timers w !! t' = Some (Some (TimeoutDone 0, d)) →
    t' = t ∧ n ≤ T
}.


Definition is_pending (w : World) (p : promise) : bool :=
  match promises w !! p with
  | Some (Pending _) => true
  | _ => false
  end.

(** The world right after [waitForNetworkIdle] is called on a new page. *)
Definition idle_world (D T : Z) (me : page_ref) (id_ : string)
    (url_ : option string) (base : string) (pgs : list page_ref) : World :=
  {| listeners := idle_listeners; ws_closed := false;
     timers := [Some (TimeoutDone 0, D); Some (DeadlineReject 1, Page_timeout)];
     promises := [Pending [KDeadline 1 1]; Pending []];
     jobs := []; envs := [idle_env D T 0 0];
     this := me; id := id_; url := url_; BASE_URL := base; pages := pgs;
     log := [IoAdd "Page.frameNavigated" FrameNavigated;
             IoAdd "Page.javascriptDialogOpening" JavascriptDialogOpening;
             IoAdd "Network.requestWillBeSent" (RequestStarted 0);
             IoAdd "Network.loadingFailed" (RequestFinished 0);
             IoAdd "Network.loadingFinished" (RequestFinished 0)] |}.

Definition option_idleTime (options : option WaitForNetworkIdleOptions) : Z :=
  default 500 (options ≫= opt_idleTime).

Definition option_idleConnections (options : option WaitForNetworkIdleOptions)
  : Z :=
  default 0 (options ≫= opt_idleConnections).

(** The removal requests [timeoutDone] makes. *)
Definition idle_removals : list io :=
  [IoRemove "Network_requestWillBeSent" (RequestStarted 0);
   IoRemove "Network_loadingFailed" (RequestFinished 0);
   IoRemove "Network_loadingFinished" (RequestFinished 0)].

(** An event that starts no request and fires no timer. *)
Definition quiet (ev : event) : bool :=
  match ev with
  | Dispatch ty _ => negb (String.eqb ty "Network.requestWillBeSent")
  | TimerFire _ => false
  | Response _ _ => true
  end.


(** ** The worlds of one load wait on a new page *)

(** The listeners while the load callback that resolves promise [p] is
    subscribed. *)
Definition load_listeners (p : promise) : list (string * callback) :=
  [("Page.frameNavigated", FrameNavigated);
   ("Page.javascriptDialogOpening", JavascriptDialogOpening);
   ("Page.loadEventFired", LoadCallback p)].

(** A load wait is pending: its callback resolves promise [p], its deadline
    rejects promise [d], and the promises of the page are [ps]. *)
Record load_shape (p d : promise) (ps : list pstate) (w : World) : Prop := {
  load_shape_listeners : listeners w = load_listeners p;
  load_shape_promises : promises w = ps;
  load_shape_jobs : jobs w = [];
  load_shape_envs : envs w = [];
  load_shape_timers : timers w = [Some (DeadlineReject d, Page_timeout)];
  load_shape_requests : ∀ q, existsb (is_request q) (log w) = false
}.

(** The events that end a pending load wait. *)
Definition ends_load (ev : event) : bool :=
  match ev with
  | Dispatch ty _ => String.eqb ty "Page.loadEventFired"
  | TimerFire t => bool_decide (t = 0%nat)
  | Response _ _ => false
  end.

(** waitForNavigation({waitUntil: "load"}): promise 0 is the one of the
    method, promise 1 the one the callback resolves, promise 2 the one of
    the deadline. *)
Definition load_promises : list pstate :=
  [Pending []; Pending [KDeadline 2 0]; Pending [KForward 0]].

(** waitForNavigation under another criterion, while it awaits its load
    sub-wait: promise 0 is the one of the method, promise 1 the one of the
    sub-wait. *)
Definition nav_promises (options : WaitForOptions) : list pstate :=
  [Pending []; Pending [KNavAfterLoad options 0]; Pending [KDeadline 3 0];
   Pending [KForward 1]].

Definition load_option : option WaitForOptions :=
  Some {| waitUntil := Some load |}.

(** The options as the method reads them. *)
Definition nav_options (options : option WaitForOptions) : WaitForOptions :=
  default {| waitUntil := Some networkidle2 |} options.

(** The idle threshold of a criterion, in the words of the specification. *)
Definition threshold_of (criterion : option WaitUntil) : Z :=
  match criterion with
  | Some networkidle0 => 0
  | _ => 2
  end.




(** The world right after [waitForNavigation] is called on a new page,
    under the load criterion and under another one. *)
Definition load_world (me : page_ref) (id_ : string) (url_ : option string)
    (base : string) (pgs : list page_ref) : World :=
  {| listeners := load_listeners 1; ws_closed := false;
     timers := [Some (DeadlineReject 2, Page_timeout)];
     promises := load_promises; jobs := []; envs := [];
     this := me; id := id_; url := url_; BASE_URL := base; pages := pgs;
     log := [IoAdd "Page.frameNavigated" FrameNavigated;
             IoAdd "Page.javascriptDialogOpening" JavascriptDialogOpening;
             IoAdd "Page.loadEventFired" (LoadCallback 1)] |}.

Definition nav_world (options : WaitForOptions) (me : page_ref) (id_ : string)
    (url_ : option string) (base : string) (pgs : list page_ref) : World :=
  {| listeners := load_listeners 2; ws_closed := false;
     timers := [Some (DeadlineReject 3, Page_timeout)];
     promises := nav_promises options; jobs := []; envs := [];
     this := me; id := id_; url := url_; BASE_URL := base; pages := pgs;
     log := [IoAdd "Page.frameNavigated" FrameNavigated;
             IoAdd "Page.javascriptDialogOpening" JavascriptDialogOpening;
             IoAdd "Page.loadEventFired" (LoadCallback 2)] |}.

(** What C4 says of a call of waitForNavigation under a criterion other
    than load: [w1] is the world right after the call, [r] the promise of the
    method, [w] a later world.  The method awaits a load sub-wait [q], the
    rest of the method being the only reaction on it, and no network-idle
    wait exists yet; while [q] is pending none exists and the method is
    pending, the load event fulfils [q], and the task that fulfils [q] starts
    the network-idle wait with idle duration 500 and the threshold of the
    criterion; and the method is fulfilled only if [q] is. *)
Definition awaits_load_first (opts : WaitForOptions) (w1 : World) (r : promise)
    (w : World) : Prop :=
  ∃ q : promise,
    promises w1 !! q = Some (Pending [KNavAfterLoad opts r]) ∧
    envs w1 = [] ∧
    (is_pending w q = true →
       envs w = [] ∧ is_pending w r = true ∧
       (∀ dd, settled_in (step (Dispatch "Page.loadEventFired" dd) w) q
                (Fulfilled (Js VUndefined))) ∧
       (∀ ev v, settled_in (step ev w) q (Fulfilled v) →
          ∃ t p, envs (step ev w)
                 = [new_env 500 (threshold_of (waitUntil opts)) t p])) ∧
    (∀ v, settled_in w r (Fulfilled v) → ∃ v', settled_in w q (Fulfilled v')).

(** ** close, in the words of the claim *)

(** The list without the first occurrence of [x]. *)
Fixpoint remove_first (x : page_ref) (l : list page_ref) : list page_ref :=
  match l with
  | [] => []
  | y :: rest => if bool_decide (y = x) then rest else y :: remove_first x rest
  end.

Definition failure_text (res : string) : string :=
  "Page has already been closed or doesn't exist (" +:+ res +:+ ")".

(** C2 as stated, for a page [w1] on which [close] was called, the promise
    [r] of the call, the response text [res] and the world [w'] after the
    response: success removes the page and closes the connection, any other
    text closes the connection and fails with a message that includes it. *)
Definition close_as_claimed (w1 : World) (r : promise) (res : string)
    (w' : World) : Prop :=
  if String.eqb res "Target is closing" then
    pages w' = remove_first (this w1) (pages w1) ∧
    ws_closed w' = true ∧
    settled_in w' r (Fulfilled (Js VUndefined))
  else
    ws_closed w' = true ∧
    settled_in w' r (Rejected (Error (failure_text res))).

(** What the code does: on success the connection is left as it is. *)
Definition close_as_coded (w1 : World) (r : promise) (res : string)
    (w' : World) : Prop :=
  if String.eqb res "Target is closing" then
    pages w' = remove_first (this w1) (pages w1) ∧
    ws_closed w' = ws_closed w1 ∧ log w' = log w1 ∧
    settled_in w' r (Fulfilled (Js VUndefined))
  else
    pages w' = pages w1 ∧
    ws_closed w' = true ∧ log w' = log w1 ++ [IoClose] ∧
    settled_in w' r (Rejected (Error (failure_text res))).

(** ** Polling loops *)

Definition request_promise (e : io) : option promise :=
  match e with
  | IoCall _ _ p | IoFetch _ p => Some p
  | _ => None
  end.

(** The promise of the request made last. *)
Definition last_request (l : list io) : option promise :=
  last (omap request_promise l).

(** The remote end answers the request made last. *)
Definition answer (o : outcome) (w : World) : World :=
  match last_request (log w) with
  | Some q => step (Response q o) w
  | None => w
  end.

Definition answers (os : list outcome) (w : World) : World :=
  foldl (λ w o, answer o w) w os.

Definition is_getDocument (e : io) : bool :=
  match e with
  | IoCall method _ _ => String.eqb method "DOM.getDocument"
  | _ => false
  end.

(** An answer that [if (root)] or [if (result)] takes for false. *)
Definition falsy (o : outcome) : Prop :=
  ∃ v, o = Fulfilled v ∧ is_truthy v = false.

(** #getRoot on a new page while it polls: promise 0 is the one of the
    method, promise 1 the one of the loop, promise 3 the one of the deadline
    and timer 0 its timer; [q] is the outstanding call and [n] the number of
    calls made so far. *)
Record root_polling (w : World) (q : promise) (n : nat) : Prop := {
  root_method : promises w !! 0%nat = Some (Pending []);
  root_loop : promises w !! 1%nat = Some (Pending [KDeadline 3 0]);
  root_deadline : promises w !! 3%nat = Some (Pending [KGetRootDone 0]);
  root_call : promises w !! q = Some (Pending [KGetRootLoop 1]);
  root_call_fresh : q ≠ 0%nat ∧ q ≠ 1%nat ∧ q ≠ 3%nat;
  root_jobs : jobs w = [];
  root_timers : timers w = [Some (DeadlineReject 3, Page_timeout)];
  root_last : last_request (log w) = Some q;
  root_sent : existsb (is_request q) (log w) = true;
  root_calls : length (filter (λ e, is_getDocument e = true) (log w)) = n
}.

(** waitForFunction on a new page while it polls: promise 0 is the one of
    the method, promise 1 the one of the loop, promise 5 the one of the
    deadline and timer 1 its timer; [q] is the outstanding call of the
    current [evaluate], [d] the promise of its deadline, [t] the timer of
    that deadline and [r'] the promise of that [evaluate]. *)
Record func_polling (func : EvaluateFunction) (opts : option EvaluateOptions)
    (w : World) (q d r' : promise) (t : timer_id) : Prop := {
  func_method : promises w !! 0%nat = Some (Pending []);
  func_loop : promises w !! 1%nat = Some (Pending [KDeadline 5 1]);
  func_deadline : promises w !! 5%nat = Some (Pending [KAwaitVoid 0]);
  func_call : promises w !! q = Some (Pending [KDeadline d t]);
  func_call_deadline : promises w !! d = Some (Pending [KEvaluate r']);
  func_evaluate :
    promises w !! r' = Some (Pending [KWaitForFunctionLoop func opts 1]);
  func_distinct :
    (1 < r')%nat ∧ r' ≠ 5%nat ∧ (1 < q)%nat ∧ q ≠ 5%nat ∧ (1 < d)%nat ∧ d ≠ 5%nat ∧
    q ≠ d ∧ q ≠ r' ∧ d ≠ r';
  func_jobs : jobs w = [];
  func_timer : timers w !! 1%nat = Some (Some (DeadlineReject 5, Page_timeout));
  func_timer_other : t ≠ 1%nat;
  func_last : last_request (log w) = Some q;
  func_sent : existsb (is_request q) (log w) = true
}.

(** The answer of the remote end to [Runtime.evaluate]. *)
Definition evaluated (p : RemoteObject * option ExceptionDetails) : outcome :=
  Fulfilled (EvaluateResult p.1 p.2).

(** ** Provenance of a fulfilment *)

Definition fulfilled (ps : list pstate) (p : promise) : Prop :=
  ∃ v, ps !! p = Some (Settled (Fulfilled v)).

Definition is_fulfilled (o : outcome) : Prop :=
  match o with
  | Fulfilled _ => True
  | Rejected _ => False
  end.

(** The reactions registered on promise [p] that settle [x]: the one of
    [Promise.all] over [causes], which looks at every element before it
    fulfils, or the rest of an async function whose [await] is on the only
    element of [causes]. *)
Definition reaction_ok (x : promise) (causes : list promise) (p : promise)
    (k : cont) : Prop :=
  match k with
  | KAll a ps => a = x → ps = causes
  | KAwaitVoid r => r = x → causes = [p]
  | _ => target k ≠ x
  end.

Definition job_ok (x : promise) (causes : list promise) (ps : list pstate)
    (j : cont * outcome) : Prop :=
  match j.1 with
  | KAll a qs => a = x → qs = causes
  | KAwaitVoid r => r = x → is_fulfilled j.2 → Forall (fulfilled ps) causes
  | k => target k ≠ x
  end.

(** [x] is fulfilled only when every promise of [causes] is, and nothing in
    the world can settle [x] otherwise. *)
Record provenance (x : promise) (causes : list promise) (w : World) : Prop := {
  prov_allocated : (x < length (promises w))%nat;
  prov_fulfilled : fulfilled (promises w) x → Forall (fulfilled (promises w)) causes;
  prov_reactions : ∀ p ks,
    promises w !! p = Some (Pending ks) → Forall (reaction_ok x causes p) ks;
  prov_jobs : Forall (job_ok x causes (promises w)) (jobs w);
  prov_listeners : Forall (λ l, callback_ok (λ p, p ≠ x) l.2) (listeners w);
  prov_timers : ∀ t cb d,
    timers w !! t = Some (Some (cb, d)) → callback_ok (λ p, p ≠ x) cb;
  prov_requests : Forall (io_ok (λ p, p ≠ x)) (log w);
  prov_envs : Forall (λ v, resolve v ≠ x) (envs w)
}.

(** The heap [ps'] extends [ps]: what is settled stays as it is. *)
Definition extends (ps ps' : list pstate) : Prop :=
  ∀ p o, ps !! p = Some (Settled o) → ps' !! p = Some (Settled o).

(** ** goto and reload on a new page *)

(** What a call of goto or reload that sent the command [method] has done
    when it returns [g], and what its promise depends on afterwards: the
    command [c] is sent and the load listener of the navigation wait is
    registered by the same call; [d] is the command under its deadline and
    [n] the navigation wait, both pending; [a] is [Promise.all] over the two,
    and the rest of the method is its only reaction.  Whatever happens next,
    [g] is fulfilled only when [d] and [n] both are. *)
Definition joint_wait (method : string) (params : list (string * jsval))
    (w0 w1 : World) (g : promise) : Prop :=
  ∃ (c d n a p : promise) (t : timer_id),
    log w1 = log w0 ++ [IoCall method params c;
                        IoAdd "Page.loadEventFired" (LoadCallback p)]
    ∧ listeners w1 = listeners w0 ++ [("Page.loadEventFired", LoadCallback p)]
    ∧ jobs w1 = []
    ∧ promises w1 !! g = Some (Pending [])
    ∧ promises w1 !! c = Some (Pending [KDeadline d t])
    ∧ promises w1 !! d = Some (Pending [KAll a [d; n]])
    ∧ promises w1 !! n = Some (Pending [KAll a [d; n]])
    ∧ promises w1 !! a = Some (Pending [KAwaitVoid g])
    ∧ ∀ evs : list event,
        fulfilled (promises (run evs w1)) g →
        fulfilled (promises (run evs w1)) d ∧ fulfilled (promises (run evs w1)) n.

(** The options of goto as the method reads them. *)
Definition goto_options (options : option GoToOptions) : GoToOptions :=
  default {| goto_waitUntil := None; referrer := None |} options.

(** ** The pages of the browser *)


(** ** The encoding of a big integer *)

(** The decimal text of an integer, as the remote end writes a big integer
    before the marker: no sign for the positive ones, no leading zero. *)
Definition decimal (n : Z) : string :=
  match n with
  | Z0 => "0"
  | Zpos p => DecimalString.NilEmpty.string_of_uint (Pos.to_uint p)
  | Zneg p => String "-" (DecimalString.NilEmpty.string_of_uint (Pos.to_uint p))
  end.

(** The remote object of the big integer [n]. *)
Definition bigint_object (n : Z) : RemoteObject :=
  {| type := "bigint"; subtype := None; value := VUndefined;
     unserializableValue := Some (decimal n +:+ "n") |}.

(** ** The requests in flight *)

(** What one event does to the number of requests in flight: a request that
    starts adds one, a request that finishes or fails takes one away unless
    none is counted. *)
Definition count_step (n : Z) (ev : event) : Z :=
  match ev with
  | Dispatch ty _ =>
      if String.eqb ty "Network.requestWillBeSent" then n + 1
      else if String.eqb ty "Network.loadingFinished"
              || String.eqb ty "Network.loadingFailed"
      then (if n =? 0 then 0 else n - 1)
      else n
  | _ => n
  end.

(** The requests in flight after the events [evs], none being counted at
    the start. *)
Definition outstanding (evs : list event) : Z := foldl count_step 0 evs.

(** ** Commands without a result *)

Definition bringToFront : M promise :=
  r <- new_promise ;;
  c <- call "Page.bringToFront" [] ;;
  d <- retryDeadline c Page_timeout ;;
  then_ d (KAwaitVoid r) ;;
  ret r.

Definition deleteCookies (cookieDescription : list (string * jsval)) : M promise :=
  r <- new_promise ;;
  c <- call "Network.deleteCookies" cookieDescription ;;
  d <- retryDeadline c Page_timeout ;;
  then_ d (KAwaitVoid r) ;;
  ret r.

Definition emulateCPUThrottling (factor : number) : M promise :=
  r <- new_promise ;;
  c <- call "Emulation.setCPUThrottlingRate" [("rate", VNumber factor)] ;;
  d <- retryDeadline c Page_timeout ;;
  then_ d (KAwaitVoid r) ;;
  ret r.

(** [get url()] *)
Definition Page_url : M (option string) := get url.

(** What such a method does with its command: it sends [method] with
    [params] and nothing else, resolves with undefined whatever the command
    answers, and fails with the error of the command. *)
Definition sends_and_discards (method : string) (params : list (string * jsval))
    (m : M promise) (w0 : World) : Prop :=
  let start := invoke m w0 in
  (∃ c, log start.2 = log w0 ++ [IoCall method params c]) ∧
  is_pending start.2 start.1 = true ∧
  (∀ v, settled_in (answer (Fulfilled v) start.2) start.1 (Fulfilled (Js VUndefined))) ∧
  (∀ e, settled_in (answer (Rejected e) start.2) start.1 (Rejected e)).

(** ** Sessions: the calls of a user and the events of the browser *)

Inductive page_call :=
| CallGoto (url_ : string) (options : option GoToOptions)
| CallReload (options : option WaitForOptions)
| CallWaitForNavigation (options : option WaitForOptions)
| CallWaitForNetworkIdle (options : option WaitForNetworkIdleOptions)
| CallEvaluate (func : EvaluateFunction) (evaluateOptions : option EvaluateOptions)
| CallWaitForFunction (func : EvaluateFunction) (evaluateOptions : option EvaluateOptions)
| CallGetRoot
| CallClose
| CallBringToFront
| CallDeleteCookies (cookieDescription : list (string * jsval))
| CallEmulateCPUThrottling (factor : number).

Definition perform (c : page_call) : M promise :=
  match c with
  | CallGoto url_ options => goto url_ options
  | CallReload options => reload options
  | CallWaitForNavigation options => waitForNavigation options
  | CallWaitForNetworkIdle options => waitForNetworkIdle options
  | CallEvaluate func evaluateOptions => evaluate func evaluateOptions
  | CallWaitForFunction func evaluateOptions => waitForFunction func evaluateOptions
  | CallGetRoot => getRoot
  | CallClose => close
  | CallBringToFront => bringToFront
  | CallDeleteCookies cookieDescription => deleteCookies cookieDescription
  | CallEmulateCPUThrottling factor => emulateCPUThrottling factor
  end.

Inductive action :=
| Call (c : page_call)
| Happens (ev : event).

Definition act (a : action) (w : World) : World :=
  match a with
  | Call c => (invoke (perform c) w).2
  | Happens ev => step ev w
  end.

Definition session (acts : list action) (w : World) : World :=
  foldl (λ w a, act a w) w acts.

(** ** Observations and their footprint *)

Definition constructor_listeners : list (string * callback) :=
  [("Page.frameNavigated", FrameNavigated);
   ("Page.javascriptDialogOpening", JavascriptDialogOpening)].

(** The event types the constructor listens to. *)
Definition constructor_type (ty : string) : Prop :=
  ty = "Page.frameNavigated" ∨ ty = "Page.javascriptDialogOpening".

(** The callbacks of the methods, as opposed to those of the constructor. *)
Definition plain (cb : callback) : Prop :=
  match cb with
  | FrameNavigated | JavascriptDialogOpening => False
  | _ => True
  end.

(** The reactions of [close]. *)
Definition closing (k : cont) : Prop :=
  match k with
  | KCloseFetched _ | KCloseText _ => True
  | _ => False
  end.

Definition is_dialog (e : io) : bool :=
  match e with
  | IoDialog => true
  | _ => false
  end.

(** The dialog events the page has dispatched to its own listeners. *)
Definition dialogs (w : World) : nat :=
  length (filter (λ e, is_dialog e = true) (log w)).

(** The calls that leave the page from the methods: not a dialog event,
    and the closing of the connection only where [close] may run. *)
Definition plain_io (may_close : Prop) (e : io) : Prop :=
  match e with
  | IoDialog => False
  | IoClose => may_close
  | _ => True
  end.

(** The constructor's listeners are registered once, under their types and
    alone there; every other callback of the page is one of a method; and
    the reactions of [close] are present only where [may_close] holds. *)
Record wired (may_close : Prop) (w : World) : Prop := {
  wired_constructor :
    filter (λ l, constructor_type l.1) (listeners w) = constructor_listeners;
  wired_listeners : Forall (λ l, constructor_type l.1 ∨ plain l.2) (listeners w);
  wired_timers : ∀ t cb d, timers w !! t = Some (Some (cb, d)) → plain cb;
  wired_reactions : ∀ p ks,
    promises w !! p = Some (Pending ks) → Forall (λ k, closing k → may_close) ks;
  wired_jobs : Forall (λ j, closing j.1 → may_close) (jobs w)
}.

(** The world is wired and the observation [π] has the value [a]. *)
Definition observes {A} (may_close : Prop) (π : World → A) (a : A) (w : World)
  : Prop :=
  wired may_close w ∧ π w = a.

(** An observation that only the constructor's callbacks and [close] can
    change. *)
Definition footprint {A} (may_close : Prop) (π : World → A) : Prop :=
  ∀ w w', url w' = url w → dialogs w' = dialogs w →
          (may_close ∨ (pages w' = pages w ∧ ws_closed w' = ws_closed w)) →
          π w' = π w.

(** An action of the methods: not an event of the constructor, and a call
    of [close] only where it may run. *)
Definition plain_action (may_close : Prop) (a : action) : Prop :=
  match a with
  | Call CallClose => may_close
  | Call _ => True
  | Happens (Dispatch ty _) => ¬ constructor_type ty
  | Happens _ => True
  end.

(** The URL the page shows after the actions [acts], [u] being the one it
    showed before: that of the last frame navigated. *)
Definition navigated (u : option string) (acts : list action) : option string :=
  foldl (λ u a,
    match a with
    | Happens (Dispatch ty (Frame urlFragment frame_url)) =>
        if String.eqb ty "Page.frameNavigated"
        then Some (default frame_url urlFragment) else u
    | _ => u
    end) u acts.

Definition is_dialog_event (a : action) : bool :=
  match a with
  | Happens (Dispatch ty _) => String.eqb ty "Page.javascriptDialogOpening"
  | _ => false
  end.

Definition is_close_call (a : action) : bool :=
  match a with
  | Call CallClose => true
  | _ => false
  end.

(** What the constructor's callbacks alone do on an action. *)
Definition constructor_effect (a : action) (w : World) : World :=
  match a with
  | Happens (Dispatch ty d) =>
      if String.eqb ty "Page.frameNavigated"
      then exec (run_callback FrameNavigated d) w
      else if String.eqb ty "Page.javascriptDialogOpening"
      then exec (run_callback JavascriptDialogOpening d) w
      else w
  | _ => w
  end.

(** ** Events that fire a timer *)

Definition is_timer (ev : event) : bool :=
  match ev with
  | TimerFire _ => true
  | _ => false
  end.

(** ** The commands a page has sent *)

(** The protocol commands in a trace, in the order they were sent. *)
Definition calls_of (l : list io) : list (string * list (string * jsval)) :=
  omap (λ e, match e with
             | IoCall method params _ => Some (method, params)
             | _ => None
             end) l.

(** The command [evaluate] sends for [func]. *)
Definition evaluate_call (func : EvaluateFunction)
    (evaluateOptions : option EvaluateOptions)
  : string * list (string * jsval) :=
  ("Runtime.evaluate",
   [("expression", VString (expression_of func evaluateOptions));
    ("awaitPromise", VBool true); ("returnByValue", VBool true)]).

(** * Properties *)

Lemma substring_0_all (s : string) : String.substring 0 (String.length s) s = s.
Proof. induction s as [|c s IH]; [reflexivity|]. cbn. by rewrite IH. Qed.

Lemma substring_0_strip (c : ascii) (s : string) :
  String.substring 0 (String.length s) (String c s) = strip_marker (String c s).
Proof.
  revert c. induction s as [|d s IH]; intros c; [reflexivity|].
  change (String.substring 0 (String.length (String d s)) (String c (String d s)))
    with (String c (String.substring 0 (String.length s) (String d s))).
  rewrite IH. reflexivity.
Qed.

Lemma slice_strips_marker (s : string) : slice s 0 (-1) = strip_marker s.
Proof.
  unfold slice. destruct s as [|c s]; [reflexivity|].
  change (String.length (String c s)) with (S (String.length s)).
  replace (Z.of_nat (S (String.length s)) + -1) with (Z.of_nat (String.length s)) by lia.
  replace (Z.min 0 (Z.of_nat (S (String.length s)))) with 0 by lia.
  change (0 <? 0) with false. change (-1 <? 0) with true. cbv iota.
  rewrite Z.max_l by lia. rewrite Z.sub_0_r, Nat2Z.id.
  apply substring_0_strip.
Qed.

Lemma unmarshal_policy (r : RemoteObject) (exc : option ExceptionDetails) :
  unmarshal r exc = first_applicable unmarshalling_policy r exc.
Proof.
  unfold unmarshal, unmarshalling_policy, first_applicable,
    rule_exception, rule_big_integer, rule_absent, rule_null, parse_big_integer.
  destruct exc as [e|]; [reflexivity|]. cbn [fmap option_fmap option_map].
  destruct (String.eqb (type r) "bigint").
  { destruct (unserializableValue r) as [s|]; [|reflexivity].
    by rewrite slice_strips_marker. }
  destruct (String.eqb (type r) "undefined"); [reflexivity|].
  destruct (String.eqb (type r) "object"); [|reflexivity].
  cbn [andb]. by destruct (bool_decide (subtype r = Some "null")).
Qed.

Lemma requestStarted_eq (e : env_id) (w : World) :
  exec (requestStarted e) w =
  let w1 := with_envs (alter (λ v, set_inflight (inflight v + 1) v) e) w in
  match envs w !! e with
  | Some v =>
      if inflight v + 1 >? idleConnections v
      then with_timers (λ ts, <[timeout v := None]> ts) w1
      else w1
  | None => w1
  end.
Proof.
  destruct w as [ls ws ts ps js es me i u b pg lg].
  unfold exec, requestStarted, update_env, with_env, bind, modify, get, when, clearTimeout, ret.
  simpl. rewrite list_lookup_alter_eq.
  destruct (es !! e) as [v|]; simpl; [|done].
  by destruct (inflight v + 1 >? idleConnections v).
Qed.

Lemma requestFinished_eq (e : env_id) (w : World) :
  exec (requestFinished e) w =
  match envs w !! e with
  | Some v =>
      if inflight v =? 0 then w
      else
        let w1 := with_envs (alter (λ v, set_inflight (inflight v - 1) v) e) w in
        if inflight v - 1 =? idleConnections v
        then with_envs (alter (set_timeout (length (timers w))) e)
               (with_timers (λ ts, ts ++ [Some (TimeoutDone e, idleTime v)]) w1)
        else w1
  | None => w
  end.
Proof.
  destruct w as [ls ws ts ps js es me i u b pg lg].
  unfold exec, requestFinished, update_env, with_env, bind, modify, get, when, setTimeout, ret.
  simpl.
  destruct (es !! e) as [v|] eqn:Hv; [|done].
  destruct (inflight v =? 0); [done|]. simpl.
  rewrite list_lookup_alter_eq, Hv. simpl.
  by destruct (inflight v - 1 =? idleConnections v).
Qed.

(** ** Invariants of the machine

    An invariant [I] of the world, with the promises [okp] it lets the page
    settle, is kept by every method, reaction and callback once the
    platform operations keep it. *)

Section Frame.
Variable I : World → Prop.
Variable okp : promise → Prop.

Local Abbreviation sp := (keeps I).

Hypothesis F : frame I okp.

Local Abbreviation I_trace := (frame_trace I okp F).
Local Abbreviation I_add := (frame_add I okp F).
Local Abbreviation I_remove := (frame_remove I okp F).
Local Abbreviation I_setTimeout := (frame_setTimeout I okp F).
Local Abbreviation I_clearTimeout := (frame_clearTimeout I okp F).
Local Abbreviation I_new_promise := (frame_new_promise I okp F).
Local Abbreviation I_settle := (frame_settle I okp F).
Local Abbreviation I_then := (frame_then I okp F).
Local Abbreviation I_new_env := (frame_new_env I okp F).
Local Abbreviation I_requestStarted := (frame_requestStarted I okp F).
Local Abbreviation I_requestFinished := (frame_requestFinished I okp F).
Local Abbreviation I_url := (frame_url I okp F).
Local Abbreviation I_pages := (frame_pages I okp F).
Local Abbreviation I_ws_closed := (frame_ws_closed I okp F).
Local Abbreviation I_env := (frame_env I okp F).

Lemma sp_ret {A} (a : A) (Q : A → Prop) : Q a → sp (ret a) Q.
Proof. intros HQ w HI. by split. Qed.

Lemma sp_bind {A B} (c : M A) (k : A → M B) (Q : A → Prop) (R : B → Prop) :
  sp c Q → (∀ a, Q a → sp (k a) R) → sp (bind c k) R.
Proof.
  intros Hc Hk w HI. unfold bind. destruct (Hc w HI) as [HI' HQ].
  destruct (c w) as [a w']. by apply Hk.
Qed.

Lemma sp_weaken {A} (c : M A) (Q R : A → Prop) :
  sp c Q → (∀ a, Q a → R a) → sp c R.
Proof. intros Hc HQR w HI. destruct (Hc w HI). auto. Qed.

Lemma sp_get {A} (f : World → A) : sp (get f) anything.
Proof. intros w HI. by split. Qed.

Lemma sp_when (b : bool) (c : M unit) : sp c anything → sp (when b c) anything.
Proof. intros Hc. destruct b; [exact Hc|]. by apply sp_ret. Qed.

Lemma sp_for_each {A} (l : list A) (f : A → M unit) :
  (∀ x, sp (f x) anything) → sp (for_each l f) anything.
Proof.
  intros Hf. induction l as [|x l IH]; [by apply sp_ret|].
  cbn [for_each]. eapply sp_bind; [apply Hf|]. intros _ _. exact IH.
Qed.

(** [then_ c k]: sequencing when the value of [c] is not used. *)
Lemma sp_seq {A B} (c : M A) (k : M B) (Q : A → Prop) (R : B → Prop) :
  sp c Q → sp k R → sp (bind c (λ _, k)) R.
Proof. intros Hc Hk. eapply sp_bind; [exact Hc|]. intros _ _. exact Hk. Qed.

Lemma sp_with_env (e : env_id) (k : IdleEnv → M unit) :
  (∀ v, okp (resolve v) → sp (k v) anything) → sp (with_env e k) anything.
Proof.
  intros Hk w HI. unfold with_env, bind, get.
  destruct (envs w !! e) as [v|] eqn:Hv; [|by split].
  apply Hk; [|exact HI]. by eapply I_env.
Qed.

Lemma sp_deadline p d : sp (deadline p d) okp.
Proof.
  unfold deadline. eapply sp_bind; [apply I_new_promise|]. intros r Hr.
  eapply sp_bind; [by apply I_setTimeout|]. intros t _.
  eapply sp_seq; [by apply I_then|]. by apply sp_ret.
Qed.

Lemma sp_retryDeadline p d : sp (retryDeadline p d) okp.
Proof. apply sp_deadline. Qed.

Lemma sp_call m ps : sp (call m ps) okp.
Proof.
  unfold call. eapply sp_bind; [apply I_new_promise|]. intros p Hp.
  eapply sp_seq; [by apply I_trace|]. by apply sp_ret.
Qed.

Lemma sp_fetch u : sp (fetch u) okp.
Proof.
  unfold fetch. eapply sp_bind; [apply I_new_promise|]. intros p Hp.
  eapply sp_seq; [by apply I_trace|]. by apply sp_ret.
Qed.

Lemma sp_celestial_close : sp celestial_close anything.
Proof. unfold celestial_close. eapply sp_seq; [by apply I_trace|]. apply I_ws_closed. Qed.

Lemma sp_timeoutDone e : sp (timeoutDone e) anything.
Proof.
  unfold timeoutDone. apply sp_with_env. intros v Hv.
  do 3 (eapply sp_seq; [apply I_remove|]). by apply I_settle.
Qed.

Lemma sp_waitForNetworkIdle options : sp (waitForNetworkIdle options) okp.
Proof.
  unfold waitForNetworkIdle.
  eapply sp_bind; [apply I_new_promise|]. intros p Hp.
  eapply sp_bind; [apply sp_get|]. intros e _.
  eapply sp_bind; [by apply I_setTimeout|]. intros t _.
  eapply sp_seq; [by apply (I_new_env _ _ t p)|].
  do 3 (eapply sp_seq; [by apply I_add|]).
  apply sp_retryDeadline.
Qed.

Lemma sp_loadCallback p : okp p → sp (loadCallback p) anything.
Proof. intros Hp. unfold loadCallback. eapply sp_seq; [by apply I_settle|]. apply I_remove. Qed.

Lemma sp_navigation_executor options : sp (navigation_executor options) okp.
Proof.
  unfold navigation_executor.
  eapply sp_bind; [apply I_new_promise|]. intros p Hp.
  eapply sp_seq; [|by apply sp_ret].
  destruct (waitUntil options) as [[]|].
  - by apply I_add.
  - eapply sp_bind; [apply sp_waitForNetworkIdle|]. intros q _. by apply I_then.
  - eapply sp_bind; [apply sp_waitForNetworkIdle|]. intros q _. by apply I_then.
  - eapply sp_bind; [apply sp_waitForNetworkIdle|]. intros q _. by apply I_then.
Qed.

Lemma sp_waitForNavigation_return options r :
  okp r → sp (waitForNavigation_return options r) anything.
Proof.
  intros Hr. unfold waitForNavigation_return.
  eapply sp_bind; [apply sp_navigation_executor|]. intros p _.
  eapply sp_bind; [apply sp_retryDeadline|]. intros d _. by apply I_then.
Qed.

Lemma sp_waitForNavigation_body self options :
  (∀ o, sp (self o) okp) → sp (waitForNavigation_body self options) okp.
Proof.
  intros Hself. unfold waitForNavigation_body.
  eapply sp_bind; [apply I_new_promise|]. intros r Hr.
  eapply sp_seq; [|by apply sp_ret].
  destruct (bool_decide _).
  - eapply sp_bind; [apply Hself|]. intros q _. by apply I_then.
  - by apply sp_waitForNavigation_return.
Qed.

Lemma sp_waitForNavigation options : sp (waitForNavigation options) okp.
Proof.
  unfold waitForNavigation. apply sp_waitForNavigation_body. intros o.
  apply sp_waitForNavigation_body. intros _. apply I_new_promise.
Qed.

Lemma sp_evaluate func opts : sp (evaluate func opts) okp.
Proof.
  unfold evaluate. eapply sp_bind; [apply I_new_promise|]. intros r Hr.
  eapply sp_bind; [apply sp_call|]. intros q _.
  eapply sp_bind; [apply sp_retryDeadline|]. intros d _.
  eapply sp_seq; [by apply I_then|]. by apply sp_ret.
Qed.

Lemma sp_waitForFunction func opts : sp (waitForFunction func opts) okp.
Proof.
  unfold waitForFunction. eapply sp_bind; [apply I_new_promise|]. intros r Hr.
  eapply sp_bind; [apply I_new_promise|]. intros l Hl.
  eapply sp_bind; [apply sp_evaluate|]. intros q _.
  eapply sp_seq; [by apply I_then|].
  eapply sp_bind; [apply sp_deadline|]. intros d _.
  eapply sp_seq; [by apply I_then|]. by apply sp_ret.
Qed.

Lemma sp_getRoot : sp getRoot okp.
Proof.
  unfold getRoot, getDocument. eapply sp_bind; [apply I_new_promise|]. intros r Hr.
  eapply sp_bind; [apply I_new_promise|]. intros l Hl.
  eapply sp_bind; [apply sp_call|]. intros q _.
  eapply sp_seq; [by apply I_then|].
  eapply sp_bind; [apply sp_retryDeadline|]. intros d _.
  eapply sp_seq; [by apply I_then|]. by apply sp_ret.
Qed.

Lemma sp_Promise_all ps : sp (Promise_all ps) okp.
Proof.
  unfold Promise_all. eapply sp_bind; [apply I_new_promise|]. intros a Ha.
  eapply sp_seq; [apply sp_for_each; intros p; by apply I_then|].
  eapply sp_seq; [apply sp_when; by apply I_settle|]. by apply sp_ret.
Qed.

Lemma sp_goto u options : sp (goto u options) okp.
Proof.
  unfold goto. eapply sp_bind; [apply I_new_promise|]. intros g Hg.
  eapply sp_bind; [apply sp_call|]. intros c _.
  eapply sp_bind; [apply sp_retryDeadline|]. intros d _.
  eapply sp_bind; [apply sp_waitForNavigation|]. intros n _.
  eapply sp_bind; [apply sp_Promise_all|]. intros a _.
  eapply sp_seq; [by apply I_then|]. by apply sp_ret.
Qed.

Lemma sp_reload options : sp (reload options) okp.
Proof.
  unfold reload. eapply sp_bind; [apply I_new_promise|]. intros g Hg.
  eapply sp_bind; [apply sp_call|]. intros c _.
  eapply sp_bind; [apply sp_retryDeadline|]. intros d _.
  eapply sp_bind; [apply sp_waitForNavigation|]. intros n _.
  eapply sp_bind; [apply sp_Promise_all|]. intros a _.
  eapply sp_seq; [by apply I_then|]. by apply sp_ret.
Qed.

Lemma sp_close : sp close okp.
Proof.
  unfold close. eapply sp_bind; [apply I_new_promise|]. intros r Hr.
  eapply sp_bind; [apply sp_get|]. intros base _.
  eapply sp_bind; [apply sp_get|]. intros i _.
  eapply sp_bind; [apply sp_fetch|]. intros req _.
  eapply sp_seq; [by apply I_then|]. by apply sp_ret.
Qed.

Lemma sp_close_after_text res r : okp r → sp (close_after_text res r) anything.
Proof.
  intros Hr. unfold close_after_text. destruct (String.eqb _ _).
  - eapply sp_bind; [apply sp_get|]. intros me _.
    eapply sp_bind; [apply sp_get|]. intros index _.
    eapply sp_seq; [apply sp_when, I_pages|]. by apply I_settle.
  - eapply sp_seq; [apply sp_celestial_close|]. by apply I_settle.
Qed.

Lemma sp_run_job k o : okp (target k) → sp (run_job k o) anything.
Proof.
  intros Hk. destruct k; cbn [target] in Hk; cbn [run_job].
  - eapply sp_seq; [apply I_clearTimeout|]. by apply I_settle.
  - destruct o; [by apply I_settle|by apply sp_ret].
  - by apply I_settle.
  - destruct o; by apply I_settle.
  - destruct o; [|by apply I_settle].
    eapply sp_bind; [apply sp_get|]. intros [vs|] _; [by apply I_settle|by apply sp_ret].
  - destruct o; [by apply sp_waitForNavigation_return|by apply I_settle].
  - destruct o as [root|]; [|by apply I_settle].
    destruct (is_truthy root); [by apply I_settle|].
    unfold getDocument. eapply sp_bind; [apply sp_call|]. intros q _. by apply I_then.
  - destruct o as [[]|]; by apply I_settle.
  - destruct o as [[]|]; by apply I_settle.
  - destruct o as [v|]; [|by apply I_settle].
    destruct (is_truthy v); [by apply I_settle|].
    eapply sp_bind; [apply sp_evaluate|]. intros q _. by apply I_then.
  - destruct o as [[]|]; try by apply I_settle.
    eapply sp_bind; [apply I_new_promise|]. intros t Ht.
    eapply sp_seq; [by apply I_settle|]. by apply I_then.
  - destruct o as [[[]| | | | |]|]; try by apply sp_close_after_text.
    by apply I_settle.
Qed.

Lemma sp_run_callback cb d : callback_ok okp cb → sp (run_callback cb d) anything.
Proof.
  intros Hcb. destruct cb; cbn [callback_ok] in Hcb; cbn [run_callback].
  - destruct d; [by apply sp_ret|apply I_url].
  - by apply I_trace.
  - by apply sp_loadCallback.
  - apply sp_timeoutDone.
  - apply I_requestStarted.
  - apply I_requestFinished.
  - by apply I_settle.
Qed.

(** *** The event loop *)

Hypothesis L : loop_frame I okp.

Local Abbreviation I_listeners := (loop_listeners I okp L).
Local Abbreviation I_timers := (loop_timers I okp L).
Local Abbreviation I_requests := (loop_requests I okp L).
Local Abbreviation I_job := (loop_job I okp L).

Lemma sp_dispatchEvent ty d : sp (dispatchEvent ty d) anything.
Proof.
  unfold dispatchEvent. eapply sp_bind; [apply sp_get|]. intros ls _.
  apply sp_for_each. intros l w HI. unfold bind, get.
  destruct (bool_decide (l ∈ listeners w)) eqn:Hl; [|by split].
  apply bool_decide_eq_true_1 in Hl.
  apply sp_run_callback; [|exact HI]. by eapply I_listeners.
Qed.

Lemma sp_fire t : sp (fire t) anything.
Proof.
  intros w HI. unfold fire, bind, get.
  destruct (timers w !! t) as [[[cb d]|]|] eqn:Ht; [|by split..].
  pose proof (I_timers w t cb d HI Ht) as Hcb. revert w HI Ht.
  change (∀ w, I w → timers w !! t = Some (Some (cb, d)) →
    I ((clearTimeout t ;; run_callback cb NoDetail) w).2 ∧
    anything ((clearTimeout t ;; run_callback cb NoDetail) w).1).
  intros w HI _. revert w HI.
  eapply sp_seq; [apply I_clearTimeout|]. by apply sp_run_callback.
Qed.

Lemma sp_respond p o : sp (respond p o) anything.
Proof.
  intros w HI. unfold respond, bind, get.
  destruct (existsb (is_request p) (log w)) eqn:Hp; [|by split].
  apply I_settle; [|exact HI]. by eapply I_requests.
Qed.

Lemma sp_task ev : sp (task ev) anything.
Proof.
  destruct ev; [apply sp_dispatchEvent|apply sp_fire|apply sp_respond].
Qed.

Lemma drain_keeps n w : I w → I (drain n w).
Proof.
  revert w. induction n as [|n IH]; intros w HI; [exact HI|].
  cbn [drain]. destruct (jobs w) as [|[k o] rest] eqn:Hj; [exact HI|].
  apply IH. by eapply I_job.
Qed.

Lemma step_keeps ev w : I w → I (step ev w).
Proof. intros HI. apply drain_keeps. by apply sp_task. Qed.

Lemma run_keeps evs w : I w → I (run evs w).
Proof.
  revert w. induction evs as [|ev evs IH]; intros w HI; [exact HI|].
  cbn [run foldl]. apply IH. by apply step_keeps.
Qed.

Lemma invoke_keeps {A} (c : M A) (Q : A → Prop) w :
  sp c Q → I w → I (invoke c w).2 ∧ Q (invoke c w).1.
Proof.
  intros Hc HI. unfold invoke. destruct (Hc w HI) as [HI' HQ].
  destruct (c w) as [a w']. split; [by apply drain_keeps|exact HQ].
Qed.
End Frame.

(** ** A settled promise keeps its outcome *)

Lemma requestStarted_promises e w :
  promises (requestStarted e w).2 = promises w.
Proof.
  change ((requestStarted e w).2) with (exec (requestStarted e) w).
  rewrite requestStarted_eq. cbv zeta.
  destruct (envs w !! e) as [v|]; [|done].
  by destruct (inflight v + 1 >? idleConnections v).
Qed.

Lemma requestFinished_promises e w :
  promises (requestFinished e w).2 = promises w.
Proof.
  change ((requestFinished e w).2) with (exec (requestFinished e) w).
  rewrite requestFinished_eq.
  destruct (envs w !! e) as [v|]; [|done].
  destruct (inflight v =? 0); [done|]. cbv zeta.
  by destruct (inflight v - 1 =? idleConnections v).
Qed.

Lemma new_promise_stable w0 w :
  stable w0 w → stable w0 (new_promise w).2.
Proof. intros HI p o H. apply lookup_app_l_Some. by apply HI. Qed.

Lemma settle_stable w0 w p o :
  stable w0 w → stable w0 (settle p o w).2.
Proof.
  intros HI. unfold settle, bind, get.
  destruct (promises w !! p) as [[ks|o']|] eqn:Hp; [|exact HI..].
  intros q oq Hq. specialize (HI q oq Hq). unfold settled_in in *. cbn.
  rewrite list_lookup_insert_ne; [exact HI|]. intros ->. congruence.
Qed.

Lemma then_stable w0 w p k :
  stable w0 w → stable w0 (then_ p k w).2.
Proof.
  intros HI. unfold then_, bind, get.
  destruct (promises w !! p) as [[ks|o']|] eqn:Hp; [|exact HI..].
  intros q oq Hq. specialize (HI q oq Hq). unfold settled_in in *. cbn.
  rewrite list_lookup_insert_ne; [exact HI|]. intros ->. congruence.
Qed.

Lemma stable_frame w0 : frame (stable w0) (λ _, True).
Proof.
  split; try (intros; intros w HI; split; [exact HI|exact Logic.I]).
  - intros w HI. split; [by apply new_promise_stable|exact Logic.I].
  - intros p o _ w HI. split; [by apply settle_stable|exact Logic.I].
  - intros p k _ w HI. split; [by apply then_stable|exact Logic.I].
  - intros e w HI. split; [|exact Logic.I]. intros q oq Hq. unfold settled_in.
    rewrite requestStarted_promises. by apply HI.
  - intros e w HI. split; [|exact Logic.I]. intros q oq Hq. unfold settled_in.
    rewrite requestFinished_promises. by apply HI.
  - done.
Qed.

Lemma callback_ok_True (cb : callback) : callback_ok (λ _, True) cb.
Proof. by destruct cb. Qed.

Lemma stable_loop w0 : loop_frame (stable w0) (λ _, True).
Proof.
  split; [intros; apply callback_ok_True..|done|]. intros w k o rest HI _.
  by apply (sp_run_job _ _ (stable_frame w0)).
Qed.

Lemma stable_refl w : stable w w.
Proof. by intros p o H. Qed.

(** Once settled, a promise keeps its outcome whatever happens next. *)
Lemma settled_forever (evs : list event) (w : World) (p : promise) (o : outcome) :
  settled_in w p o → settled_in (run evs w) p o.
Proof.
  intros H. by apply (run_keeps _ _ (stable_frame w) (stable_loop w) evs w (stable_refl w)).
Qed.

Lemma settled_step (ev : event) (w : World) (p : promise) (o : outcome) :
  settled_in w p o → settled_in (step ev w) p o.
Proof. apply (settled_forever [ev]). Qed.

(** ** The in-flight counter *)

Lemma settle_envs p o w : envs (settle p o w).2 = envs w.
Proof. unfold settle, bind, get. by destruct (promises w !! p) as [[]|]. Qed.

Lemma then_envs p k w : envs (then_ p k w).2 = envs w.
Proof. unfold then_, bind, get. by destruct (promises w !! p) as [[]|]. Qed.

Lemma requestStarted_nonnegative e w :
  nonnegative w → nonnegative (exec (requestStarted e) w).
Proof.
  intros HI. rewrite requestStarted_eq. cbv zeta.
  assert (nonnegative (with_envs (alter (λ v, set_inflight (inflight v + 1) v) e) w)) as H1.
  { apply Forall_alter; [exact HI|]. intros v _ Hv. cbn. lia. }
  destruct (envs w !! e) as [v|]; [|exact H1].
  by destruct (inflight v + 1 >? idleConnections v).
Qed.

Lemma requestFinished_nonnegative e w :
  nonnegative w → nonnegative (exec (requestFinished e) w).
Proof.
  intros HI. rewrite requestFinished_eq.
  destruct (envs w !! e) as [v|] eqn:Hv; [|exact HI].
  destruct (Z.eqb_spec (inflight v) 0) as [|Hne]; [exact HI|]. cbv zeta.
  assert (nonnegative (with_envs (alter (λ v, set_inflight (inflight v - 1) v) e) w)) as H1.
  { apply Forall_alter; [exact HI|]. intros v' Hv' Hpos. cbn.
    assert (v' = v) as -> by congruence. lia. }
  destruct (inflight v - 1 =? idleConnections v); [|exact H1].
  apply Forall_alter; [exact H1|]. by intros v' _ Hpos.
Qed.

Lemma nonnegative_frame : frame nonnegative (λ _, True).
Proof.
  split; try (intros; intros w HI; split; [exact HI|exact Logic.I]).
  - intros p o _ w HI. split; [|exact Logic.I]. unfold nonnegative.
    rewrite settle_envs. exact HI.
  - intros p k _ w HI. split; [|exact Logic.I]. unfold nonnegative.
    rewrite then_envs. exact HI.
  - intros it ic t p _ w HI. split; [|exact Logic.I].
    apply Forall_app. split; [exact HI|]. by repeat constructor.
  - intros e w HI. split; [by apply requestStarted_nonnegative|exact Logic.I].
  - intros e w HI. split; [by apply requestFinished_nonnegative|exact Logic.I].
  - done.
Qed.

Lemma nonnegative_loop : loop_frame nonnegative (λ _, True).
Proof.
  split; [intros; apply callback_ok_True..|done|]. intros w k o rest HI _.
  by apply (sp_run_job _ _ nonnegative_frame).
Qed.

(** C6: a request-finished or request-failed handler that finds the counter
    at zero returns at once and leaves the world as it is; and, from any
    world whose counters are not negative, a call of waitForNetworkIdle
    followed by any sequence of events leaves every in-flight counter at
    zero or above. *)
Theorem inflight_never_negative :
  (∀ (w : World) (e : env_id) (v : IdleEnv),
     envs w !! e = Some v → inflight v = 0 →
     exec (requestFinished e) w = w)
  ∧ (∀ (options : option WaitForNetworkIdleOptions) (w : World)
       (evs : list event),
     nonnegative w →
     nonnegative (run evs (invoke (waitForNetworkIdle options) w).2)).
Proof.
  split.
  - intros w e v Hv H0. rewrite requestFinished_eq, Hv, H0. reflexivity.
  - intros options w evs HI.
    apply (run_keeps _ _ nonnegative_frame nonnegative_loop).
    eapply proj1, (invoke_keeps nonnegative _ nonnegative_loop); [|exact HI].
    apply sp_waitForNetworkIdle, nonnegative_frame.
Qed.

Lemma inflight_never_negative_witness :
  (let w := (invoke (waitForNetworkIdle None) sample_page).2 in
   exec (requestFinished 0) w = w)
  ∧ nonnegative
      (run [request_finished; request_sent; request_failed; request_finished]
         (invoke (waitForNetworkIdle None) sample_page).2).
Proof.
  split.
  - cbv zeta.
    eapply (proj1 inflight_never_negative); [vm_compute; reflexivity|reflexivity].
  - apply (proj2 inflight_never_negative). vm_compute. constructor.
Defined.

(** ** Steps of the event loop *)

Lemma drain_nil (n : nat) (w : World) : jobs w = [] → drain n w = w.
Proof. intros H. destruct n; [done|]. cbn [drain]. by rewrite H. Qed.

Lemma drain_cons (n : nat) (w : World) k o rest :
  jobs w = (k, o) :: rest →
  drain (S n) w = drain n (exec (run_job k o) (with_jobs (λ _, rest) w)).
Proof. intros H. cbn [drain]. by rewrite H. Qed.

Lemma dispatchEvent_none (ty : string) (d : detail) (w : World) :
  filter (λ l, l.1 = ty) (listeners w) = [] →
  exec (dispatchEvent ty d) w = w.
Proof.
  intros H. unfold exec, dispatchEvent, bind, get. cbn [fst snd]. by rewrite H.
Qed.

Lemma dispatchEvent_one (ty : string) (d : detail) (w : World) l :
  filter (λ l, l.1 = ty) (listeners w) = [l] →
  exec (dispatchEvent ty d) w = exec (run_callback l.2 d) w.
Proof.
  intros H. unfold exec, dispatchEvent, bind, get. cbn [fst snd]. rewrite H.
  cbn [for_each]. unfold bind, get.
  assert (l ∈ listeners w) as Hl.
  { eapply (list_elem_of_filter (λ l, l.1 = ty)). rewrite H. by left. }
  rewrite (bool_decide_eq_true_2 _ Hl). cbn [when].
  by destruct (run_callback l.2 d w).
Qed.

Lemma fire_armed (t : timer_id) (w : World) cb d :
  timers w !! t = Some (Some (cb, d)) →
  exec (fire t) w =
  exec (run_callback cb NoDetail) (with_timers (λ ts, <[t := None]> ts) w).
Proof. intros H. unfold exec, fire, bind, get. cbn [fst snd]. by rewrite H. Qed.

Lemma fire_idle (t : timer_id) (w : World) :
  (∀ cb d, timers w !! t ≠ Some (Some (cb, d))) → exec (fire t) w = w.
Proof.
  intros H. unfold exec, fire, bind, get. cbn [fst snd].
  destruct (timers w !! t) as [[[cb d]|]|] eqn:Ht; [|done..]. by destruct (H cb d).
Qed.

Lemma respond_unknown (p : promise) (o : outcome) (w : World) :
  existsb (is_request p) (log w) = false → exec (respond p o) w = w.
Proof. intros H. unfold exec, respond, bind, get. cbn [fst snd]. by rewrite H. Qed.

Lemma idle_filter (ty : string) :
  filter (λ l : string * callback, l.1 = ty) idle_listeners =
  if bool_decide (ty = "Page.frameNavigated") then
    [("Page.frameNavigated", FrameNavigated)]
  else if bool_decide (ty = "Page.javascriptDialogOpening") then
    [("Page.javascriptDialogOpening", JavascriptDialogOpening)]
  else if bool_decide (ty = "Network.requestWillBeSent") then
    [("Network.requestWillBeSent", RequestStarted 0)]
  else if bool_decide (ty = "Network.loadingFailed") then
    [("Network.loadingFailed", RequestFinished 0)]
  else if bool_decide (ty = "Network.loadingFinished") then
    [("Network.loadingFinished", RequestFinished 0)]
  else [].
Proof.
  repeat (case_bool_decide; [subst ty; vm_compute; reflexivity|]).
  unfold idle_listeners. rewrite !filter_cons, filter_nil.
  repeat (rewrite decide_False by (cbn; congruence)). done.
Qed.
Lemma drain_S (n : nat) (w : World) :
  drain (S n) w =
  match jobs w with
  | [] => w
  | (k, o) :: rest => drain n (exec (run_job k o) (with_jobs (λ _, rest) w))
  end.
Proof. reflexivity. Qed.

(** Evaluation of the monadic code on a world whose tables may hold
    variables. *)
Ltac mred :=
  cbv -[drain lookup insert app length existsb Z.add Z.sub Z.gtb Z.eqb Z.leb
        Z.ltb Z.le Z.lt Page_timeout String.append String.eqb];
  cbn [lookup list_lookup insert list_insert app length].

Ltac drain_step := unfold fuel; repeat (rewrite drain_S; mred).

(** ** One network-idle wait on a new page *)

Lemma idle_invoke me id_ url_ base pgs options :
  invoke (waitForNetworkIdle options) (new_Page me id_ url_ base pgs) =
  (1%nat, idle_world (option_idleTime options) (option_idleConnections options)
            me id_ url_ base pgs).
Proof. reflexivity. Qed.

Lemma idle_world_shape D T me id_ url_ base pgs :
  idle_shape D T (idle_world D T me id_ url_ base pgs) 0 0.
Proof.
  split; try done.
  intros [|[|[|t']]] cb d H; cbn in H; try done.
  - right. by injection H as <- <-.
  - left. by injection H as <- <-.
Qed.

Lemma shape_requestStarted D T w n t :
  idle_shape D T w n t →
  idle_shape D T (exec (requestStarted 0) w) (n + 1) t ∧
  (idle_armed D T w n t → idle_armed D T (exec (requestStarted 0) w) (n + 1) t).
Proof.
  intros [Hls Hps Hjs Hes Hdl Hts Ht Hn Hrq].
  rewrite requestStarted_eq, Hes. cbn [lookup list_lookup]. cbv zeta.
  change (inflight (idle_env D T n t)) with n.
  change (idleConnections (idle_env D T n t)) with T.
  change (timeout (idle_env D T n t)) with t.
  assert (alter (λ v, set_inflight (inflight v + 1) v) 0%nat (envs w)
          = [idle_env D T (n + 1) t]) as Hes' by (by rewrite Hes).
  destruct (Z.gtb_spec (n + 1) T) as [Hgt|Hle].
  - split.
    + split; cbn; try done; try lia.
      * by rewrite list_lookup_insert_ne.
      * intros t' cb d H. apply Hts. destruct (decide (t = t')) as [->|Hne].
        -- apply lookup_lt_Some in H as Hlt. rewrite length_insert in Hlt.
           by rewrite list_lookup_insert_eq in H.
        -- by rewrite list_lookup_insert_ne in H.
    + intros [Hin Honly]. split; cbn; [lia|].
      intros t' d H. destruct (decide (t = t')) as [->|Hne].
      * apply lookup_lt_Some in H as Hlt. rewrite length_insert in Hlt.
        by rewrite list_lookup_insert_eq in H.
      * rewrite list_lookup_insert_ne in H by done.
        destruct (Honly t' d H) as [-> _]. done.
  - split.
    + split; cbn; try done; lia.
    + intros [Hin Honly]. split; cbn.
      * intros _. apply Hin. lia.
      * intros t' d H. destruct (Honly t' d H) as [-> _]. split; [done|lia].
Qed.

Lemma shape_requestFinished D T w n t :
  idle_shape D T w n t →
  ∃ n' t',
    idle_shape D T (exec (requestFinished 0) w) n' t' ∧
    (idle_armed D T w n t → idle_armed D T (exec (requestFinished 0) w) n' t') ∧
    (n = 0 → exec (requestFinished 0) w = w ∧ n' = 0 ∧ t' = t).
Proof.
  intros Hs. pose proof Hs as [Hls Hps Hjs Hes Hdl Hts Ht Hn Hrq].
  rewrite requestFinished_eq, Hes. cbn [lookup list_lookup].
  change (inflight (idle_env D T n t)) with n.
  change (idleConnections (idle_env D T n t)) with T.
  change (idleTime (idle_env D T n t)) with D. cbv zeta.
  destruct (Z.eqb_spec n 0) as [Hz|Hnz].
  { exists n, t. split; [exact Hs|]. split; [done|]. by intros _. }
  assert (1 < length (timers w))%nat as Hlen by (by apply lookup_lt_Some in Hdl).
  destruct (Z.eqb_spec (n - 1) T) as [HT|HT].
  - exists (n - 1), (length (timers w)). split; [|split; [|lia]].
    + split; cbn; try done; try lia.
      * by rewrite Hes.
      * by rewrite lookup_app_l.
      * intros t' cb d H. apply lookup_app_Some in H as [H|[Hge H]]; [by apply Hts|].
        destruct (t' - length (timers w))%nat eqn:Hsub; cbn in H; [|done].
        injection H as <- <-. right. split; [lia|done].
    + intros [Hin Honly]. split; cbn.
      * intros _. by rewrite lookup_app_r, Nat.sub_diag.
      * intros t' d H. apply lookup_app_Some in H as [H|[Hge H]].
        -- destruct (Honly t' d H). lia.
        -- destruct (t' - length (timers w))%nat eqn:Hsub; cbn in H; [|done].
           split; lia.
  - exists (n - 1), t. split; [|split; [|lia]].
    + split; cbn; try done; try lia. by rewrite Hes.
    + intros [Hin Honly]. split; cbn.
      * intros Hle. apply Hin. lia.
      * intros t' d H. destruct (Honly t' d H) as [-> ?]. split; [done|lia].
Qed.
Lemma shape_frame D T w n t (w' : World) :
  idle_shape D T w n t →
  listeners w' = listeners w → promises w' = promises w → jobs w' = jobs w →
  envs w' = envs w → timers w' = timers w →
  (∀ p, existsb (is_request p) (log w') = false) →
  idle_shape D T w' n t ∧ (idle_armed D T w n t → idle_armed D T w' n t).
Proof.
  intros [Hls Hps Hjs Hes Hdl Hts Ht Hn Hrq] E1 E2 E3 E4 E5 E6. split.
  - split; rewrite ?E1, ?E2, ?E3, ?E4, ?E5; done.
  - intros [Hin Honly]. split; rewrite ?E5; done.
Qed.

Lemma existsb_snoc {A} (f : A → bool) (l : list A) (x : A) :
  existsb f (l ++ [x]) = existsb f l || f x.
Proof. rewrite existsb_app. cbn. by rewrite orb_false_r. Qed.

(** What one task does to a pending wait: it stays pending, or the deadline
    rejects it, or an idle timer resolves it. *)
Lemma idle_step D T w n t ev :
  idle_shape D T w n t →
  (∃ n' t',
     idle_shape D T (step ev w) n' t' ∧
     (idle_armed D T w n t → idle_armed D T (step ev w) n' t') ∧
     (quiet ev = true → n = 0 →
      n' = 0 ∧ t' = t ∧ timers (step ev w) = timers w))
  ∨ (ev = TimerFire 1 ∧
     settled_in (step ev w) 1 (Rejected DeadlineError) ∧
     listeners (step ev w) = listeners w ∧ log (step ev w) = log w)
  ∨ (∃ t', ev = TimerFire t' ∧
     timers w !! t' = Some (Some (TimeoutDone 0, D)) ∧
     settled_in (step ev w) 1 (Fulfilled (Js VUndefined)) ∧
     log (step ev w) = log w ++ idle_removals).
Proof.
  intros Hs. pose proof Hs as [Hls Hps Hjs Hes Hdl Hts Ht Hn Hrq].
  destruct ev as [ty d|t'|p o]; unfold step, task.
  - (* an event of the protocol *)
    left. pose proof (idle_filter ty) as Hf. rewrite <- Hls in Hf.
    repeat case_bool_decide.
    + rewrite (dispatchEvent_one _ _ _ _ Hf). cbn [snd run_callback].
      destruct d as [|frag u].
      * rewrite drain_nil by done. exists n, t. split; [done|]. by split.
      * rewrite drain_nil by done. exists n, t.
        destruct (shape_frame D T w n t (exec (modify (with_url (λ _, Some (default u frag)))) w) Hs)
          as [Sh Ar]; try done.
    + rewrite (dispatchEvent_one _ _ _ _ Hf). cbn [snd run_callback].
      rewrite drain_nil by done. exists n, t.
      destruct (shape_frame D T w n t (exec (trace IoDialog) w) Hs) as [Sh Ar];
        try done.
      intros p. cbn. rewrite existsb_snoc, Hrq. done.
    + rewrite (dispatchEvent_one _ _ _ _ Hf). cbn [snd run_callback].
      destruct (shape_requestStarted D T w n t Hs) as [Sh Ar].
      rewrite drain_nil by apply Sh. exists (n + 1), t.
      split; [done|]. split; [done|]. subst ty. done.
    + rewrite (dispatchEvent_one _ _ _ _ Hf). cbn [snd run_callback].
      destruct (shape_requestFinished D T w n t Hs) as (n' & t' & Sh & Ar & Ze).
      rewrite drain_nil by apply Sh. exists n', t'.
      split; [done|]. split; [done|]. intros _ Hz.
      destruct (Ze Hz) as (-> & -> & ->). done.
    + rewrite (dispatchEvent_one _ _ _ _ Hf). cbn [snd run_callback].
      destruct (shape_requestFinished D T w n t Hs) as (n' & t' & Sh & Ar & Ze).
      rewrite drain_nil by apply Sh. exists n', t'.
      split; [done|]. split; [done|]. intros _ Hz.
      destruct (Ze Hz) as (-> & -> & ->). done.
    + rewrite (dispatchEvent_none _ _ _ Hf), drain_nil by done.
      exists n, t. split; [done|]. by split.
  - (* a timer *)
    destruct (timers w !! t') as [[[cb d]|]|] eqn:Ht'.
    + destruct w as [ls ws ts ps js es me i u b pg lg].
      cbn in Hls, Hps, Hjs, Hes, Hdl, Hts, Hrq, Ht'. subst ls ps js es.
      erewrite fire_armed by exact Ht'.
      destruct (Hts t' cb d Ht') as [[-> ->]|(Hne & -> & ->)].
      * right. left. split; [done|]. mred. drain_step. done.
      * right. right. exists t'. split; [done|]. split; [done|].
        mred. drain_step. split; [done|]. cbn. by rewrite <- !app_assoc.
    + left. rewrite fire_idle, drain_nil by (done || congruence).
      exists n, t. split; [done|]. by split.
    + left. rewrite fire_idle, drain_nil by (done || congruence).
      exists n, t. split; [done|]. by split.
  - (* a response *)
    left. rewrite respond_unknown, drain_nil by done.
    exists n, t. split; [done|]. by split.
Qed.
Lemma idle_run D T evs : ∀ w n t,
  idle_shape D T w n t →
  (∃ n' t',
     idle_shape D T (run evs w) n' t' ∧
     (idle_armed D T w n t → idle_armed D T (run evs w) n' t') ∧
     (Forall (λ ev, quiet ev = true) evs → n = 0 →
      n' = 0 ∧ t' = t ∧ timers (run evs w) = timers w))
  ∨ (∃ o, settled_in (run evs w) 1 o).
Proof.
  induction evs as [|ev evs IH]; intros w n t Hs.
  { left. exists n, t. split; [done|]. split; [done|]. done. }
  change (run (ev :: evs) w) with (run evs (step ev w)).
  destruct (idle_step D T w n t ev Hs)
    as [(n' & t' & Sh & Ar & Qu)|[(_ & Hset & _)|(t' & _ & _ & Hset & _)]].
  - destruct (IH _ _ _ Sh) as [(n'' & t'' & Sh' & Ar' & Qu')|Hset]; [|by right].
    left. exists n'', t''. split; [done|]. split; [by auto|].
    intros Hq Hz. apply Forall_cons in Hq as [Hq1 Hq2].
    destruct (Qu Hq1 Hz) as (-> & -> & Et).
    destruct (Qu' Hq2 eq_refl) as (-> & -> & Et'). by rewrite Et', Et.
  - right. eexists. by apply settled_forever.
  - right. eexists. by apply settled_forever.
Qed.

Lemma is_pending_not_settled w p o :
  is_pending w p = true → settled_in w p o → False.
Proof. unfold is_pending, settled_in. intros H Hs. by rewrite Hs in H. Qed.




(** ** One load wait on a new page *)

Lemma load_filter (p : promise) (ty : string) :
  filter (λ l : string * callback, l.1 = ty) (load_listeners p) =
  if bool_decide (ty = "Page.frameNavigated") then
    [("Page.frameNavigated", FrameNavigated)]
  else if bool_decide (ty = "Page.javascriptDialogOpening") then
    [("Page.javascriptDialogOpening", JavascriptDialogOpening)]
  else if bool_decide (ty = "Page.loadEventFired") then
    [("Page.loadEventFired", LoadCallback p)]
  else [].
Proof.
  unfold load_listeners. rewrite !filter_cons, filter_nil. cbn [fst].
  repeat (case_bool_decide;
          [subst ty; repeat (rewrite decide_True by done || rewrite decide_False by done); done|]).
  repeat (rewrite decide_False by congruence). done.
Qed.

Lemma load_shape_frame p d ps w (w' : World) :
  load_shape p d ps w →
  listeners w' = listeners w → promises w' = promises w → jobs w' = jobs w →
  envs w' = envs w → timers w' = timers w →
  (∀ q, existsb (is_request q) (log w') = false) →
  load_shape p d ps w'.
Proof.
  intros [Hls Hps Hjs Hes Hts Hrq] E1 E2 E3 E4 E5 E6.
  split; rewrite ?E1, ?E2, ?E3, ?E4, ?E5; done.
Qed.

(** Until the load event or the deadline, the wait stays as it is. *)
Lemma load_step_stays p d ps w ev :
  load_shape p d ps w → ends_load ev = false →
  load_shape p d ps (step ev w) ∧ listeners (step ev w) = listeners w.
Proof.
  intros Hs He. pose proof Hs as [Hls Hps Hjs Hes Hts Hrq].
  destruct ev as [ty dd|t|q o]; unfold step, task.
  - pose proof (load_filter p ty) as Hf. rewrite <- Hls in Hf.
    cbn in He. apply String.eqb_neq in He.
    repeat case_bool_decide; try done.
    + rewrite (dispatchEvent_one _ _ _ _ Hf). cbn [snd run_callback].
      destruct dd as [|frag u]; rewrite drain_nil by done; [done|].
      split; [|done]. by apply (load_shape_frame p d ps w).
    + rewrite (dispatchEvent_one _ _ _ _ Hf). cbn [snd run_callback].
      rewrite drain_nil by done. split; [|done].
      apply (load_shape_frame p d ps w); try done.
      intros q. cbn. rewrite existsb_snoc, Hrq. done.
    + by rewrite (dispatchEvent_none _ _ _ Hf), drain_nil.
  - cbn in He. apply bool_decide_eq_false_1 in He.
    rewrite fire_idle, drain_nil; [done..|].
    intros cb dl. rewrite Hts. destruct t as [|[|t]]; done.
  - by rewrite respond_unknown, drain_nil.
Qed.

Lemma load_run_stays p d ps evs : ∀ w,
  load_shape p d ps w → Forall (λ ev, ends_load ev = false) evs →
  load_shape p d ps (run evs w) ∧ listeners (run evs w) = listeners w.
Proof.
  induction evs as [|ev evs IH]; intros w Hs Hq; [done|].
  apply Forall_cons in Hq as [Hq1 Hq2].
  change (run (ev :: evs) w) with (run evs (step ev w)).
  destruct (load_step_stays p d ps w ev Hs Hq1) as [Hs' El].
  destruct (IH _ Hs' Hq2) as [Hs'' El']. split; [done|]. by rewrite El'.
Qed.
Lemma load_run p d ps (x : promise) :
  (∀ w ev, load_shape p d ps w → ends_load ev = true →
           ∃ o, settled_in (step ev w) x o) →
  ∀ evs w, load_shape p d ps w →
    (load_shape p d ps (run evs w) ∧ listeners (run evs w) = listeners w)
    ∨ (∃ o, settled_in (run evs w) x o).
Proof.
  intros Hend. induction evs as [|ev evs IH]; intros w Hs; [by left|].
  change (run (ev :: evs) w) with (run evs (step ev w)).
  destruct (ends_load ev) eqn:He.
  - right. destruct (Hend w ev Hs He) as [o Ho]. exists o. by apply settled_forever.
  - destruct (load_step_stays p d ps w ev Hs He) as [Hs' El].
    destruct (IH _ Hs') as [[Hs'' El']|Hset]; [left|by right].
    split; [done|]. by rewrite El'.
Qed.

Lemma ends_load_cases ev :
  ends_load ev = true →
  (∃ dd, ev = Dispatch "Page.loadEventFired" dd) ∨ ev = TimerFire 0.
Proof.
  destruct ev as [ty dd|t|q o]; cbn; [| |done].
  - intros ->%String.eqb_eq. left. by exists dd.
  - intros ->%bool_decide_eq_true_1. by right.
Qed.

Ltac load_world_literal w Hs :=
  destruct w as [ls ws ts ps' js es me i u b pg lg];
  destruct Hs as [Hls Hps Hjs Hes Hts Hrq];
  cbn in Hls, Hps, Hjs, Hes, Hts, Hrq; subst ls ps' js es ts.

(** *** waitForNavigation under the load criterion *)

Lemma load_invoke me id_ url_ base pgs :
  invoke (waitForNavigation load_option) (new_Page me id_ url_ base pgs)
  = (0%nat, load_world me id_ url_ base pgs).
Proof. reflexivity. Qed.

Lemma load_world_shape me id_ url_ base pgs :
  load_shape 1 2 load_promises (load_world me id_ url_ base pgs).
Proof. by split. Qed.


Lemma load_event_resolves w dd :
  load_shape 1 2 load_promises w →
  let w' := step (Dispatch "Page.loadEventFired" dd) w in
  settled_in w' 0 (Fulfilled (Js VUndefined)) ∧
  log w' = log w ++ [IoRemove "Page_loadEventFired" (LoadCallback 1)].
Proof.
  intros Hs. pose proof (load_filter 1 "Page.loadEventFired") as Hf.
  rewrite <- (load_shape_listeners _ _ _ _ Hs) in Hf.
  change (bool_decide _) with false in Hf at 1 2.
  change (bool_decide _) with true in Hf. cbv iota in Hf.
  cbv zeta. unfold step, task. rewrite (dispatchEvent_one _ _ _ _ Hf).
  load_world_literal w Hs. mred. drain_step. done.
Qed.



(** ** Completion of a wait and its subscriptions *)

Lemma idle_deadline_rejects D T w n t :
  idle_shape D T w n t →
  settled_in (step (TimerFire 1) w) 1 (Rejected DeadlineError).
Proof.
  intros Hs. destruct (idle_step D T w n t (TimerFire 1) Hs)
    as [(n' & t' & Sh & _)|[(_ & Hset & _)|(t' & [= <-] & Ht' & _)]]; [|done|].
  - exfalso. revert Sh. unfold step, task.
    erewrite fire_armed by apply Hs.
    destruct w as [ls ws ts ps js es me i u b pg lg].
    destruct Hs as [Hls Hps Hjs Hes Hdl Hts Ht Hn Hrq].
    cbn in Hls, Hps, Hjs, Hes, Hdl, Hts, Hrq. subst ls ps js es.
    mred. drain_step. by intros [_ [=] _ _ _ _ _ _ _].
  - rewrite (shape_deadline _ _ _ _ _ Hs) in Ht'. done.
Qed.



Lemma settled_in_inj w p o1 o2 :
  settled_in w p o1 → settled_in w p o2 → o1 = o2.
Proof. unfold settled_in. congruence. Qed.





(** ** Requests outstanding before the wait *)

Lemma idle_timer_resolves D T w n t t' :
  idle_shape D T w n t →
  timers w !! t' = Some (Some (TimeoutDone 0, D)) →
  settled_in (step (TimerFire t') w) 1 (Fulfilled (Js VUndefined)).
Proof.
  intros Hs Ht'. destruct (idle_step D T w n t (TimerFire t') Hs)
    as [(n' & t'' & Sh & _)|[([= ->] & _)|(t'' & [= <-] & _ & Hset & _)]]; [| |done].
  - exfalso. revert Sh. unfold step, task. erewrite fire_armed by exact Ht'.
    destruct w as [ls ws ts ps js es me i u b pg lg].
    destruct Hs as [Hls Hps Hjs Hes Hdl Hts Ht Hn Hrq].
    cbn in Hls, Hps, Hjs, Hes, Hdl, Hts, Hrq, Ht'. subst ls ps js es.
    mred. drain_step. by intros [_ [=] _ _ _ _ _ _ _].
  - rewrite (shape_deadline _ _ _ _ _ Hs) in Ht'. done.
Qed.

(** C10: every call of waitForNetworkIdle on a new page starts its
    in-flight counter at zero and arms the idle timer for the idle duration;
    whatever events follow, as long as none is a request-started event and
    no timer fires (completions of requests that were outstanding before the
    wait included), the counter is still zero, the wait is pending and that
    timer is still armed; when it fires, the wait resolves. *)
Theorem outstanding_requests_are_not_counted
    (me : page_ref) (id_ : string) (url_ : option string) (base : string)
    (pgs : list page_ref) (options : option WaitForNetworkIdleOptions)
    (evs : list event) :
  let D := option_idleTime options in
  let start := invoke (waitForNetworkIdle options) (new_Page me id_ url_ base pgs) in
  let w := run evs start.2 in
  Forall (λ ev, quiet ev = true) evs →
  (∃ v, envs start.2 = [v] ∧ inflight v = 0 ∧
        timers start.2 !! timeout v = Some (Some (TimeoutDone 0, D)))
  ∧ (∃ v, envs w = [v] ∧ inflight v = 0 ∧
          timers w !! timeout v = Some (Some (TimeoutDone 0, D)) ∧
          is_pending w start.1 = true ∧
          settled_in (step (TimerFire (timeout v)) w) start.1
            (Fulfilled (Js VUndefined))).
Proof.
  intros D start w Hq. subst start w. rewrite idle_invoke in *.
  cbn [fst snd] in *. fold D.
  set (T := option_idleConnections options) in *.
  split; [by eexists|].
  destruct (idle_run D T evs _ 0 0 (idle_world_shape D T me id_ url_ base pgs))
    as [(n & t & Sh & _ & Qu)|[o Hset]].
  - destruct (Qu Hq eq_refl) as (-> & -> & Et).
    exists (idle_env D T 0 0). split; [apply Sh|]. split; [done|].
    assert (timers (run evs (idle_world D T me id_ url_ base pgs)) !! 0%nat
            = Some (Some (TimeoutDone 0, D))) as Ht by (by rewrite Et).
    split; [exact Ht|]. split.
    + unfold is_pending. by rewrite (shape_promises _ _ _ _ _ Sh).
    + by eapply idle_timer_resolves.
  - exfalso. clear -Hq Hset. revert Hset.
    generalize (idle_world_shape D T me id_ url_ base pgs).
    generalize (idle_world D T me id_ url_ base pgs). generalize 0 at 1. generalize 0%nat at 1.
    induction evs as [|ev evs IH]; intros t n w Hs Hset.
    + unfold settled_in in Hset. cbn in Hset. by rewrite (shape_promises _ _ _ _ _ Hs) in Hset.
    + apply Forall_cons in Hq as [Hq1 Hq2].
      change (run (ev :: evs) w) with (run evs (step ev w)) in Hset.
      destruct (idle_step D T w n t ev Hs)
        as [(n' & t' & Sh & _)|[(-> & _)|(t' & -> & _)]]; [|done..].
      by eapply IH.
Qed.

Lemma outstanding_requests_are_not_counted_witness :
  let evs := [request_finished; request_failed; request_finished] in
  let start := invoke (waitForNetworkIdle None) sample_page in
  let w := run evs start.2 in
  Forall (λ ev, quiet ev = true) evs ∧
  (∃ v, envs start.2 = [v] ∧ inflight v = 0 ∧
        timers start.2 !! timeout v = Some (Some (TimeoutDone 0, 500)))
  ∧ (∃ v, envs w = [v] ∧ inflight v = 0 ∧
          timers w !! timeout v = Some (Some (TimeoutDone 0, 500)) ∧
          is_pending w start.1 = true ∧
          settled_in (step (TimerFire (timeout v)) w) start.1
            (Fulfilled (Js VUndefined))).
Proof.
  cbv zeta.
  assert (Forall (λ ev, quiet ev = true)
            [request_finished; request_failed; request_finished]) as Hq
    by (repeat constructor).
  split; [exact Hq|].
  exact (outstanding_requests_are_not_counted 7 "ABC" None
           "http://localhost:9222" [3; 7; 9]%nat None _ Hq).
Defined.

(** ** waitForNavigation under a criterion other than load *)

Lemma nav_invoke me id_ url_ base pgs options :
  waitUntil (nav_options options) ≠ Some load →
  invoke (waitForNavigation options) (new_Page me id_ url_ base pgs)
  = (0%nat, nav_world (nav_options options) me id_ url_ base pgs).
Proof. by destruct options as [[[[]|]]|]. Qed.

Lemma nav_world_shape options me id_ url_ base pgs :
  load_shape 2 3 (nav_promises options) (nav_world options me id_ url_ base pgs).
Proof. by split. Qed.

(** The load event fulfils the sub-wait, and the same task starts the
    network-idle wait. *)
Lemma nav_load_event options w dd :
  load_shape 2 3 (nav_promises options) w →
  waitUntil options ≠ Some load →
  let w' := step (Dispatch "Page.loadEventFired" dd) w in
  settled_in w' 1 (Fulfilled (Js VUndefined)) ∧
  is_pending w' 0 = true ∧
  ∃ t p, envs w' = [new_env 500 (threshold_of (waitUntil options)) t p].
Proof.
  intros Hs Hne. pose proof (load_filter 2 "Page.loadEventFired") as Hf.
  rewrite <- (load_shape_listeners _ _ _ _ Hs) in Hf.
  change (bool_decide _) with false in Hf at 1 2.
  change (bool_decide _) with true in Hf. cbv iota in Hf.
  cbv zeta. unfold step, task. rewrite (dispatchEvent_one _ _ _ _ Hf).
  load_world_literal w Hs.
  destruct options as [[[]|]]; [done|..]; mred; drain_step;
    (split; [done|]); (split; [done|]); by do 2 eexists.
Qed.

Lemma nav_deadline options w :
  load_shape 2 3 (nav_promises options) w →
  let w' := step (TimerFire 0) w in
  settled_in w' 1 (Rejected DeadlineError) ∧
  settled_in w' 0 (Rejected DeadlineError).
Proof.
  intros Hs. cbv zeta. unfold step, task.
  erewrite fire_armed by (rewrite (load_shape_timers _ _ _ _ Hs); reflexivity).
  load_world_literal w Hs. mred. drain_step. done.
Qed.

Lemma nav_ends options :
  waitUntil options ≠ Some load →
  ∀ w ev, load_shape 2 3 (nav_promises options) w → ends_load ev = true →
  ∃ o, settled_in (step ev w) 1 o.
Proof.
  intros Hne w ev Hs [[dd ->]| ->]%ends_load_cases; eexists.
  - exact (proj1 (nav_load_event options w dd Hs Hne)).
  - exact (proj1 (nav_deadline options w Hs)).
Qed.

(** The method is fulfilled only after its load sub-wait. *)
Lemma nav_fulfilled_after_load options evs : ∀ w,
  waitUntil options ≠ Some load →
  load_shape 2 3 (nav_promises options) w →
  load_shape 2 3 (nav_promises options) (run evs w)
  ∨ (∃ v, settled_in (run evs w) 1 (Fulfilled v))
  ∨ (∃ e, settled_in (run evs w) 0 (Rejected e)).
Proof.
  intros w Hne. revert w. induction evs as [|ev evs IH]; intros w Hs; [by left|].
  change (run (ev :: evs) w) with (run evs (step ev w)).
  destruct (ends_load ev) eqn:He.
  - right. apply ends_load_cases in He as [[dd ->]| ->].
    + left. eexists. apply settled_forever.
      exact (proj1 (nav_load_event options w dd Hs Hne)).
    + right. eexists. apply settled_forever.
      exact (proj2 (nav_deadline options w Hs)).
  - apply IH. by apply load_step_stays.
Qed.

(** C4: on a new page, waitForNavigation under any criterion other than
    load first awaits a load wait of its own (promise [q], on which the rest
    of the method is the only reaction).  While that sub-wait is pending no
    network-idle wait exists and the method is pending; the load event
    fulfils the sub-wait, and the task that fulfils it starts the network-idle
    wait with idle duration 500 and threshold 0 for networkidle0 and 2
    otherwise; and whenever the method is fulfilled, so is the sub-wait. *)
Theorem navigation_awaits_load_first
    (me : page_ref) (id_ : string) (url_ : option string) (base : string)
    (pgs : list page_ref) (options : option WaitForOptions) (evs : list event) :
  let opts := nav_options options in
  let start := invoke (waitForNavigation options) (new_Page me id_ url_ base pgs) in
  let r := start.1 in
  let w := run evs start.2 in
  waitUntil opts ≠ Some load →
  awaits_load_first opts start.2 r w.
Proof.
  intros opts start r w Hne. subst start r w. rewrite nav_invoke by done.
  cbn [fst snd]. fold opts. unfold awaits_load_first. exists 1%nat.
  pose proof (nav_world_shape opts me id_ url_ base pgs) as Sh0.
  set (w0 := nav_world opts me id_ url_ base pgs) in *.
  split; [done|]. split; [done|]. split.
  - intros Hp.
    destruct (load_run 2 3 (nav_promises opts) 1 (nav_ends opts Hne) evs w0 Sh0)
      as [[Sh _]|[o Hset]]; [|by destruct (is_pending_not_settled _ _ _ Hp Hset)].
    split; [apply Sh|]. split.
    { unfold is_pending. by rewrite (load_shape_promises _ _ _ _ Sh). }
    split; [intros dd; exact (proj1 (nav_load_event opts _ dd Sh Hne))|].
    intros ev v Hv. destruct (ends_load ev) eqn:He.
    + apply ends_load_cases in He as [[dd ->]| ->].
      * exact (proj2 (proj2 (nav_load_event opts _ dd Sh Hne))).
      * destruct (nav_deadline opts _ Sh) as [Hset _].
        by pose proof (settled_in_inj _ _ _ _ Hv Hset).
    + destruct (load_step_stays _ _ _ _ ev Sh He) as [Sh' _].
      unfold settled_in in Hv. by rewrite (load_shape_promises _ _ _ _ Sh') in Hv.
  - intros v Hv.
    destruct (nav_fulfilled_after_load opts evs w0 Hne Sh0) as [Sh|[Hq|[e He]]].
    + unfold settled_in in Hv. by rewrite (load_shape_promises _ _ _ _ Sh) in Hv.
    + exact Hq.
    + by pose proof (settled_in_inj _ _ _ _ Hv He).
Qed.

Lemma navigation_awaits_load_first_witness :
  let start := invoke (waitForNavigation None) sample_page in
  waitUntil (nav_options None) ≠ Some load ∧
  awaits_load_first (nav_options None) start.2 start.1
    (run [request_sent; load_fired; request_sent] start.2).
Proof.
  cbv zeta.
  assert (waitUntil (nav_options None) ≠ Some load) as Hne by discriminate.
  split; [exact Hne|].
  exact (navigation_awaits_load_first 7 "ABC" None "http://localhost:9222"
           [3; 7; 9]%nat None [request_sent; load_fired; request_sent] Hne).
Defined.

(** ** close *)

Lemma indexOf_bounds l x : -1 ≤ indexOf l x < Z.of_nat (length l).
Proof.
  induction l as [|y l IH]; cbn [indexOf length]; [lia|].
  case_bool_decide; [lia|]. destruct (Z.ltb_spec (indexOf l x) 0); lia.
Qed.

Lemma splice_indexOf l x :
  (if indexOf l x >? -1 then delete (Z.to_nat (indexOf l x)) l else l)
  = remove_first x l.
Proof.
  induction l as [|y l IH]; [done|]. cbn [indexOf remove_first].
  case_bool_decide as Hy; [done|].
  pose proof (indexOf_bounds l x) as Hb.
  destruct (Z.ltb_spec (indexOf l x) 0) as [Hlt|Hge].
  - assert (indexOf l x = -1) as E by lia. rewrite E in IH. cbn in IH |- *.
    by rewrite <- IH.
  - destruct (Z.gtb_spec (indexOf l x) (-1)) as [_|]; [|lia].
    destruct (Z.gtb_spec (indexOf l x + 1) (-1)) as [_|]; [|lia].
    rewrite Z2Nat.inj_add by lia. rewrite Nat.add_1_r. cbn [delete list_delete].
    by rewrite <- IH.
Qed.

Ltac mred_close :=
  cbv -[drain lookup insert app length indexOf Z.gtb Z.to_nat delete
        String.append String.eqb failure_text remove_first];
  cbn [lookup list_lookup insert list_insert app length].

(** One reaction at a time, while the world is known. *)
Ltac drain_close :=
  unfold fuel;
  repeat match goal with
    | |- context [drain (S ?n) (Build_World ?a ?b ?c ?d ?e ?f ?g ?h ?i ?j ?k ?l)] =>
        rewrite (drain_S n (Build_World a b c d e f g h i j k l)); mred_close
    end.

(** C2, as amended: close issues the out-of-band HTTP request for
    BASE_URL/json/close/id and nothing else; when the response text is
    "Target is closing" it removes the page (its first occurrence) from the
    pages of the browser and resolves, leaving the protocol connection as it
    is; on any other text it closes the protocol connection and then fails
    with a message that includes the text. *)
Theorem close_removes_or_fails
    (me : page_ref) (id_ : string) (url_ : option string) (base : string)
    (pgs : list page_ref) (res : string) :
  let w0 := new_Page me id_ url_ base pgs in
  let start := invoke close w0 in
  ∃ req : promise,
    log start.2 = log w0 ++ [IoFetch (base +:+ "/json/close/" +:+ id_) req] ∧
    ws_closed start.2 = false ∧ pages start.2 = pgs ∧ this start.2 = me ∧
    close_as_coded start.2 start.1 res
      (step (Response req (Fulfilled (FetchResponse res))) start.2).
Proof.
  cbv zeta. exists 1%nat. split; [done|]. split; [done|]. split; [done|].
  split; [done|]. unfold close_as_coded.
  change (invoke close (new_Page me id_ url_ base pgs)).2 with
    {| listeners := [("Page.frameNavigated", FrameNavigated);
                     ("Page.javascriptDialogOpening", JavascriptDialogOpening)];
       ws_closed := false; timers := [];
       promises := [Pending []; Pending [KCloseFetched 0]];
       jobs := []; envs := []; this := me; id := id_; url := url_;
       BASE_URL := base; pages := pgs;
       log := [IoAdd "Page.frameNavigated" FrameNavigated;
               IoAdd "Page.javascriptDialogOpening" JavascriptDialogOpening;
               IoFetch (base +:+ "/json/close/" +:+ id_) 1] |}.
  change (invoke close (new_Page me id_ url_ base pgs)).1 with 0%nat.
  unfold step, task.
  pose proof (splice_indexOf pgs me) as Hsplice.
  destruct (String.eqb res "Target is closing") eqn:E;
    [destruct (indexOf pgs me >? -1) eqn:Ei|];
    repeat first [rewrite E | rewrite Ei | progress drain_close | progress mred_close];
    by rewrite <- ?Hsplice.
Qed.

(** C2 as stated fails: after a successful close the protocol connection
    has not been closed. *)
Lemma close_success_leaves_connection_open :
  let start := invoke close sample_page in
  let w' := step (Response 1 (Fulfilled (FetchResponse "Target is closing"))) start.2 in
  settled_in w' start.1 (Fulfilled (Js VUndefined)) ∧
  pages w' = [3; 9]%nat ∧
  ¬ close_as_claimed start.2 start.1 "Target is closing" w'.
Proof.
  cbv zeta. split; [by vm_compute|]. split; [by vm_compute|].
  intros (_ & Hclosed & _). vm_compute in Hclosed. discriminate.
Qed.

(** ** evaluate *)

(** C3: evaluate sends the expression with awaitPromise and returnByValue
    set, and settles with what the unmarshalling policy of the
    specification gives for the response: the exception details if any are
    reported, else the parsed big integer for the type tag bigint, else
    undefined for the type tag undefined, else null for an object of
    subtype null, else the transported value. *)
Theorem evaluate_unmarshalling_precedence
    (me : page_ref) (id_ : string) (url_ : option string) (base : string)
    (pgs : list page_ref) (func : EvaluateFunction)
    (evaluateOptions : option EvaluateOptions)
    (result : RemoteObject) (exceptionDetails : option ExceptionDetails) :
  let w0 := new_Page me id_ url_ base pgs in
  let start := invoke (evaluate func evaluateOptions) w0 in
  ∃ q : promise,
    log start.2 = log w0 ++
      [IoCall "Runtime.evaluate"
         [("expression", VString (expression_of func evaluateOptions));
          ("awaitPromise", VBool true); ("returnByValue", VBool true)] q] ∧
    settled_in
      (step (Response q (Fulfilled (EvaluateResult result exceptionDetails)))
         start.2)
      start.1
      (first_applicable unmarshalling_policy result exceptionDetails).
Proof.
  cbv zeta. exists 1%nat. split; [reflexivity|].
  rewrite <- unmarshal_policy.
  cbv -[unmarshal expression_of]. reflexivity.
Qed.

(** The decimal encoding the protocol sends for a big integer, with its
    trailing marker, is read back in full. *)
Example evaluate_big_integer :
  unmarshal {| type := "bigint"; subtype := None; value := VUndefined;
               unserializableValue := Some "-123456789012345678901234567890n" |}
            None
  = Fulfilled (Js (VBigInt (-123456789012345678901234567890))).
Proof. reflexivity. Qed.

Example evaluate_null :
  unmarshal {| type := "object"; subtype := Some "null"; value := VNull;
               unserializableValue := None |} None
  = Fulfilled (Js VNull).
Proof. reflexivity. Qed.

Example evaluate_exception_first :
  unmarshal {| type := "bigint"; subtype := None; value := VUndefined;
               unserializableValue := Some "1n" |}
            (Some {| exceptionId := 1; text := "Uncaught" |})
  = Rejected (Thrown {| exceptionId := 1; text := "Uncaught" |}).
Proof. reflexivity. Qed.

(** ** #getRoot *)

Lemma last_request_snoc l e p :
  request_promise e = Some p → last_request (l ++ [e]) = Some p.
Proof.
  intros H. unfold last_request. rewrite omap_app. cbn. rewrite H. cbn.
  by rewrite last_snoc.
Qed.

Lemma root_invoke me id_ url_ base pgs :
  root_polling (invoke getRoot (new_Page me id_ url_ base pgs)).2 2 1 ∧
  (invoke getRoot (new_Page me id_ url_ base pgs)).1 = 0%nat.
Proof. split; [|done]. by split. Qed.

(** Evaluation of the monadic code on a world whose promises and log are
    variables. *)
Ltac lred :=
  cbv -[drain lookup list_lookup insert list_insert app length existsb
        is_request is_truthy
        last_request is_getDocument filter Page_timeout String.append Nat.add
        String.eqb expression_of unmarshal];
  cbn [app].

Ltac drain_loop :=
  match goal with
  | |- context [drain (S ?n) (Build_World ?a ?b ?c ?d ?e ?f ?g ?h ?i ?j ?k ?l)] =>
      rewrite (drain_S n (Build_World a b c d e f g h i j k l)); lred
  end.

Ltac heap :=
  rewrite ?length_insert, ?length_app; cbn [length];
  repeat first
    [ rewrite list_lookup_insert_eq
        by (rewrite ?length_app, ?length_insert; cbn [length]; lia)
    | rewrite list_lookup_insert_ne by lia
    | rewrite lookup_app_l by (rewrite ?length_insert; lia) ].

Lemma is_request_self m ps p : is_request p (IoCall m ps p) = true.
Proof. cbn. by apply bool_decide_eq_true_2. Qed.

Lemma root_empty_answer w q n o :
  root_polling w q n → falsy o →
  root_polling (answer o w) (length (promises w)) (S n).
Proof.
  intros [H0 H1 H3 Hq (Hq0 & Hq1 & Hq3) Hjs Hts Hlast Hsent Hcalls] (v & -> & Hv).
  unfold answer. rewrite Hlast. unfold step, task, fuel.
  destruct w as [ls ws ts ps js es me i u b pg lg].
  cbv [promises jobs timers log] in H0, H1, H3, Hq, Hjs, Hts, Hlast, Hsent, Hcalls.
  subst js ts.
  lred. rewrite Hsent. lred. rewrite Hq. lred. drain_loop. rewrite Hv. lred.
  rewrite list_lookup_middle by (by rewrite length_insert). lred.
  rewrite drain_nil by done.
  apply lookup_lt_Some in H0 as L0. apply lookup_lt_Some in H1 as L1.
  apply lookup_lt_Some in H3 as L3. apply lookup_lt_Some in Hq as Lq.
  split; cbv [promises jobs timers log]; try done.
  - by heap.
  - by heap.
  - by heap.
  - by heap.
  - lia.
  - rewrite length_insert. by apply last_request_snoc.
  - rewrite length_insert, existsb_snoc, is_request_self. apply orb_true_r.
  - rewrite filter_app, length_app, Hcalls.
    match goal with
    | |- (_ + ?x)%nat = _ => assert (x = 1%nat) as -> by reflexivity
    end. lia.
Qed.

Lemma root_document_answer w q n node :
  root_polling w q n →
  settled_in (answer (Fulfilled (GetDocumentResult node)) w) 0
    (Fulfilled (ElementHandle node)).
Proof.
  intros [H0 H1 H3 Hq (Hq0 & Hq1 & Hq3) Hjs Hts Hlast Hsent Hcalls].
  unfold answer. rewrite Hlast. unfold step, task, fuel.
  destruct w as [ls ws ts ps js es me i u b pg lg].
  cbv [promises jobs timers log] in H0, H1, H3, Hq, Hjs, Hts, Hlast, Hsent, Hcalls.
  subst js ts.
  apply lookup_lt_Some in H0 as L0. apply lookup_lt_Some in H1 as L1.
  apply lookup_lt_Some in H3 as L3. apply lookup_lt_Some in Hq as Lq.
  lred. rewrite Hsent. lred. rewrite Hq. lred. drain_loop.
  change (is_truthy (GetDocumentResult node)) with true. lred.
  heap. rewrite H1. lred. drain_loop.
  heap. rewrite H3. lred. drain_loop.
  heap. rewrite H0. lred. rewrite drain_nil by done.
  unfold settled_in. cbv [promises]. by heap.
Qed.

Lemma root_deadline_fires w q n :
  root_polling w q n →
  settled_in (step (TimerFire 0) w) 0 (Rejected DeadlineError).
Proof.
  intros [H0 H1 H3 Hq (Hq0 & Hq1 & Hq3) Hjs Hts Hlast Hsent Hcalls].
  unfold step, task, fuel.
  destruct w as [ls ws ts ps js es me i u b pg lg].
  cbv [promises jobs timers log] in H0, H1, H3, Hq, Hjs, Hts, Hlast, Hsent, Hcalls.
  subst js ts.
  apply lookup_lt_Some in H0 as L0. apply lookup_lt_Some in H1 as L1.
  apply lookup_lt_Some in H3 as L3. apply lookup_lt_Some in Hq as Lq.
  lred. cbn [lookup list_lookup insert list_insert]. lred.
  rewrite H3. lred. drain_loop.
  heap. rewrite H0. lred. rewrite drain_nil by done.
  unfold settled_in. cbv [promises]. by heap.
Qed.

Lemma answer_settled o w p op :
  settled_in w p op → settled_in (answer o w) p op.
Proof.
  intros H. unfold answer. destruct (last_request (log w)); [|done].
  by apply settled_step.
Qed.

Lemma answers_settled os : ∀ w p op,
  settled_in w p op → settled_in (answers os w) p op.
Proof.
  induction os as [|o os IH]; intros w p op H; [done|].
  cbn [answers foldl]. apply IH. by apply answer_settled.
Qed.

Lemma root_answers os : ∀ w q n,
  root_polling w q n → Forall falsy os →
  ∃ q', root_polling (answers os w) q' (length os + n).
Proof.
  induction os as [|o os IH]; intros w q n Hs Hf; [by exists q|].
  apply Forall_cons in Hf as [Ho Hf]. cbn [answers foldl length].
  destruct (IH _ _ _ (root_empty_answer w q n o Hs Ho) Hf) as [q' Hq'].
  exists q'. by replace (S (length os) + n)%nat with (length os + S n)%nat by lia.
Qed.

(** C8: #getRoot on a new page issues the get-document call; as long as
    every answer is empty the method stays pending, each answer is followed
    in the same task by a new call (after [n] empty answers [n + 1] calls
    have been made and the last is outstanding), and the only timer of the
    page is the deadline of the executor, armed for the timeout of the page.
    When that timer fires the method fails with the deadline error, and
    stays failed whatever is answered later; a document answer instead
    resolves it with the handle of the root node. *)
Theorem root_resolver_polls_until_deadline
    (me : page_ref) (id_ : string) (url_ : option string) (base : string)
    (pgs : list page_ref) (os : list outcome) :
  let start := invoke getRoot (new_Page me id_ url_ base pgs) in
  let w := answers os start.2 in
  Forall falsy os →
  is_pending w start.1 = true ∧
  length (filter (λ e, is_getDocument e = true) (log w)) = S (length os) ∧
  (∃ q, last_request (log w) = Some q ∧ is_pending w q = true) ∧
  (∃ d, timers w = [Some (DeadlineReject d, Page_timeout)] ∧
        ∀ os', settled_in (answers os' (step (TimerFire 0) w)) start.1
                 (Rejected DeadlineError)) ∧
  (∀ node, settled_in (answer (Fulfilled (GetDocumentResult node)) w) start.1
             (Fulfilled (ElementHandle node))).
Proof.
  intros start w Hf. subst start w.
  destruct (root_invoke me id_ url_ base pgs) as [Hs ->].
  destruct (root_answers os _ _ _ Hs Hf) as [q Hq].
  split. { unfold is_pending. by rewrite (root_method _ _ _ Hq). }
  split. { rewrite (root_calls _ _ _ Hq). lia. }
  split. { exists q. split; [apply Hq|]. unfold is_pending. by rewrite (root_call _ _ _ Hq). }
  split.
  - exists 3%nat. split; [apply Hq|]. intros os'. apply answers_settled.
    by eapply root_deadline_fires.
  - intros node. by eapply root_document_answer.
Qed.

Lemma root_resolver_polls_until_deadline_witness :
  let os := [Fulfilled (Js VUndefined); Fulfilled (Js VNull)] in
  let start := invoke getRoot sample_page in
  let w := answers os start.2 in
  Forall falsy os ∧
  is_pending w start.1 = true ∧
  length (filter (λ e, is_getDocument e = true) (log w)) = S (length os) ∧
  (∃ q, last_request (log w) = Some q ∧ is_pending w q = true) ∧
  (∃ d, timers w = [Some (DeadlineReject d, Page_timeout)] ∧
        ∀ os', settled_in (answers os' (step (TimerFire 0) w)) start.1
                 (Rejected DeadlineError)) ∧
  (∀ node, settled_in (answer (Fulfilled (GetDocumentResult node)) w) start.1
             (Fulfilled (ElementHandle node))).
Proof.
  cbv zeta.
  assert (Forall falsy [Fulfilled (Js VUndefined); Fulfilled (Js VNull)]) as Hf.
  { repeat constructor; by eexists. }
  split; [exact Hf|].
  exact (root_resolver_polls_until_deadline 7 "ABC" None "http://localhost:9222"
           [3; 7; 9]%nat _ Hf).
Defined.

(** ** waitForFunction *)

Lemma func_invoke me id_ url_ base pgs func opts :
  func_polling func opts
    (invoke (waitForFunction func opts) (new_Page me id_ url_ base pgs)).2
    3 4 2 0 ∧
  (invoke (waitForFunction func opts) (new_Page me id_ url_ base pgs)).1 = 0%nat.
Proof. split; [|done]. split; try done. cbn. lia. Qed.

Lemma lookup_app_at {A} (l1 l2 : list A) (k : nat) :
  (l1 ++ l2) !! (length l1 + k)%nat = l2 !! k.
Proof. rewrite lookup_app_r by lia. f_equal. lia. Qed.

Lemma lookup_app_len {A} (l1 l2 : list A) :
  (l1 ++ l2) !! length l1 = l2 !! 0%nat.
Proof. rewrite lookup_app_r by lia. f_equal. lia. Qed.

Lemma insert_app_len {A} (l1 l2 : list A) (x : A) :
  <[length l1 := x]> (l1 ++ l2) = l1 ++ <[0%nat := x]> l2.
Proof. rewrite <- (Nat.add_0_r (length l1)) at 1. apply insert_app_r. Qed.

(** Lookups and updates in the part of a table that was appended to it. *)
Ltac tail_step :=
  match goal with
  | |- context [(?x :: ?l) !! ?k] =>
      let e := constr:((x :: l) !! k) in
      let r := eval cbn [lookup list_lookup] in e in
      progress change e with r
  | |- context [<[?k := ?y]> (?x :: ?l)] =>
      let e := constr:(<[k := y]> (x :: l)) in
      let r := eval cbn [insert list_insert] in e in
      progress change e with r
  end.

Ltac heap_app :=
  rewrite <- ?app_assoc; cbn [app]; rewrite ?length_app; cbn [length];
  rewrite <- ?Nat.add_assoc; cbn [Nat.add];
  repeat first
    [ rewrite lookup_app_at | rewrite lookup_app_len
    | rewrite insert_app_r | rewrite insert_app_len | tail_step ].

Lemma func_falsy_poll func opts w q d r' t p :
  func_polling func opts w q d r' t → falsy (unmarshal p.1 p.2) →
  ∃ q' d' r'' t', func_polling func opts (answer (evaluated p) w) q' d' r'' t'.
Proof.
  intros [H0 H1 H5 Hq Hd Hr' (D1 & D2 & D3 & D4 & D5 & D6 & D7 & D8 & D9)
            Hjs Hts Hto Hlast Hsent] (v & Hu & Hv).
  unfold answer, evaluated. rewrite Hlast. unfold step, task, fuel.
  destruct p as [result exc]. cbn [fst snd] in *.
  destruct w as [ls ws ts ps js es me i u b pg lg].
  cbv [promises jobs timers log] in H0, H1, H5, Hq, Hd, Hr', Hjs, Hts, Hlast, Hsent.
  subst js.
  apply lookup_lt_Some in H0 as L0. apply lookup_lt_Some in H1 as L1.
  apply lookup_lt_Some in H5 as L5. apply lookup_lt_Some in Hq as Lq.
  apply lookup_lt_Some in Hd as Ld. apply lookup_lt_Some in Hr' as Lr.
  apply lookup_lt_Some in Hts as Lt.
  lred. rewrite Hsent. lred. rewrite Hq. lred. drain_loop.
  heap. rewrite Hd. lred. drain_loop.
  heap. rewrite Hr'. lred. rewrite Hu. lred. drain_loop. rewrite Hv. lred.
  repeat (progress heap_app; lred).
  rewrite drain_nil by done.
  rewrite ?length_insert.
  exists (length ps + 1)%nat, (length ps + 2)%nat, (length ps), (length ts).
  assert (∀ k x (l : list pstate),
            (<[r':=Settled (Fulfilled v)]>
               (<[d:=Settled (Fulfilled (EvaluateResult result exc))]>
                  (<[q:=Settled (Fulfilled (EvaluateResult result exc))]> ps)) ++ l)
            !! (length ps + k)%nat = Some x ↔ l !! k = Some x) as Hnew.
  { intros k x l. rewrite lookup_app_r by (rewrite !length_insert; lia).
    rewrite !length_insert. by replace (length ps + k - length ps)%nat with k by lia. }
  split; cbv [promises jobs timers log]; try done.
  - by heap.
  - by heap.
  - by heap.
  - by apply Hnew.
  - by apply Hnew.
  - rewrite <- (Nat.add_0_r (length ps)). by apply Hnew.
  - lia.
  - by heap.
  - lia.
  - by apply last_request_snoc.
  - rewrite existsb_snoc, is_request_self. apply orb_true_r.
Qed.

Lemma func_truthy_poll func opts w q d r' t p v :
  func_polling func opts w q d r' t →
  unmarshal p.1 p.2 = Fulfilled v → is_truthy v = true →
  settled_in (answer (evaluated p) w) 1 (Fulfilled v) ∧
  settled_in (answer (evaluated p) w) 0 (Fulfilled (Js VUndefined)).
Proof.
  intros [H0 H1 H5 Hq Hd Hr' (D1 & D2 & D3 & D4 & D5 & D6 & D7 & D8 & D9)
            Hjs Hts Hto Hlast Hsent] Hu Hv.
  unfold answer, evaluated. rewrite Hlast. unfold step, task, fuel.
  destruct p as [result exc]. cbn [fst snd] in *.
  destruct w as [ls ws ts ps js es me i u b pg lg].
  cbv [promises jobs timers log] in H0, H1, H5, Hq, Hd, Hr', Hjs, Hts, Hlast, Hsent.
  subst js.
  apply lookup_lt_Some in H0 as L0. apply lookup_lt_Some in H1 as L1.
  apply lookup_lt_Some in H5 as L5. apply lookup_lt_Some in Hq as Lq.
  apply lookup_lt_Some in Hd as Ld. apply lookup_lt_Some in Hr' as Lr.
  lred. rewrite Hsent. lred. rewrite Hq. lred. drain_loop.
  heap. rewrite Hd. lred. drain_loop.
  heap. rewrite Hr'. lred. rewrite Hu. lred. drain_loop. rewrite Hv. lred.
  heap. rewrite H1. lred. drain_loop.
  heap. rewrite H5. lred. drain_loop.
  heap. rewrite H0. lred. rewrite drain_nil by done.
  unfold settled_in. cbv [promises]. split; by heap.
Qed.

Lemma func_polls func opts polls : ∀ w q d r' t,
  func_polling func opts w q d r' t →
  Forall (λ p, falsy (unmarshal p.1 p.2)) polls →
  ∃ q' d' r'' t',
    func_polling func opts (answers (evaluated <$> polls) w) q' d' r'' t'.
Proof.
  induction polls as [|p polls IH]; intros w q d r' t Hs Hf; [by exists q, d, r', t|].
  apply Forall_cons in Hf as [Hp Hf]. cbn [fmap list_fmap answers foldl].
  destruct (func_falsy_poll _ _ _ _ _ _ _ p Hs Hp) as (q' & d' & r'' & t' & Hs').
  by eapply IH.
Qed.

(** C9: waitForFunction on a new page polls [evaluate]; after any number of
    polls that produced a falsy value, a poll that produces the truthy value
    [v] fulfils the promise of the polling loop with [v], and the promise the
    method returned with undefined. *)
Theorem waitForFunction_resolves_undefined
    (me : page_ref) (id_ : string) (url_ : option string) (base : string)
    (pgs : list page_ref) (func : EvaluateFunction)
    (evaluateOptions : option EvaluateOptions)
    (polls : list (RemoteObject * option ExceptionDetails))
    (last_poll : RemoteObject * option ExceptionDetails) (v : result) :
  let start := invoke (waitForFunction func evaluateOptions)
                 (new_Page me id_ url_ base pgs) in
  let w := answer (evaluated last_poll)
             (answers (evaluated <$> polls) start.2) in
  Forall (λ p, falsy (unmarshal p.1 p.2)) polls →
  unmarshal last_poll.1 last_poll.2 = Fulfilled v →
  is_truthy v = true →
  ∃ l r' : promise,
    promises start.2 !! r'
      = Some (Pending [KWaitForFunctionLoop func evaluateOptions l]) ∧
    settled_in w l (Fulfilled v) ∧
    settled_in w start.1 (Fulfilled (Js VUndefined)).
Proof.
  intros start w Hf Hu Hv. subst start w.
  destruct (func_invoke me id_ url_ base pgs func evaluateOptions) as [Hs ->].
  destruct (func_polls _ _ polls _ _ _ _ _ Hs Hf) as (q & d & r' & t & Hs').
  exists 1%nat, 2%nat. split; [apply Hs|].
  by eapply func_truthy_poll.
Qed.

Lemma waitForFunction_resolves_undefined_witness :
  let number42 := {| type := "number"; subtype := None;
                     value := VNumber (NOther "42");
                     unserializableValue := None |} in
  let zero := {| type := "number"; subtype := None; value := VNumber NZero;
                 unserializableValue := None |} in
  let polls := [(zero, None); (zero, None)] in
  let start := invoke (waitForFunction (Expression "window.ready") None)
                 sample_page in
  let w := answer (evaluated (number42, None))
             (answers (evaluated <$> polls) start.2) in
  Forall (λ p, falsy (unmarshal p.1 p.2)) polls ∧
  unmarshal number42 None = Fulfilled (Js (VNumber (NOther "42"))) ∧
  is_truthy (Js (VNumber (NOther "42"))) = true ∧
  ∃ l r' : promise,
    promises start.2 !! r'
      = Some (Pending [KWaitForFunctionLoop (Expression "window.ready") None l]) ∧
    settled_in w l (Fulfilled (Js (VNumber (NOther "42")))) ∧
    settled_in w start.1 (Fulfilled (Js VUndefined)).
Proof.
  cbv zeta.
  set (zero := {| type := "number"; subtype := None; value := VNumber NZero;
                  unserializableValue := None |}).
  assert (Forall (λ p, falsy (unmarshal p.1 p.2)) [(zero, None); (zero, None)])
    as Hf by (repeat constructor; by eexists).
  split; [exact Hf|]. split; [reflexivity|]. split; [reflexivity|].
  exact (waitForFunction_resolves_undefined 7 "ABC" None "http://localhost:9222"
           [3; 7; 9]%nat (Expression "window.ready") None
           [(zero, None); (zero, None)]
           ({| type := "number"; subtype := None;
               value := VNumber (NOther "42");
               unserializableValue := None |}, None)
           (Js (VNumber (NOther "42"))) Hf eq_refl eq_refl).
Defined.

(** ** Provenance of a fulfilment *)

Lemma fulfilled_extends ps ps' p : extends ps ps' → fulfilled ps p → fulfilled ps' p.
Proof. intros He [v Hv]. exists v. by apply He. Qed.

Lemma job_ok_extends x causes ps ps' j :
  extends ps ps' → job_ok x causes ps j → job_ok x causes ps' j.
Proof.
  intros He. unfold job_ok. destruct j as [k o]; destruct k; cbn; try done.
  intros H Hx Ho. eapply Forall_impl; [by apply H|].
  intros q. by apply fulfilled_extends.
Qed.

Lemma reaction_ok_other x causes p k : target k ≠ x → reaction_ok x causes p k.
Proof. by destruct k; cbn. Qed.

Lemma job_ok_other x causes ps k o : target k ≠ x → job_ok x causes ps (k, o).
Proof. by destruct k; cbn. Qed.

Lemma extends_app ps l : extends ps (ps ++ l).
Proof. intros p o H. by apply lookup_app_l_Some. Qed.

Lemma extends_settle ps p ks o :
  ps !! p = Some (Pending ks) → extends ps (<[p := Settled o]> ps).
Proof.
  intros Hp q oq Hq. rewrite list_lookup_insert_ne; [done|]. intros ->. congruence.
Qed.

Lemma extends_pending ps p ks ks' :
  ps !! p = Some (Pending ks) → extends ps (<[p := Pending ks']> ps).
Proof.
  intros Hp q oq Hq. rewrite list_lookup_insert_ne; [done|]. intros ->. congruence.
Qed.

(** Settling keeps the provenance of [x], provided a fulfilment of [x]
    itself comes with the fulfilment of its causes. *)
Lemma settle_provenance x causes p o w :
  provenance x causes w →
  (p = x → is_fulfilled o → Forall (fulfilled (promises w)) causes) →
  provenance x causes (settle p o w).2.
Proof.
  intros HI Hc. unfold settle, bind, get.
  destruct (promises w !! p) as [[ks|o']|] eqn:Hp; [|exact HI..].
  destruct HI as [Hal Hfu Hre Hjo Hli Hti Hrq Hen].
  destruct w as [ls ws ts ps js es me i u b pg lg]. cbn in *.
  pose proof (extends_settle ps p ks o Hp) as He.
  assert (p < length ps)%nat as Hlt by (by eapply lookup_lt_Some).
  split; cbn; try done.
  - by rewrite length_insert.
  - intros [v Hv]. eapply Forall_impl; [|intros q; by apply fulfilled_extends].
    destruct (decide (p = x)) as [->|Hne].
    + rewrite list_lookup_insert_eq in Hv by done.
      injection Hv as ->. by apply Hc.
    + rewrite list_lookup_insert_ne in Hv by done. apply Hfu. by exists v.
  - intros q ks' Hq. destruct (decide (p = q)) as [->|Hne].
    + rewrite list_lookup_insert_eq in Hq by done. done.
    + rewrite list_lookup_insert_ne in Hq by done. by eapply Hre.
  - apply Forall_app. split.
    + eapply Forall_impl; [exact Hjo|]. intros j. by apply job_ok_extends.
    + apply Forall_fmap. eapply Forall_impl; [exact (Hre p ks Hp)|].
      intros k Hk. unfold job_ok. cbn. destruct k; cbn in *; try done.
      intros Hr Ho. rewrite (Hk Hr). apply Forall_singleton.
      destruct o as [v|]; [|done]. exists v. by rewrite list_lookup_insert_eq.
Qed.

Lemma then_provenance x causes p k w :
  provenance x causes w → target k ≠ x → provenance x causes (then_ p k w).2.
Proof.
  intros HI Hk. unfold then_, bind, get.
  destruct (promises w !! p) as [[ks|o']|] eqn:Hp; [| |exact HI].
  - destruct HI as [Hal Hfu Hre Hjo Hli Hti Hrq Hen].
    destruct w as [ls ws ts ps js es me i u b pg lg]. cbn in *.
    pose proof (extends_pending ps p ks (ks ++ [k]) Hp) as He.
    assert (p < length ps)%nat as Hlt by (by eapply lookup_lt_Some).
    split; cbn; try done.
    + by rewrite length_insert.
    + intros [v Hv]. eapply Forall_impl; [|intros q; by apply fulfilled_extends].
      apply Hfu. exists v. destruct (decide (p = x)) as [->|Hne].
      * rewrite list_lookup_insert_eq in Hv by done. done.
      * by rewrite list_lookup_insert_ne in Hv by done.
    + intros q ks' Hq. destruct (decide (p = q)) as [->|Hne].
      * rewrite list_lookup_insert_eq in Hq by done. injection Hq as <-.
        apply Forall_app. split; [by eapply Hre|].
        apply Forall_singleton. by apply reaction_ok_other.
      * rewrite list_lookup_insert_ne in Hq by done. by eapply Hre.
    + eapply Forall_impl; [exact Hjo|]. intros j. by apply job_ok_extends.
  - destruct HI as [Hal Hfu Hre Hjo Hli Hti Hrq Hen].
    destruct w as [ls ws ts ps js es me i u b pg lg]. cbn in *.
    split; cbn; try done.
    apply Forall_app. split; [done|]. apply Forall_singleton.
    by apply job_ok_other.
Qed.

Lemma new_promise_provenance x causes w :
  provenance x causes w →
  provenance x causes (new_promise w).2 ∧ (new_promise w).1 ≠ x.
Proof.
  intros [Hal Hfu Hre Hjo Hli Hti Hrq Hen].
  destruct w as [ls ws ts ps js es me i u b pg lg]. cbn in *.
  split; [|lia]. split; cbn; try done.
  - rewrite length_app. lia.
  - intros [v Hv]. rewrite lookup_app_l in Hv by done.
    eapply Forall_impl; [apply Hfu; by exists v|].
    intros q. apply fulfilled_extends, extends_app.
  - intros p ks Hp. destruct (decide (p < length ps)%nat) as [Hlt|Hge].
    + rewrite lookup_app_l in Hp by done. by eapply Hre.
    + rewrite lookup_app_r in Hp by lia.
      destruct (p - length ps)%nat as [|n]; cbn in Hp; [|done].
      injection Hp as <-. constructor.
  - eapply Forall_impl; [exact Hjo|]. intros j.
    apply job_ok_extends, extends_app.
Qed.

Lemma provenance_frame x causes :
  frame (provenance x causes) (λ p, p ≠ x).
Proof.
  split.
  - intros e He w [Hal Hfu Hre Hjo Hli Hti Hrq Hen]. split; [|done].
    destruct w as [ls ws ts ps js es me i u b pg lg]. cbn in *.
    split; cbn; try done. apply Forall_app. split; [done|].
    by apply Forall_singleton.
  - intros ty cb Hcb w [Hal Hfu Hre Hjo Hli Hti Hrq Hen]. split; [|done].
    destruct w as [ls ws ts ps js es me i u b pg lg]. cbn in *.
    split; cbn; try done.
    + case_bool_decide; [done|]. apply Forall_app. split; [done|].
      by apply Forall_singleton.
    + apply Forall_app. split; [done|]. by apply Forall_singleton.
  - intros ty cb w [Hal Hfu Hre Hjo Hli Hti Hrq Hen]. split; [|done].
    destruct w as [ls ws ts ps js es me i u b pg lg]. cbn in *.
    split; cbn; try done.
    + apply Forall_forall. intros l Hl. apply list_elem_of_filter in Hl as [_ Hl].
      by eapply (proj1 (Forall_forall _ _) Hli).
    + apply Forall_app. split; [done|]. by apply Forall_singleton.
  - intros cb d Hcb w [Hal Hfu Hre Hjo Hli Hti Hrq Hen]. split; [|done].
    destruct w as [ls ws ts ps js es me i u b pg lg]. cbn in *.
    split; cbn; try done.
    intros t cb' d' Ht. destruct (decide (t < length ts)%nat) as [Hlt|Hge].
    + rewrite lookup_app_l in Ht by done. by eapply Hti.
    + rewrite lookup_app_r in Ht by lia.
      destruct (t - length ts)%nat as [|n]; cbn in Ht; [|done].
      by injection Ht as <- <-.
  - intros t w [Hal Hfu Hre Hjo Hli Hti Hrq Hen]. split; [|done].
    destruct w as [ls ws ts ps js es me i u b pg lg]. cbn in *.
    split; cbn; try done.
    intros t' cb' d' Ht. destruct (decide (t = t')) as [->|Hne].
    + apply list_lookup_insert_Some in Ht as [[_ [? _]]|[? _]]; done.
    + rewrite list_lookup_insert_ne in Ht by done. by eapply Hti.
  - intros w HI. by apply new_promise_provenance.
  - intros p o Hp w HI. split; [|done]. by apply settle_provenance.
  - intros p k Hk w HI. split; [|done]. by apply then_provenance.
  - intros it ic t p Hp w [Hal Hfu Hre Hjo Hli Hti Hrq Hen]. split; [|done].
    destruct w as [ls ws ts ps js es me i u b pg lg]. cbn in *.
    split; cbn; try done. apply Forall_app. split; [done|].
    by apply Forall_singleton.
  - intros e w [Hal Hfu Hre Hjo Hli Hti Hrq Hen]. split; [|done].
    change ((requestStarted e w).2) with (exec (requestStarted e) w).
    rewrite requestStarted_eq. cbv zeta.
    destruct w as [ls ws ts ps js es me i u b pg lg]. cbn in *.
    assert (Forall (λ v, resolve v ≠ x)
              (alter (λ v, set_inflight (inflight v + 1) v) e es)) as Hen'.
    { apply Forall_alter; [done|]. by intros v _ Hv. }
    destruct (es !! e) as [v|]; [|by split].
    destruct (inflight v + 1 >? idleConnections v); [|by split].
    split; cbn; try done.
    intros t' cb' d' Ht. destruct (decide (timeout v = t')) as [Heq|Hne].
    + rewrite Heq in Ht.
      apply list_lookup_insert_Some in Ht as [[_ [? _]]|[? _]]; done.
    + rewrite list_lookup_insert_ne in Ht by done. by eapply Hti.
  - intros e w [Hal Hfu Hre Hjo Hli Hti Hrq Hen]. split; [|done].
    change ((requestFinished e w).2) with (exec (requestFinished e) w).
    rewrite requestFinished_eq.
    destruct w as [ls ws ts ps js es me i u b pg lg]. cbn in *.
    destruct (es !! e) as [v|]; [|by split].
    destruct (inflight v =? 0); [by split|]. cbv zeta.
    assert (Forall (λ v, resolve v ≠ x)
              (alter (λ v, set_inflight (inflight v - 1) v) e es)) as Hen'.
    { apply Forall_alter; [done|]. by intros v' _ Hv. }
    destruct (inflight v - 1 =? idleConnections v); [|by split].
    split; cbn; try done.
    + intros t cb' d' Ht. destruct (decide (t < length ts)%nat) as [Hlt|Hge].
      * rewrite lookup_app_l in Ht by done. by eapply Hti.
      * rewrite lookup_app_r in Ht by lia.
        destruct (t - length ts)%nat as [|n]; cbn in Ht; [|done].
        by injection Ht as <- <-.
    + apply Forall_alter; [done|]. by intros v' _ Hv.
  - intros f w [Hal Hfu Hre Hjo Hli Hti Hrq Hen]. split; [|done].
    destruct w as [ls ws ts ps js es me i u b pg lg]. by split.
  - intros f w [Hal Hfu Hre Hjo Hli Hti Hrq Hen]. split; [|done].
    destruct w as [ls ws ts ps js es me i u b pg lg]. by split.
  - intros f w [Hal Hfu Hre Hjo Hli Hti Hrq Hen]. split; [|done].
    destruct w as [ls ws ts ps js es me i u b pg lg]. by split.
  - intros w e v [Hal Hfu Hre Hjo Hli Hti Hrq Hen] He.
    eapply (proj1 (Forall_lookup _ _) Hen); done.
Qed.

Lemma requests_ok (okp : promise → Prop) (lg : list io) (p : promise) :
  Forall (io_ok okp) lg → existsb (is_request p) lg = true → okp p.
Proof.
  induction 1 as [|e lg He _ IH]; cbn; [done|].
  destruct (is_request p e) eqn:Hr; [intros _|exact IH].
  destruct e; cbn in Hr; try done; by case_bool_decide; subst.
Qed.

Lemma provenance_loop x causes :
  loop_frame (provenance x causes) (λ p, p ≠ x).
Proof.
  split.
  - intros w l HI Hl.
    exact (proj1 (Forall_forall _ _) (prov_listeners _ _ _ HI) l Hl).
  - intros w t cb d HI Ht. by eapply prov_timers.
  - intros w p HI Hp. eapply (requests_ok (λ p, p ≠ x)); [|done].
    by eapply prov_requests.
  - intros w k o rest HI Hj.
    assert (job_ok x causes (promises w) (k, o)
            ∧ provenance x causes (with_jobs (λ _, rest) w)) as [Hk HI'].
    { destruct HI as [Hal Hfu Hre Hjo Hli Hti Hrq Hen].
      rewrite Hj in Hjo. apply Forall_cons in Hjo as [Hk Hrest].
      split; [done|]. destruct w; by split. }
    change (promises w) with (promises (with_jobs (λ _, rest) w)) in Hk.
    set (w' := with_jobs (λ _, rest) w) in *. clearbody w'. clear HI Hj.
    destruct (decide (target k = x)) as [Hx|Hne];
      [|exact (proj1 (sp_run_job _ _ (provenance_frame x causes) k o Hne w' HI'))].
    unfold exec. destruct k; cbn in Hk, Hx; try done.
    + destruct o as [v|e]; cbn.
      * apply settle_provenance; [done|]. intros _ _. by apply Hk.
      * apply settle_provenance; [done|]. by intros _ [].
    + destruct o as [v|e]; cbn.
      * unfold bind, get.
        destruct (mapM (λ p, fulfilled_value (promises w' !! p)) ps) as [vs|] eqn:Hm;
          [|done].
        apply settle_provenance; [done|]. intros _ _. rewrite <- (Hk Hx).
        apply mapM_Some in Hm. apply Forall_forall. intros q Hq.
        apply list_elem_of_lookup_1 in Hq as [i Hi].
        destruct (Forall2_lookup_l _ _ _ _ _ Hm Hi) as [v' [_ Hv']].
        unfold fulfilled. destruct (promises w' !! q) as [[|[]]|]; try done.
        by eexists.
      * apply settle_provenance; [done|]. by intros _ [].
Qed.

(** Whatever happens, [x] is fulfilled only when its causes are. *)
Lemma provenance_run x causes evs w :
  provenance x causes w → provenance x causes (run evs w).
Proof.
  apply (run_keeps _ _ (provenance_frame x causes) (provenance_loop x causes)).
Qed.

Lemma caused x causes evs w :
  provenance x causes w →
  fulfilled (promises (run evs w)) x →
  Forall (fulfilled (promises (run evs w))) causes.
Proof. intros HI. by apply prov_fulfilled, provenance_run. Qed.

(** ** goto and reload: one wait on the command and the navigation *)

(** The provenance of a promise in a world whose tables are known. *)
Ltac known_lookup H :=
  cbn in H;
  first
    [ discriminate H
    | match type of H with
      | _ !! ?n = _ =>
          destruct n;
          [ cbn in H;
            repeat match type of H with
              | Some _ = Some _ => injection H as H
              | (_, _) = (_, _) => injection H as ? H
              | Pending _ = Pending _ => injection H as H
              end; subst;
            repeat constructor; cbn; (done || lia)
          | known_lookup H ]
      end ].

Ltac known_provenance :=
  split; cbn;
  [ lia
  | intros [v Hv]; cbn in Hv; discriminate Hv
  | let H := fresh "H" in intros ? ? H; known_lookup H
  | repeat constructor
  | repeat constructor; cbn; (done || lia)
  | let H := fresh "H" in intros ? ? ? H; known_lookup H
  | repeat constructor; cbn; (done || lia)
  | repeat constructor ].

Lemma joint_fulfilment g a d n evs w :
  provenance g [a] w → provenance a [d; n] w →
  fulfilled (promises (run evs w)) g →
  fulfilled (promises (run evs w)) d ∧ fulfilled (promises (run evs w)) n.
Proof.
  intros Pg Pa Hg.
  pose proof (caused _ _ evs _ Pg Hg) as Ha. apply Forall_cons in Ha as [Ha _].
  pose proof (caused _ _ evs _ Pa Ha) as Hdn.
  apply Forall_cons in Hdn as [Hd Hn]. apply Forall_cons in Hn as [Hn _]. done.
Qed.

Ltac joint_case a p :=
  exists 1%nat, 2%nat, 3%nat, a, p, 0%nat;
  do 8 (split; [reflexivity|]);
  intros evs; apply (joint_fulfilment _ a); known_provenance.

(** C7: on a new page, goto and reload each send their command and start
    the navigation wait in the same call, before anything else happens: when
    the call returns the command is in the log, the load listener of the
    navigation wait is registered, and the method waits on Promise.all over
    the command under its deadline and the navigation wait.  Whatever events,
    timers and responses follow, the call is fulfilled only when both of
    them are fulfilled. *)
Theorem goto_reload_wait_for_both
    (me : page_ref) (id_ : string) (url_ : option string) (base : string)
    (pgs : list page_ref) (u : string) (options : option GoToOptions)
    (reload_options : option WaitForOptions) :
  let w0 := new_Page me id_ url_ base pgs in
  let started := invoke (goto u options) w0 in
  let reloaded := invoke (reload reload_options) w0 in
  joint_wait "Page.navigate" (navigate_params u (goto_options options))
    w0 started.2 started.1
  ∧ joint_wait "Page.reload" [] w0 reloaded.2 reloaded.1.
Proof.
  intros w0 started reloaded. split.
  - subst started.
    remember (invoke (goto u options) w0) as s eqn:Hs.
    destruct options as [[[[]|] r]|]; vm_compute in Hs; subst s; cbn [fst snd];
      unfold joint_wait.
    + joint_case 6%nat 4%nat.
    + joint_case 7%nat 5%nat.
    + joint_case 7%nat 5%nat.
    + joint_case 7%nat 5%nat.
    + joint_case 7%nat 5%nat.
  - subst reloaded.
    remember (invoke (reload reload_options) w0) as s eqn:Hs.
    destruct reload_options as [[[[]|]]|]; vm_compute in Hs; subst s; cbn [fst snd];
      unfold joint_wait.
    + joint_case 6%nat 4%nat.
    + joint_case 7%nat 5%nat.
    + joint_case 7%nat 5%nat.
    + joint_case 7%nat 5%nat.
    + joint_case 7%nat 5%nat.
Qed.

Lemma goto_reload_wait_for_both_witness :
  let started :=
    invoke (goto "http://example.com"
              (Some {| goto_waitUntil := Some load; referrer := None |}))
      sample_page in
  let w := run [Response 1 (Fulfilled (Js VUndefined)); load_fired] started.2 in
  fulfilled (promises w) started.1
  ∧ fulfilled (promises w) 2 ∧ fulfilled (promises w) 3.
Proof.
  intros started w.
  assert (fulfilled (promises w) started.1) as Hg.
  { exists (Js VUndefined). vm_compute. reflexivity. }
  split; [exact Hg|].
  destruct (proj1 (goto_reload_wait_for_both 7 "ABC" None "http://localhost:9222"
              [3%nat; 7%nat; 9%nat] "http://example.com"
              (Some {| goto_waitUntil := Some load; referrer := None |}) None))
    as (c & d & n & a & p & t & Hlog & _ & _ & _ & Hc & Hd & _ & _ & Hboth).
  vm_compute in Hlog. injection Hlog as <- <-.
  vm_compute in Hc. injection Hc as <- <-.
  vm_compute in Hd. injection Hd as <- <-.
  exact (Hboth [Response 1 (Fulfilled (Js VUndefined)); load_fired] Hg).
Defined.

(** ** close: the request that fails, and the page list *)

(** X1: when the HTTP request of close fails, close fails with the error of the
    request: the page stays in the list of the browser, the protocol
    connection stays open and nothing more leaves the page. *)
Theorem close_request_failure
    (me : page_ref) (id_ : string) (url_ : option string) (base : string)
    (pgs : list page_ref) (e : error) :
  let start := invoke close (new_Page me id_ url_ base pgs) in
  let w' := answer (Rejected e) start.2 in
  settled_in w' start.1 (Rejected e) ∧
  pages w' = pgs ∧ ws_closed w' = false ∧ log w' = log start.2.
Proof. cbv zeta. by vm_compute. Qed.







(** ** goto and reload: the order of the acknowledgement and the load event *)

(** X3: goto and reload under the load criterion complete whichever of the two
    comes first, the answer to the command or the load event: the listener
    of the navigation wait is registered before the call returns, so a load
    event that precedes the answer is not lost. *)
Theorem goto_reload_either_order
    (me : page_ref) (id_ : string) (url_ : option string) (base : string)
    (pgs : list page_ref) (u : string) (ref : option string)
    (v : result) (dd : detail) :
  let w0 := new_Page me id_ url_ base pgs in
  let load_opts := Some {| waitUntil := Some load |} in
  let started :=
    invoke (goto u (Some {| goto_waitUntil := Some load; referrer := ref |})) w0 in
  let reloaded := invoke (reload load_opts) w0 in
  let ack w := answer (Fulfilled v) w in
  let loaded w := step (Dispatch "Page.loadEventFired" dd) w in
  let done_ (s : promise * World) (w : World) :=
    is_pending s.2 s.1 = true ∧ settled_in w s.1 (Fulfilled (Js VUndefined)) in
  done_ started (loaded (ack started.2)) ∧ done_ started (ack (loaded started.2)) ∧
  done_ reloaded (loaded (ack reloaded.2)) ∧ done_ reloaded (ack (loaded reloaded.2)) ∧
  is_pending (ack started.2) started.1 = true ∧
  is_pending (loaded started.2) started.1 = true ∧
  is_pending (ack reloaded.2) reloaded.1 = true ∧
  is_pending (loaded reloaded.2) reloaded.1 = true.
Proof. cbv zeta. destruct ref; by vm_compute. Qed.

(** X4: under a criterion other than load (the default included) goto is still
    pending after the answer to the command and the load event, in either
    order: the load event starts the network-idle wait, whose idle timer is
    armed for 500 ms, and goto completes when that timer fires. *)
Theorem goto_completes_after_idle_period
    (me : page_ref) (id_ : string) (url_ : option string) (base : string)
    (pgs : list page_ref) (u : string) (options : option GoToOptions)
    (v : result) (dd : detail) :
  let started := invoke (goto u options) (new_Page me id_ url_ base pgs) in
  let ack w := answer (Fulfilled v) w in
  let loaded w := step (Dispatch "Page.loadEventFired" dd) w in
  goto_waitUntil (goto_options options) ≠ Some load →
  ∀ w, w = loaded (ack started.2) ∨ w = ack (loaded started.2) →
    is_pending w started.1 = true ∧
    (∃ t, timers w !! t = Some (Some (TimeoutDone 0, 500)) ∧
          settled_in (step (TimerFire t) w) started.1 (Fulfilled (Js VUndefined))).
Proof.
  cbv zeta. intros Hne w Hw.
  destruct options as [[[[]|] ref]|]; [done|..];
    (destruct Hw as [-> | ->]; (split; [by vm_compute|]); exists 2%nat;
     split; by vm_compute).
Qed.

Lemma goto_completes_after_idle_period_witness :
  let started := invoke (goto "http://example.com" None) sample_page in
  let w :=
    step load_fired (answer (Fulfilled (Js VUndefined)) started.2) in
  is_pending w started.1 = true.
Proof.
  refine (proj1 (goto_completes_after_idle_period 7 "ABC" None
            "http://localhost:9222" [3%nat; 7%nat; 9%nat] "http://example.com"
            None (Js VUndefined) NoDetail _ _ (or_introl eq_refl))).
  cbn. discriminate.
Defined.

(** ** waitForFunction: the polls that fail *)

Lemma func_rejected_poll func opts w q d r' t p e :
  func_polling func opts w q d r' t →
  unmarshal p.1 p.2 = Rejected e →
  settled_in (answer (evaluated p) w) 0 (Rejected e) ∧
  log (answer (evaluated p) w) = log w.
Proof.
  intros [H0 H1 H5 Hq Hd Hr' (D1 & D2 & D3 & D4 & D5 & D6 & D7 & D8 & D9)
            Hjs Hts Hto Hlast Hsent] Hu.
  unfold answer, evaluated. rewrite Hlast. unfold step, task, fuel.
  destruct p as [result exc]. cbn [fst snd] in *.
  destruct w as [ls ws ts ps js es me i u b pg lg].
  cbv [promises jobs timers log] in H0, H1, H5, Hq, Hd, Hr', Hjs, Hts, Hlast, Hsent.
  subst js.
  apply lookup_lt_Some in H0 as L0. apply lookup_lt_Some in H1 as L1.
  apply lookup_lt_Some in H5 as L5. apply lookup_lt_Some in Hq as Lq.
  apply lookup_lt_Some in Hd as Ld. apply lookup_lt_Some in Hr' as Lr.
  lred. rewrite Hsent. lred. rewrite Hq. lred. drain_loop.
  heap. rewrite Hd. lred. drain_loop.
  heap. rewrite Hr'. lred. rewrite Hu. lred. drain_loop.
  heap. rewrite H1. lred. drain_loop.
  heap. rewrite H5. lred. drain_loop.
  heap. rewrite H0. lred. rewrite drain_nil by done.
  unfold settled_in. cbv [promises log]. split; [by heap|done].
Qed.

Lemma func_deadline_fires func opts w q d r' t :
  func_polling func opts w q d r' t →
  settled_in (step (TimerFire 1) w) 0 (Rejected DeadlineError).
Proof.
  intros [H0 H1 H5 Hq Hd Hr' (D1 & D2 & D3 & D4 & D5 & D6 & D7 & D8 & D9)
            Hjs Hts Hto Hlast Hsent].
  unfold step, task, fuel.
  destruct w as [ls ws ts ps js es me i u b pg lg].
  cbv [promises jobs timers log] in H0, H1, H5, Hq, Hd, Hr', Hjs, Hts, Hlast, Hsent.
  subst js.
  apply lookup_lt_Some in H0 as L0. apply lookup_lt_Some in H1 as L1.
  apply lookup_lt_Some in H5 as L5.
  lred. rewrite Hts. lred. rewrite H5. lred. drain_loop.
  heap. rewrite H0. lred. rewrite drain_nil by done.
  unfold settled_in. cbv [promises]. by heap.
Qed.

(** X5: waitForFunction stops polling when a poll fails: after any number of
    polls that produced a falsy value, a poll whose response unmarshals to a
    failure (the exception the function threw, or a big integer that cannot
    be read) fails the method with that error, and no further poll is sent;
    and when the deadline of the method fires first, the method fails with
    the deadline error. *)
Theorem waitForFunction_fails_with_poll
    (me : page_ref) (id_ : string) (url_ : option string) (base : string)
    (pgs : list page_ref) (func : EvaluateFunction)
    (evaluateOptions : option EvaluateOptions)
    (polls : list (RemoteObject * option ExceptionDetails))
    (last_poll : RemoteObject * option ExceptionDetails) (e : error) :
  let start := invoke (waitForFunction func evaluateOptions)
                 (new_Page me id_ url_ base pgs) in
  let w := answers (evaluated <$> polls) start.2 in
  Forall (λ p, falsy (unmarshal p.1 p.2)) polls →
  unmarshal last_poll.1 last_poll.2 = Rejected e →
  is_pending w start.1 = true ∧
  settled_in (answer (evaluated last_poll) w) start.1 (Rejected e) ∧
  log (answer (evaluated last_poll) w) = log w ∧
  (∃ d, timers w !! 1%nat = Some (Some (DeadlineReject d, Page_timeout))) ∧
  settled_in (step (TimerFire 1) w) start.1 (Rejected DeadlineError).
Proof.
  intros start w Hf Hu. subst start w.
  destruct (func_invoke me id_ url_ base pgs func evaluateOptions) as [Hs ->].
  destruct (func_polls _ _ polls _ _ _ _ _ Hs Hf) as (q & d & r' & t & Hs').
  split. { unfold is_pending. by rewrite (func_method _ _ _ _ _ _ _ Hs'). }
  destruct (func_rejected_poll _ _ _ _ _ _ _ _ e Hs' Hu) as [Hr Hl].
  split; [exact Hr|]. split; [exact Hl|].
  split; [exists 5%nat; apply Hs'|].
  by eapply func_deadline_fires.
Qed.

Lemma waitForFunction_fails_with_poll_witness :
  let thrown := {| exceptionId := 1; text := "Uncaught" |} in
  let undefined_ := {| type := "undefined"; subtype := None; value := VUndefined;
                       unserializableValue := None |} in
  let start := invoke (waitForFunction (Expression "f()") None) sample_page in
  let w := answers (evaluated <$> [(undefined_, None)]) start.2 in
  settled_in (answer (evaluated (undefined_, Some thrown)) w) start.1
    (Rejected (Thrown thrown)).
Proof.
  cbv zeta.
  refine (proj1 (proj2 (waitForFunction_fails_with_poll 7 "ABC" None
            "http://localhost:9222" [3%nat; 7%nat; 9%nat] (Expression "f()") None
            [({| type := "undefined"; subtype := None; value := VUndefined;
                 unserializableValue := None |}, None)]
            ({| type := "undefined"; subtype := None; value := VUndefined;
                unserializableValue := None |},
             Some {| exceptionId := 1; text := "Uncaught" |})
            (Thrown {| exceptionId := 1; text := "Uncaught" |}) _ _))).
  - repeat constructor. by eexists.
  - reflexivity.
Defined.

(** ** evaluate: big integers are read back exactly *)

Lemma parse_digits_acc (d : Decimal.uint) (acc : positive) :
  parse_digits (Zpos acc) (DecimalString.NilEmpty.string_of_uint d)
  = Some (Zpos (Pos.of_uint_acc d acc)).
Proof.
  revert acc. induction d; intros acc; cbn [DecimalString.NilEmpty.string_of_uint parse_digits];
    [done|..];
    (match goal with
     | |- context [digit_of ?c] =>
         let r := eval vm_compute in (digit_of c) in
         change (digit_of c) with r
     end; cbv iota; cbn [Pos.of_uint_acc];
     match goal with
     | |- parse_digits ?a _ = Some (Zpos (Pos.of_uint_acc _ ?b)) =>
         replace a with (Zpos b) by lia
     end; apply IHd).
Qed.

Lemma parse_digits_uint (d : Decimal.uint) :
  parse_digits 0 (DecimalString.NilEmpty.string_of_uint d) = Some (Z.of_N (Pos.of_uint d)).
Proof.
  induction d; cbn [DecimalString.NilEmpty.string_of_uint parse_digits Pos.of_uint];
    [done|..];
    (match goal with
     | |- context [digit_of ?c] =>
         let r := eval vm_compute in (digit_of c) in
         change (digit_of c) with r
     end; cbv iota;
     first
       [ exact IHd
       | match goal with
         | |- parse_digits ?a _ = Some (Z.of_N (N.pos (Pos.of_uint_acc _ ?b))) =>
             change a with (Zpos b)
         end; apply parse_digits_acc ]).
Qed.

Lemma to_uint_cons (p : positive) :
  ∃ c s, DecimalString.NilEmpty.string_of_uint (Pos.to_uint p) = String c s
         ∧ c ≠ "-"%char ∧ c ≠ "+"%char.
Proof.
  pose proof (DecimalPos.Unsigned.of_to p) as H.
  destruct (Pos.to_uint p); [discriminate H|..];
    (eexists _, _; split; [reflexivity|]; split; discriminate).
Qed.

Lemma BigInt_decimal (n : Z) : BigInt (decimal n) = Some n.
Proof.
  destruct n as [|p|p]; [reflexivity|..]; cbn [decimal];
    destruct (to_uint_cons p) as (c & s & Hs & Hm & Hp);
    pose proof (parse_digits_uint (Pos.to_uint p)) as Hd;
    rewrite DecimalPos.Unsigned.of_to in Hd; rewrite Hs in Hd |- *.
  - unfold BigInt.
    destruct c as [[] [] [] [] [] [] [] []]; try exact Hd; done.
  - cbn [BigInt]. by rewrite Hd.
Qed.

Lemma strip_marker_snoc (s : string) (c : ascii) :
  strip_marker (s +:+ String c EmptyString) = s.
Proof.
  induction s as [|a s IH]; [reflexivity|].
  change (String a s +:+ String c EmptyString)
    with (String a (s +:+ String c EmptyString)).
  cbn [strip_marker]. rewrite IH.
  by destruct s.
Qed.

Lemma evaluate_settles me id_ url_ base pgs func opts r exc :
  let start := invoke (evaluate func opts) (new_Page me id_ url_ base pgs) in
  settled_in (answer (Fulfilled (EvaluateResult r exc)) start.2) start.1
    (unmarshal r exc).
Proof. cbv zeta. cbv -[unmarshal expression_of]. reflexivity. Qed.

(** X6: evaluate returns a big integer exactly: for every integer [n], the
    response that carries the decimal text of [n] followed by the marker is
    unmarshalled to the big integer [n], whatever its size or sign. *)
Theorem evaluate_big_integer_exact
    (me : page_ref) (id_ : string) (url_ : option string) (base : string)
    (pgs : list page_ref) (func : EvaluateFunction)
    (evaluateOptions : option EvaluateOptions) (n : Z) :
  let start := invoke (evaluate func evaluateOptions)
                 (new_Page me id_ url_ base pgs) in
  settled_in
    (answer (Fulfilled (EvaluateResult (bigint_object n) None)) start.2)
    start.1 (Fulfilled (Js (VBigInt n))).
Proof.
  cbv zeta.
  replace (Fulfilled (Js (VBigInt n))) with (unmarshal (bigint_object n) None);
    [apply evaluate_settles|].
  unfold unmarshal, bigint_object. cbn [type unserializableValue].
  change (String.eqb "bigint" "bigint") with true. cbv iota.
  by rewrite slice_strips_marker, strip_marker_snoc, BigInt_decimal.
Qed.

(** ** waitForNetworkIdle: the counter follows the requests *)

Lemma requestFinished_inflight D T w n t :
  idle_shape D T w n t →
  inflight <$> envs (exec (requestFinished 0) w)
  = [if n =? 0 then 0 else n - 1].
Proof.
  intros [Hls Hps Hjs Hes Hdl Hts Ht Hn Hrq].
  rewrite requestFinished_eq, Hes. cbn [lookup list_lookup].
  change (inflight (idle_env D T n t)) with n.
  change (idleConnections (idle_env D T n t)) with T. cbv zeta.
  destruct (Z.eqb_spec n 0) as [->|Hz]; [by rewrite Hes|].
  destruct (n - 1 =? T); cbn; by rewrite Hes.
Qed.

Lemma idle_inflight_dispatch D T w n t ty d :
  idle_shape D T w n t →
  inflight <$> envs (step (Dispatch ty d) w) = [count_step n (Dispatch ty d)].
Proof.
  intros Hs. pose proof Hs as [Hls Hps Hjs Hes Hdl Hts Ht Hn Hrq].
  unfold step, task. pose proof (idle_filter ty) as Hf. rewrite <- Hls in Hf.
  unfold count_step.
  repeat case_bool_decide; subst;
    try (rewrite (dispatchEvent_one _ _ _ _ Hf); cbn [snd run_callback]);
    repeat match goal with
      | |- context [String.eqb (String ?c ?a) (String ?c' ?b)] =>
          let r := eval vm_compute in (String.eqb (String c a) (String c' b)) in
          change (String.eqb (String c a) (String c' b)) with r
      end; cbn [orb].
  - destruct d as [|frag u]; rewrite drain_nil by done;
      change (envs (exec _ w)) with (envs w); by rewrite Hes.
  - rewrite drain_nil by done. change (envs (exec _ w)) with (envs w).
    by rewrite Hes.
  - destruct (shape_requestStarted D T w n t Hs) as [Sh _].
    rewrite drain_nil by apply Sh. by rewrite (shape_envs _ _ _ _ _ Sh).
  - destruct (shape_requestFinished D T w n t Hs) as (n' & t' & Sh & _).
    rewrite drain_nil by apply Sh. by rewrite (requestFinished_inflight D T w n t).
  - destruct (shape_requestFinished D T w n t Hs) as (n' & t' & Sh & _).
    rewrite drain_nil by apply Sh. by rewrite (requestFinished_inflight D T w n t).
  - rewrite (dispatchEvent_none _ _ _ Hf), drain_nil by done.
    rewrite Hes.
    rewrite (proj2 (String.eqb_neq _ _)) by done.
    rewrite (proj2 (String.eqb_neq ty "Network.loadingFinished")) by done.
    by rewrite (proj2 (String.eqb_neq ty "Network.loadingFailed")) by done.
Qed.

Lemma idle_counter_step D T w n t ev :
  idle_shape D T w n t → is_pending (step ev w) 1 = true →
  ∃ t', idle_shape D T (step ev w) (count_step n ev) t'.
Proof.
  intros Hs Hp.
  destruct (idle_step D T w n t ev Hs)
    as [(n' & t' & Sh & _)|[(_ & Hset & _)|(t' & _ & _ & Hset & _)]];
    [|by destruct (is_pending_not_settled _ _ _ Hp Hset)..].
  exists t'. replace (count_step n ev) with n'; [exact Sh|].
  pose proof Hs as [Hls Hps Hjs Hes Hdl Hts Ht Hn Hrq].
  pose proof (shape_envs _ _ _ _ _ Sh) as He.
  destruct ev as [ty d|tm|p o].
  - pose proof (idle_inflight_dispatch D T w n t ty d Hs) as Hi.
    rewrite He in Hi. by injection Hi.
  - cbn [count_step]. unfold step, task in He, Hp.
    destruct (timers w !! tm) as [[[cb dl]|]|] eqn:Htm.
    + destruct (Hts tm cb dl Htm) as [[-> ->]|(Hne & -> & ->)].
      * destruct (is_pending_not_settled _ _ _ Hp (idle_deadline_rejects D T w n t Hs)).
      * destruct (is_pending_not_settled _ _ _ Hp
                    (idle_timer_resolves D T w n t tm Hs Htm)).
    + rewrite fire_idle, drain_nil in He by (done || congruence).
      rewrite Hes in He. by injection He.
    + rewrite fire_idle, drain_nil in He by (done || congruence).
      rewrite Hes in He. by injection He.
  - cbn [count_step]. unfold step, task in He.
    rewrite respond_unknown, drain_nil in He by done.
    rewrite Hes in He. by injection He.
Qed.

Lemma idle_counter_run D T evs : ∀ w n t,
  idle_shape D T w n t → is_pending (run evs w) 1 = true →
  ∃ t', idle_shape D T (run evs w) (foldl count_step n evs) t'.
Proof.
  induction evs as [|ev evs IH]; intros w n t Hs Hp; [by exists t|].
  change (run (ev :: evs) w) with (run evs (step ev w)) in *.
  cbn [foldl].
  assert (is_pending (step ev w) 1 = true) as Hp1.
  { unfold is_pending. destruct (promises (step ev w) !! 1%nat) as [[|o]|] eqn:H1.
    - done.
    - pose proof (settled_forever evs _ _ _ H1) as Hset.
      by destruct (is_pending_not_settled _ _ _ Hp Hset).
    - destruct (idle_step D T w n t ev Hs)
        as [(n' & t' & Sh & _)|[(_ & Hset & _)|(t' & _ & _ & Hset & _)]].
      + by rewrite (shape_promises _ _ _ _ _ Sh) in H1.
      + unfold settled_in in Hset. congruence.
      + unfold settled_in in Hset. congruence. }
  destruct (idle_counter_step D T w n t ev Hs Hp1) as [t' Sh].
  by eapply IH.
Qed.

(** X7: while a network-idle wait on a new page is pending, its counter is the
    number of requests in flight: one more for every request-started event,
    one less for every finished or failed request unless the counter is at
    zero, and nothing else changes it (no other event, timer or response). *)
Theorem inflight_counts_requests
    (me : page_ref) (id_ : string) (url_ : option string) (base : string)
    (pgs : list page_ref) (options : option WaitForNetworkIdleOptions)
    (evs : list event) :
  let start := invoke (waitForNetworkIdle options) (new_Page me id_ url_ base pgs) in
  let w := run evs start.2 in
  is_pending w start.1 = true →
  inflight <$> envs w = [outstanding evs].
Proof.
  cbv zeta. rewrite idle_invoke. cbn [fst snd]. intros Hp.
  destruct (idle_counter_run _ _ evs _ 0 0%nat
              (idle_world_shape (option_idleTime options)
                 (option_idleConnections options) me id_ url_ base pgs) Hp)
    as [t' Sh].
  by rewrite (shape_envs _ _ _ _ _ Sh).
Qed.

Lemma inflight_counts_requests_witness :
  let evs := [request_finished; request_sent; request_sent; request_failed] in
  let start := invoke (waitForNetworkIdle None) sample_page in
  is_pending (run evs start.2) start.1 = true ∧
  inflight <$> envs (run evs start.2) = [1].
Proof.
  cbv zeta. assert (is_pending
    (run [request_finished; request_sent; request_sent; request_failed]
       (invoke (waitForNetworkIdle None) sample_page).2)
    (invoke (waitForNetworkIdle None) sample_page).1 = true) as Hp by (by vm_compute).
  split; [exact Hp|].
  exact (inflight_counts_requests 7 "ABC" None "http://localhost:9222"
           [3%nat; 7%nat; 9%nat] None
           [request_finished; request_sent; request_sent; request_failed] Hp).
Defined.

(** ** Footprints of the methods *)

Lemma dialogs_trace e w :
  is_dialog e = false → dialogs (exec (trace e) w) = dialogs w.
Proof.
  intros He. unfold dialogs. cbn. rewrite filter_app, length_app.
  rewrite filter_cons, decide_False by congruence. cbn. lia.
Qed.

Lemma wired_same mc (w w' : World) :
  listeners w' = listeners w → timers w' = timers w →
  promises w' = promises w → jobs w' = jobs w →
  wired mc w → wired mc w'.
Proof. intros E1 E2 E3 E4 [H1 H2 H3 H4 H5]. split; by rewrite ?E1, ?E2, ?E3, ?E4. Qed.

Lemma sp_for_each_in (I : World → Prop) {B} (l : list B) (f : B → M unit) :
  (∀ x, x ∈ l → keeps I (f x) anything) → keeps I (for_each l f) anything.
Proof.
  induction l as [|x l IH]; intros Hf; [by apply sp_ret|].
  cbn [for_each]. eapply sp_bind; [apply Hf; by left|]. intros _ _.
  apply IH. intros y Hy. apply Hf. by right.
Qed.

Lemma constructor_listeners_filter (ty : string) (cb : callback) :
  plain cb →
  filter (λ l, l ≠ (ty, cb)) constructor_listeners = constructor_listeners.
Proof.
  intros Hcb. unfold constructor_listeners.
  rewrite !filter_cons, filter_nil.
  rewrite !decide_True; [done|intros [= _ <-]; done..].
Qed.

Section Footprint.
Variable may_close : Prop.
Variable A : Type.
Variable π : World → A.
Hypothesis Hπ : footprint may_close π.

Local Abbreviation fp a := (keeps (observes may_close π a)).

(** An update that leaves the wiring and the observed fields alone. *)
Lemma fp_update a (f : World → World) :
  (∀ w, wired may_close w → wired may_close (f w)) →
  (∀ w, url (f w) = url w ∧ dialogs (f w) = dialogs w ∧
        (may_close ∨ pages (f w) = pages w ∧ ws_closed (f w) = ws_closed w)) →
  fp a (modify f) anything.
Proof.
  intros Hw Hf w [HW Ha]. split; [|done]. split; [by apply Hw|].
  rewrite <- Ha. destruct (Hf w) as (? & ? & ?). by apply Hπ.
Qed.

Lemma fp_trace a e : plain_io may_close e → fp a (trace e) anything.
Proof.
  intros He. apply fp_update.
  - intros w. by apply wired_same.
  - intros w. split; [done|]. split; [|by right].
    apply (dialogs_trace e w). by destruct e.
Qed.

Lemma fp_add a ty cb :
  ¬ constructor_type ty → plain cb → fp a (addEventListener ty cb) anything.
Proof.
  intros Hty Hcb. unfold addEventListener.
  eapply sp_seq; [by apply fp_trace|]. apply fp_update.
  - intros w [H1 H2 H3 H4 H5]. destruct w as [ls ws ts ps js es me i u b pg lg].
    cbv [listeners timers promises jobs] in H1, H2, H3, H4, H5.
    unfold with_listeners. cbv [listeners timers promises jobs].
    destruct (bool_decide ((ty, cb) ∈ ls)); [by split|].
    split; cbv [listeners timers promises jobs]; try done.
    + rewrite filter_app, filter_cons, decide_False by done.
      by rewrite filter_nil, app_nil_r.
    + apply Forall_app. split; [done|]. apply Forall_singleton. by right.
  - intros w. split; [done|]. split; [done|by right].
Qed.

Lemma fp_remove a ty cb : plain cb → fp a (removeEventListener ty cb) anything.
Proof.
  intros Hcb. unfold removeEventListener.
  eapply sp_seq; [by apply fp_trace|]. apply fp_update.
  - intros w [H1 H2 H3 H4 H5]. destruct w as [ls ws ts ps js es me i u b pg lg].
    cbn in *. split; cbn; try done.
    + rewrite list_filter_filter.
      rewrite (list_filter_iff _ (λ l, l ≠ (ty, cb) ∧ constructor_type l.1))
        by (intros l; tauto).
      rewrite <- list_filter_filter, H1. by apply constructor_listeners_filter.
    + apply Forall_forall. intros l Hl. apply list_elem_of_filter in Hl as [_ Hl].
      by eapply (proj1 (Forall_forall _ _) H2).
  - intros w. split; [done|]. split; [done|by right].
Qed.

Lemma fp_setTimeout a cb d : plain cb → fp a (setTimeout cb d) anything.
Proof.
  intros Hcb. unfold setTimeout. eapply sp_bind; [apply sp_get|]. intros t _.
  eapply sp_seq; [|by apply sp_ret]. apply fp_update.
  - intros w [H1 H2 H3 H4 H5]. destruct w as [ls ws ts ps js es me i u b pg lg].
    cbn in *. split; cbn; try done.
    intros t' cb' d' Ht. apply lookup_app_Some in Ht as [Ht|[_ Ht]]; [by eapply H3|].
    destruct (t' - length ts)%nat; cbn in Ht; [|done]. by injection Ht as <- <-.
  - intros w. split; [done|]. split; [done|by right].
Qed.

Lemma fp_clearTimeout a t : fp a (clearTimeout t) anything.
Proof.
  unfold clearTimeout. apply fp_update.
  - intros w [H1 H2 H3 H4 H5]. destruct w as [ls ws ts ps js es me i u b pg lg].
    cbn in *. split; cbn; try done.
    intros t' cb' d' Ht. apply list_lookup_insert_Some in Ht as [[_ [? _]]|[_ Ht]];
      [done|by eapply H3].
  - intros w. split; [done|]. split; [done|by right].
Qed.

Lemma fp_new_promise a : fp a new_promise anything.
Proof.
  unfold new_promise. eapply sp_bind; [apply sp_get|]. intros p _.
  eapply sp_seq; [|by apply sp_ret]. apply fp_update.
  - intros w [H1 H2 H3 H4 H5]. destruct w as [ls ws ts ps js es me i u b pg lg].
    cbn in *. split; cbn; try done.
    intros q ks Hq. apply lookup_app_Some in Hq as [Hq|[_ Hq]]; [by eapply H4|].
    destruct (q - length ps)%nat; cbn in Hq; [|done]. injection Hq as <-.
    constructor.
  - intros w. split; [done|]. split; [done|by right].
Qed.

Lemma fp_settle a p o : fp a (settle p o) anything.
Proof.
  intros w HI. unfold settle, bind, get.
  destruct (promises w !! p) as [[ks|o']|] eqn:Hp; [|by split..].
  revert w HI Hp.
  change (∀ w, observes may_close π a w → promises w !! p = Some (Pending ks) →
    observes may_close π a
      ((modify (with_promises (λ ps, <[p := Settled o]> ps)) ;;
        modify (with_jobs (λ js, js ++ map (λ k, (k, o)) ks))) w).2 ∧
    anything
      ((modify (with_promises (λ ps, <[p := Settled o]> ps)) ;;
        modify (with_jobs (λ js, js ++ map (λ k, (k, o)) ks))) w).1).
  intros w [[H1 H2 H3 H4 H5] Ha] Hp. split; [|done]. split.
  - destruct w as [ls ws ts ps js es me i u b pg lg]. cbn in *.
    split; cbn; try done.
    + intros q ks' Hq. apply list_lookup_insert_Some in Hq as [[_ [? _]]|[_ Hq]];
        [done|by eapply H4].
    + apply Forall_app. split; [done|]. apply Forall_fmap.
      exact (H4 p ks Hp).
  - rewrite <- Ha. apply Hπ; [by destruct w..|right; by destruct w].
Qed.

Lemma fp_then a p k : (closing k → may_close) → fp a (then_ p k) anything.
Proof.
  intros Hk w HI. unfold then_, bind, get.
  destruct (promises w !! p) as [[ks|o']|] eqn:Hp; [| |by split].
  - destruct HI as [[H1 H2 H3 H4 H5] Ha]. split; [|done]. split.
    + destruct w as [ls ws ts ps js es me i u b pg lg]. cbn in *.
      split; cbn; try done.
      intros q ks' Hq. apply list_lookup_insert_Some in Hq as [(_ & [= <-] & _)|[_ Hq]];
        [|by eapply H4].
      apply Forall_app. split; [by eapply H4|]. by apply Forall_singleton.
    + rewrite <- Ha. apply Hπ; [by destruct w..|right; by destruct w].
  - destruct HI as [[H1 H2 H3 H4 H5] Ha]. split; [|done]. split.
    + destruct w as [ls ws ts ps js es me i u b pg lg]. cbn in *.
      split; cbn; try done.
      apply Forall_app. split; [done|]. by apply Forall_singleton.
    + rewrite <- Ha. apply Hπ; [by destruct w..|right; by destruct w].
Qed.

Lemma fp_envs a f : fp a (modify (with_envs f)) anything.
Proof.
  apply fp_update.
  - intros w. by apply wired_same.
  - intros w. split; [done|]. split; [done|by right].
Qed.

Lemma fp_pages a f : may_close → fp a (modify (with_pages f)) anything.
Proof.
  intros Hc. apply fp_update.
  - intros w. by apply wired_same.
  - intros w. split; [done|]. split; [done|by left].
Qed.

Lemma fp_ws_closed a f : may_close → fp a (modify (with_ws_closed f)) anything.
Proof.
  intros Hc. apply fp_update.
  - intros w. by apply wired_same.
  - intros w. split; [done|]. split; [done|by left].
Qed.

Lemma fp_with_env a e k : (∀ v, fp a (k v) anything) → fp a (with_env e k) anything.
Proof.
  intros Hk w HI. unfold with_env, bind, get.
  destruct (envs w !! e) as [v|]; [by apply Hk|by split].
Qed.

(** *** The platform and the methods *)

Lemma fp_deadline a p d : fp a (deadline p d) anything.
Proof.
  unfold deadline. eapply sp_bind; [apply fp_new_promise|]. intros r _.
  eapply sp_bind; [by apply fp_setTimeout|]. intros t _.
  eapply sp_seq; [by apply fp_then|]. by apply sp_ret.
Qed.

Lemma fp_call a m ps : fp a (call m ps) anything.
Proof.
  unfold call. eapply sp_bind; [apply fp_new_promise|]. intros p _.
  eapply sp_seq; [by apply fp_trace|]. by apply sp_ret.
Qed.

Lemma fp_fetch a u : fp a (fetch u) anything.
Proof.
  unfold fetch. eapply sp_bind; [apply fp_new_promise|]. intros p _.
  eapply sp_seq; [by apply fp_trace|]. by apply sp_ret.
Qed.

Lemma fp_timeoutDone a e : fp a (timeoutDone e) anything.
Proof.
  unfold timeoutDone. apply fp_with_env. intros v.
  do 3 (eapply sp_seq; [by apply fp_remove|]). apply fp_settle.
Qed.

Lemma fp_requestStarted a e : fp a (requestStarted e) anything.
Proof.
  unfold requestStarted, update_env. eapply sp_seq; [apply fp_envs|].
  apply fp_with_env. intros v. apply sp_when, fp_clearTimeout.
Qed.

Lemma fp_requestFinished a e : fp a (requestFinished e) anything.
Proof.
  unfold requestFinished, update_env. apply fp_with_env. intros v.
  destruct (inflight v =? 0); [by apply sp_ret|].
  eapply sp_seq; [apply fp_envs|]. apply fp_with_env. intros v'.
  apply sp_when. eapply sp_bind; [by apply fp_setTimeout|]. intros t _.
  apply fp_envs.
Qed.

Lemma not_constructor_type (ty : string) :
  ty ≠ "Page.frameNavigated" → ty ≠ "Page.javascriptDialogOpening" →
  ¬ constructor_type ty.
Proof. intros H1 H2 [?|?]; done. Qed.

Lemma fp_waitForNetworkIdle a options : fp a (waitForNetworkIdle options) anything.
Proof.
  unfold waitForNetworkIdle, retryDeadline.
  eapply sp_bind; [apply fp_new_promise|]. intros p _.
  eapply sp_bind; [apply sp_get|]. intros e _.
  eapply sp_bind; [by apply fp_setTimeout|]. intros t _.
  eapply sp_seq; [apply fp_envs|].
  do 3 (eapply sp_seq; [by apply fp_add; [apply not_constructor_type|]|]).
  apply fp_deadline.
Qed.

Lemma fp_loadCallback a p : fp a (loadCallback p) anything.
Proof.
  unfold loadCallback. eapply sp_seq; [apply fp_settle|]. by apply fp_remove.
Qed.

Lemma fp_navigation_executor a options : fp a (navigation_executor options) anything.
Proof.
  unfold navigation_executor.
  eapply sp_bind; [apply fp_new_promise|]. intros p _.
  eapply sp_seq; [|by apply sp_ret].
  destruct (waitUntil options) as [[]|].
  - by apply fp_add; [apply not_constructor_type|].
  - eapply sp_bind; [apply fp_waitForNetworkIdle|]. intros q _. by apply fp_then.
  - eapply sp_bind; [apply fp_waitForNetworkIdle|]. intros q _. by apply fp_then.
  - eapply sp_bind; [apply fp_waitForNetworkIdle|]. intros q _. by apply fp_then.
Qed.

Lemma fp_waitForNavigation_return a options r :
  fp a (waitForNavigation_return options r) anything.
Proof.
  unfold waitForNavigation_return, retryDeadline.
  eapply sp_bind; [apply fp_navigation_executor|]. intros p _.
  eapply sp_bind; [apply fp_deadline|]. intros d _. by apply fp_then.
Qed.

Lemma fp_waitForNavigation_body a self options :
  (∀ o, fp a (self o) anything) → fp a (waitForNavigation_body self options) anything.
Proof.
  intros Hself. unfold waitForNavigation_body.
  eapply sp_bind; [apply fp_new_promise|]. intros r _.
  eapply sp_seq; [|by apply sp_ret].
  destruct (bool_decide _).
  - eapply sp_bind; [apply Hself|]. intros q _. by apply fp_then.
  - apply fp_waitForNavigation_return.
Qed.

Lemma fp_waitForNavigation a options : fp a (waitForNavigation options) anything.
Proof.
  unfold waitForNavigation. apply fp_waitForNavigation_body. intros o.
  apply fp_waitForNavigation_body. intros _. apply fp_new_promise.
Qed.

Lemma fp_evaluate a func opts : fp a (evaluate func opts) anything.
Proof.
  unfold evaluate, retryDeadline. eapply sp_bind; [apply fp_new_promise|]. intros r _.
  eapply sp_bind; [apply fp_call|]. intros q _.
  eapply sp_bind; [apply fp_deadline|]. intros d _.
  eapply sp_seq; [by apply fp_then|]. by apply sp_ret.
Qed.

Lemma fp_waitForFunction a func opts : fp a (waitForFunction func opts) anything.
Proof.
  unfold waitForFunction. eapply sp_bind; [apply fp_new_promise|]. intros r _.
  eapply sp_bind; [apply fp_new_promise|]. intros l _.
  eapply sp_bind; [apply fp_evaluate|]. intros q _.
  eapply sp_seq; [by apply fp_then|].
  eapply sp_bind; [apply fp_deadline|]. intros d _.
  eapply sp_seq; [by apply fp_then|]. by apply sp_ret.
Qed.

Lemma fp_getRoot a : fp a getRoot anything.
Proof.
  unfold getRoot, getDocument, retryDeadline.
  eapply sp_bind; [apply fp_new_promise|]. intros r _.
  eapply sp_bind; [apply fp_new_promise|]. intros l _.
  eapply sp_bind; [apply fp_call|]. intros q _.
  eapply sp_seq; [by apply fp_then|].
  eapply sp_bind; [apply fp_deadline|]. intros d _.
  eapply sp_seq; [by apply fp_then|]. by apply sp_ret.
Qed.

Lemma fp_Promise_all a ps : fp a (Promise_all ps) anything.
Proof.
  unfold Promise_all. eapply sp_bind; [apply fp_new_promise|]. intros x _.
  eapply sp_seq; [apply sp_for_each; intros p; by apply fp_then|].
  eapply sp_seq; [apply sp_when, fp_settle|]. by apply sp_ret.
Qed.

Lemma fp_goto a u options : fp a (goto u options) anything.
Proof.
  unfold goto, retryDeadline. eapply sp_bind; [apply fp_new_promise|]. intros g _.
  eapply sp_bind; [apply fp_call|]. intros c _.
  eapply sp_bind; [apply fp_deadline|]. intros d _.
  eapply sp_bind; [apply fp_waitForNavigation|]. intros n _.
  eapply sp_bind; [apply fp_Promise_all|]. intros x _.
  eapply sp_seq; [by apply fp_then|]. by apply sp_ret.
Qed.

Lemma fp_reload a options : fp a (reload options) anything.
Proof.
  unfold reload, retryDeadline. eapply sp_bind; [apply fp_new_promise|]. intros g _.
  eapply sp_bind; [apply fp_call|]. intros c _.
  eapply sp_bind; [apply fp_deadline|]. intros d _.
  eapply sp_bind; [apply fp_waitForNavigation|]. intros n _.
  eapply sp_bind; [apply fp_Promise_all|]. intros x _.
  eapply sp_seq; [by apply fp_then|]. by apply sp_ret.
Qed.

Lemma fp_command a m ps :
  fp a (r <- new_promise ;; c <- call m ps ;;
        d <- retryDeadline c Page_timeout ;; then_ d (KAwaitVoid r) ;; ret r)
     anything.
Proof.
  unfold retryDeadline. eapply sp_bind; [apply fp_new_promise|]. intros r _.
  eapply sp_bind; [apply fp_call|]. intros c _.
  eapply sp_bind; [apply fp_deadline|]. intros d _.
  eapply sp_seq; [by apply fp_then|]. by apply sp_ret.
Qed.

Lemma fp_close a : may_close → fp a close anything.
Proof.
  intros Hc. unfold close. eapply sp_bind; [apply fp_new_promise|]. intros r _.
  eapply sp_bind; [apply sp_get|]. intros base _.
  eapply sp_bind; [apply sp_get|]. intros i _.
  eapply sp_bind; [apply fp_fetch|]. intros req _.
  eapply sp_seq; [by apply fp_then|]. by apply sp_ret.
Qed.

Lemma fp_close_after_text a res r : may_close → fp a (close_after_text res r) anything.
Proof.
  intros Hc. unfold close_after_text, celestial_close. destruct (String.eqb _ _).
  - eapply sp_bind; [apply sp_get|]. intros me _.
    eapply sp_bind; [apply sp_get|]. intros index _.
    eapply sp_seq; [by apply sp_when, fp_pages|]. apply fp_settle.
  - eapply sp_seq; [|apply fp_settle].
    eapply sp_seq; [by apply fp_trace|]. by apply fp_ws_closed.
Qed.

Lemma fp_perform a c : (c = CallClose → may_close) → fp a (perform c) anything.
Proof.
  intros Hc. destruct c; cbn [perform].
  - apply fp_goto.
  - apply fp_reload.
  - apply fp_waitForNavigation.
  - apply fp_waitForNetworkIdle.
  - apply fp_evaluate.
  - apply fp_waitForFunction.
  - apply fp_getRoot.
  - by apply fp_close, Hc.
  - apply fp_command.
  - apply fp_command.
  - apply fp_command.
Qed.

Lemma fp_run_job a k o : (closing k → may_close) → fp a (run_job k o) anything.
Proof.
  intros Hk. destruct k; cbn [closing] in Hk; cbn [run_job].
  - eapply sp_seq; [apply fp_clearTimeout|]. apply fp_settle.
  - destruct o; [apply fp_settle|by apply sp_ret].
  - apply fp_settle.
  - destruct o; apply fp_settle.
  - destruct o; [|apply fp_settle].
    eapply sp_bind; [apply sp_get|]. intros [vs|] _; [apply fp_settle|by apply sp_ret].
  - destruct o; [apply fp_waitForNavigation_return|apply fp_settle].
  - destruct o as [root|]; [|apply fp_settle].
    destruct (is_truthy root); [apply fp_settle|].
    unfold getDocument. eapply sp_bind; [apply fp_call|]. intros q _. by apply fp_then.
  - destruct o as [[]|]; apply fp_settle.
  - destruct o as [[]|]; apply fp_settle.
  - destruct o as [v|]; [|apply fp_settle].
    destruct (is_truthy v); [apply fp_settle|].
    eapply sp_bind; [apply fp_evaluate|]. intros q _. by apply fp_then.
  - destruct o as [[]|]; try apply fp_settle.
    eapply sp_bind; [apply fp_new_promise|]. intros t _.
    eapply sp_seq; [apply fp_settle|]. apply fp_then. intros _. by apply Hk.
  - destruct o as [[[]| | | | |]|]; try (by apply fp_close_after_text, Hk).
    apply fp_settle.
Qed.

Lemma fp_run_callback a cb d : plain cb → fp a (run_callback cb d) anything.
Proof.
  intros Hcb. destruct cb; cbn [plain] in Hcb; cbn [run_callback]; try done.
  - apply fp_loadCallback.
  - apply fp_timeoutDone.
  - apply fp_requestStarted.
  - apply fp_requestFinished.
  - apply fp_settle.
Qed.

(** *** The event loop *)

Lemma fp_dispatchEvent a ty d :
  ¬ constructor_type ty → fp a (dispatchEvent ty d) anything.
Proof.
  intros Hty. unfold dispatchEvent. eapply sp_bind; [apply sp_get|]. intros ls _.
  apply sp_for_each_in. intros l Hl w HI. unfold bind, get.
  apply list_elem_of_filter in Hl as [Hl _].
  destruct (bool_decide (l ∈ listeners w)) eqn:Hin; [|by split].
  apply bool_decide_eq_true_1 in Hin.
  apply fp_run_callback; [|exact HI].
  destruct HI as [[_ H2 _ _ _] _].
  destruct (proj1 (Forall_forall _ _) H2 l Hin) as [Hc|Hp]; [|done].
  rewrite Hl in Hc. done.
Qed.

Lemma fp_fire a t : fp a (fire t) anything.
Proof.
  intros w HI. unfold fire, bind, get.
  destruct (timers w !! t) as [[[cb d]|]|] eqn:Ht; [|by split..].
  assert (plain cb) as Hcb by (destruct HI as [[_ _ H3 _ _] _]; by eapply H3).
  revert w HI Ht.
  change (∀ w, observes may_close π a w → timers w !! t = Some (Some (cb, d)) →
    observes may_close π a ((clearTimeout t ;; run_callback cb NoDetail) w).2 ∧
    anything ((clearTimeout t ;; run_callback cb NoDetail) w).1).
  intros w HI _. revert w HI.
  eapply sp_seq; [apply fp_clearTimeout|]. by apply fp_run_callback.
Qed.

Lemma fp_respond a p o : fp a (respond p o) anything.
Proof. unfold respond. eapply sp_bind; [apply sp_get|]. intros b _. apply sp_when, fp_settle. Qed.

Lemma fp_drain a n w :
  observes may_close π a w → observes may_close π a (drain n w).
Proof.
  revert w. induction n as [|n IH]; intros w HI; [exact HI|].
  cbn [drain]. destruct (jobs w) as [|[k o] rest] eqn:Hj; [exact HI|].
  apply IH. destruct HI as [[H1 H2 H3 H4 H5] Ha].
  rewrite Hj in H5. apply Forall_cons in H5 as [Hk Hrest].
  apply fp_run_job; [exact Hk|]. split.
  - destruct w. by split.
  - rewrite <- Ha. apply Hπ; [by destruct w..|right; by destruct w].
Qed.

Lemma fp_step a ev w :
  match ev with Dispatch ty _ => ¬ constructor_type ty | _ => True end →
  observes may_close π a w → observes may_close π a (step ev w).
Proof.
  intros Hev HI. apply fp_drain. unfold exec.
  destruct ev; cbn [task].
  - by apply fp_dispatchEvent.
  - by apply fp_fire.
  - by apply fp_respond.
Qed.

(** An action of the methods keeps the wiring and the observation. *)
Lemma fp_act a x w :
  plain_action may_close x →
  observes may_close π a w → observes may_close π a (act x w).
Proof.
  intros Hx HI. destruct x as [c|ev]; cbn [act].
  - unfold invoke.
    assert (c = CallClose → may_close) as Hc by (by intros ->).
    destruct (fp_perform a c Hc w HI) as [HI' _].
    destruct (perform c w) as [r w']. by apply fp_drain.
  - apply fp_step; [|exact HI]. by destruct ev.
Qed.

(** An event of the constructor acts on the observation as the callback of
    the constructor alone. *)
Lemma fp_constructor_event ty d w :
  constructor_type ty → wired may_close w →
  wired may_close (step (Dispatch ty d) w) ∧
  π (step (Dispatch ty d) w) = π (constructor_effect (Happens (Dispatch ty d)) w).
Proof.
  intros Hty HW. pose proof HW as [H1 H2 H3 H4 H5].
  assert (∀ cb, (ty, cb) ∈ constructor_listeners →
            filter (λ l, l.1 = ty) (listeners w) = [(ty, cb)]) as Hf.
  { intros cb Hcb.
    rewrite (list_filter_iff _ (λ l, l.1 = ty ∧ constructor_type l.1))
      by (intros l; split; [intros E; split; [done|by rewrite E]|tauto]).
    rewrite <- list_filter_filter, H1. unfold constructor_listeners.
    rewrite !filter_cons, filter_nil.
    apply list_elem_of_In in Hcb. cbn in Hcb.
    destruct Hcb as [[= <- <-]|[[= <- <-]|[]]].
    - rewrite decide_True by done. rewrite decide_False by done. done.
    - rewrite decide_False by done. rewrite decide_True by done. done. }
  unfold step, task, constructor_effect.
  destruct Hty as [-> | ->].
  - rewrite (dispatchEvent_one _ _ _ _ (Hf FrameNavigated ltac:(by left))).
    change ("Page.frameNavigated" =? "Page.frameNavigated")%string with true.
    cbv iota. cbn [snd].
    set (w1 := exec (run_callback FrameNavigated d) w).
    assert (wired may_close w1) as HW1.
    { subst w1. destruct d; [done|]. by eapply wired_same. }
    destruct (fp_drain (π w1) fuel w1 (conj HW1 eq_refl)) as [HW' Hp]. done.
  - rewrite (dispatchEvent_one _ _ _ _
               (Hf JavascriptDialogOpening ltac:(by right; left))).
    change ("Page.javascriptDialogOpening" =? "Page.frameNavigated")%string with false.
    change ("Page.javascriptDialogOpening" =? "Page.javascriptDialogOpening")%string
      with true.
    cbv iota. cbn [snd].
    set (w1 := exec (run_callback JavascriptDialogOpening d) w).
    assert (wired may_close w1) as HW1 by (subst w1; by eapply wired_same).
    destruct (fp_drain (π w1) fuel w1 (conj HW1 eq_refl)) as [HW' Hp]. done.
Qed.

(** Every action acts on the observation as the constructor's callbacks
    alone, provided [close] is called only where it may. *)
Lemma fp_action x w :
  (x = Call CallClose → may_close) → wired may_close w →
  wired may_close (act x w) ∧ π (act x w) = π (constructor_effect x w).
Proof.
  intros Hx HW.
  assert (plain_action may_close x → constructor_effect x w = w →
          wired may_close (act x w) ∧ π (act x w) = π (constructor_effect x w))
    as Hplain.
  { intros Hp ->. by destruct (fp_act (π w) x w Hp (conj HW eq_refl)). }
  destruct x as [c|[ty d|t|p o]]; try (by apply Hplain).
  - apply Hplain; [|done]. destruct c; cbn; try done. by apply Hx.
  - destruct (decide (constructor_type ty)) as [Hc|Hc];
      [by apply fp_constructor_event|].
    apply Hplain; [done|]. cbn.
    destruct (String.eqb_spec ty "Page.frameNavigated") as [->|_];
      [destruct Hc; by left|].
    destruct (String.eqb_spec ty "Page.javascriptDialogOpening") as [->|_];
      [destruct Hc; by right|]. done.
Qed.

End Footprint.

Lemma new_Page_wired mc me id_ url_ base pgs :
  wired mc (new_Page me id_ url_ base pgs).
Proof.
  split.
  - by vm_compute.
  - change (listeners (new_Page me id_ url_ base pgs)) with constructor_listeners.
    apply Forall_cons. split; [left; by left|].
    apply Forall_cons. split; [left; by right|]. constructor.
  - intros t cb d H. by destruct t.
  - intros p ks H. by destruct p.
  - constructor.
Qed.

(** ** What the sessions of a page show *)

Lemma session_cons a acts w : session (a :: acts) w = session acts (act a w).
Proof. reflexivity. Qed.

Lemma url_footprint : footprint True url.
Proof. by intros w w' H _ _. Qed.

Lemma url_session acts : ∀ w,
  wired True w → url (session acts w) = navigated (url w) acts.
Proof.
  induction acts as [|x acts IH]; intros w HW; [done|].
  rewrite session_cons.
  destruct (fp_action True _ url url_footprint x w (λ _, Logic.I) HW) as [HW' Hu].
  rewrite (IH _ HW'), Hu. unfold navigated. cbn [foldl]. f_equal.
  destruct x as [c|[ty [|frag u]|t|p o]]; try done; cbn;
    destruct (String.eqb ty "Page.frameNavigated"); try done;
    by destruct (String.eqb ty "Page.javascriptDialogOpening").
Qed.

(** X8: the URL of the page is the one of the last frame navigated (its
    fragment form when there is one), or the one the page was created with:
    whatever methods are called and whatever events, timers and responses
    arrive, nothing but a Page.frameNavigated event changes it. *)
Theorem url_follows_frame_navigations
    (me : page_ref) (id_ : string) (url_ : option string) (base : string)
    (pgs : list page_ref) (acts : list action) :
  (Page_url (session acts (new_Page me id_ url_ base pgs))).1
  = navigated url_ acts.
Proof. apply (url_session acts), new_Page_wired. Qed.

Lemma dialogs_footprint : footprint True dialogs.
Proof. by intros w w' _ H _. Qed.

Lemma dialogs_session acts : ∀ w,
  wired True w →
  dialogs (session acts w)
  = (dialogs w + length (filter (λ a, is_dialog_event a = true) acts))%nat.
Proof.
  induction acts as [|x acts IH]; intros w HW; [cbn; lia|].
  rewrite session_cons.
  destruct (fp_action True _ dialogs dialogs_footprint x w (λ _, Logic.I) HW)
    as [HW' Hd].
  rewrite (IH _ HW'), Hd, filter_cons.
  destruct x as [c|[ty d|t|p o]]; cbn [constructor_effect is_dialog_event];
    try (rewrite decide_False by done; lia).
  destruct (String.eqb_spec ty "Page.frameNavigated") as [->|Hne].
  - rewrite decide_False by done.
    destruct d; change (dialogs (exec _ w)) with (dialogs w); lia.
  - destruct (String.eqb ty "Page.javascriptDialogOpening").
    + rewrite decide_True by done.
      change (run_callback JavascriptDialogOpening d) with (trace IoDialog).
      assert (dialogs (exec (trace IoDialog) w) = S (dialogs w)) as ->.
      { unfold dialogs. cbn. rewrite filter_app, length_app.
        rewrite filter_cons, decide_True by done. cbn. lia. }
      cbn [length]. lia.
    + rewrite decide_False by done. lia.
Qed.

(** X9: the page dispatches one dialog event for every
    Page.javascriptDialogOpening event of the browser and none otherwise,
    whatever methods are called in between. *)
Theorem one_dialog_event_per_dialog
    (me : page_ref) (id_ : string) (url_ : option string) (base : string)
    (pgs : list page_ref) (acts : list action) :
  dialogs (session acts (new_Page me id_ url_ base pgs))
  = length (filter (λ a, is_dialog_event a = true) acts).
Proof.
  rewrite (dialogs_session acts _ (new_Page_wired True me id_ url_ base pgs)).
  done.
Qed.

Lemma browser_footprint : footprint False (λ w, (pages w, ws_closed w)).
Proof. intros w w' _ _ [[]|[-> ->]]. done. Qed.

Lemma browser_session acts : ∀ w,
  wired False w → Forall (λ a, is_close_call a = false) acts →
  pages (session acts w) = pages w ∧ ws_closed (session acts w) = ws_closed w.
Proof.
  induction acts as [|x acts IH]; intros w HW Hn; [done|].
  apply Forall_cons in Hn as [Hx Hn]. rewrite session_cons.
  destruct (fp_action False _ _ browser_footprint x w) as [HW' Hb];
    [by intros ->|done|].
  destruct (IH _ HW' Hn) as [-> ->].
  assert (pages (constructor_effect x w) = pages w
          ∧ ws_closed (constructor_effect x w) = ws_closed w) as [Ep Ew].
  { destruct x as [c|[ty [|frag u]|t|p o]]; try done; cbn;
      destruct (String.eqb ty "Page.frameNavigated"); try done;
      by destruct (String.eqb ty "Page.javascriptDialogOpening"). }
  rewrite <- Ep, <- Ew. by injection Hb.
Qed.

(** X10: only close touches the browser: in a session without a call of close
    the page list of the browser and the protocol connection are as they
    were when the page was created, whatever other methods are called and
    whatever events, timers and responses arrive. *)
Theorem only_close_touches_the_browser
    (me : page_ref) (id_ : string) (url_ : option string) (base : string)
    (pgs : list page_ref) (acts : list action) :
  Forall (λ a, is_close_call a = false) acts →
  let w := session acts (new_Page me id_ url_ base pgs) in
  pages w = pgs ∧ ws_closed w = false.
Proof.
  intros Hn. by apply (browser_session acts _ (new_Page_wired False me id_ url_ base pgs)).
Qed.

Lemma only_close_touches_the_browser_witness :
  let acts := [Call (CallGoto "http://example.com" None);
               Happens (Response 1 (Fulfilled (Js VUndefined)));
               Happens load_fired; Call CallBringToFront] in
  let w := session acts sample_page in
  pages w = [3; 7; 9]%nat ∧ ws_closed w = false.
Proof.
  apply (only_close_touches_the_browser 7 "ABC" None "http://localhost:9222"
           [3%nat; 7%nat; 9%nat]).
  repeat constructor.
Defined.

(** ** The commands without a result *)

(** X11: bringToFront, deleteCookies and emulateCPUThrottling each send their one
    command with the parameters they were given, resolve with undefined
    whatever the command answers, and fail with the error of the command. *)
Theorem commands_discard_their_answer
    (me : page_ref) (id_ : string) (url_ : option string) (base : string)
    (pgs : list page_ref) (cookieDescription : list (string * jsval))
    (factor : number) :
  let w0 := new_Page me id_ url_ base pgs in
  sends_and_discards "Page.bringToFront" [] bringToFront w0 ∧
  sends_and_discards "Network.deleteCookies" cookieDescription
    (deleteCookies cookieDescription) w0 ∧
  sends_and_discards "Emulation.setCPUThrottlingRate" [("rate", VNumber factor)]
    (emulateCPUThrottling factor) w0.
Proof.
  cbv zeta. unfold sends_and_discards.
  repeat split; try (by eexists); intros; by vm_compute.
Qed.

(** ** The waits end when their event comes, not before *)

(** X12: a load wait on a new page stays pending whatever happens (network
    events, frame navigations, responses, other timers) until the load
    event or its deadline; the first load event then resolves it with
    undefined. *)
Theorem load_wait_ends_at_first_load_event
    (me : page_ref) (id_ : string) (url_ : option string) (base : string)
    (pgs : list page_ref) (evs : list event) (dd : detail) :
  let start := invoke (waitForNavigation load_option)
                 (new_Page me id_ url_ base pgs) in
  let w := run evs start.2 in
  Forall (λ ev, ends_load ev = false) evs →
  is_pending w start.1 = true ∧
  settled_in (step (Dispatch "Page.loadEventFired" dd) w) start.1
    (Fulfilled (Js VUndefined)).
Proof.
  cbv zeta. rewrite load_invoke. cbn [fst snd]. intros Hq.
  destruct (load_run_stays 1 2 load_promises evs _
              (load_world_shape me id_ url_ base pgs) Hq) as [Sh _].
  split.
  - unfold is_pending. by rewrite (load_shape_promises _ _ _ _ Sh).
  - exact (proj1 (load_event_resolves _ dd Sh)).
Qed.

Lemma load_wait_ends_at_first_load_event_witness :
  let evs := [request_sent; Dispatch "Page.frameNavigated" (Frame None "http://a/");
              request_finished; TimerFire 5] in
  let start := invoke (waitForNavigation load_option) sample_page in
  is_pending (run evs start.2) start.1 = true.
Proof.
  refine (proj1 (load_wait_ends_at_first_load_event 7 "ABC" None
            "http://localhost:9222" [3%nat; 7%nat; 9%nat]
            [request_sent; Dispatch "Page.frameNavigated" (Frame None "http://a/");
             request_finished; TimerFire 5] NoDetail _)).
  repeat constructor.
Defined.

Lemma idle_run_without_timers D T evs : ∀ w n t,
  idle_shape D T w n t → Forall (λ ev, is_timer ev = false) evs →
  ∃ n' t', idle_shape D T (run evs w) n' t'.
Proof.
  induction evs as [|ev evs IH]; intros w n t Hs Hq; [by exists n, t|].
  apply Forall_cons in Hq as [Hev Hq].
  change (run (ev :: evs) w) with (run evs (step ev w)).
  destruct (idle_step D T w n t ev Hs)
    as [(n' & t' & Sh & _)|[(-> & _)|(t' & -> & _)]]; [|done..].
  by eapply IH.
Qed.

(** X13: network events alone never complete a network-idle wait: whatever
    requests start, finish or fail, and whatever else arrives, the wait is
    pending until a timer fires (its idle timer or its deadline). *)
Theorem idle_wait_ends_by_a_timer_only
    (me : page_ref) (id_ : string) (url_ : option string) (base : string)
    (pgs : list page_ref) (options : option WaitForNetworkIdleOptions)
    (evs : list event) :
  let start := invoke (waitForNetworkIdle options) (new_Page me id_ url_ base pgs) in
  Forall (λ ev, is_timer ev = false) evs →
  is_pending (run evs start.2) start.1 = true.
Proof.
  cbv zeta. rewrite idle_invoke. cbn [fst snd]. intros Hq.
  destruct (idle_run_without_timers _ _ evs _ 0 0%nat
              (idle_world_shape (option_idleTime options)
                 (option_idleConnections options) me id_ url_ base pgs) Hq)
    as (n' & t' & Sh).
  unfold is_pending. by rewrite (shape_promises _ _ _ _ _ Sh).
Qed.

Lemma idle_wait_ends_by_a_timer_only_witness :
  let evs := [request_sent; request_finished; request_sent; request_failed] in
  let start := invoke (waitForNetworkIdle None) sample_page in
  is_pending (run evs start.2) start.1 = true.
Proof.
  refine (idle_wait_ends_by_a_timer_only 7 "ABC" None "http://localhost:9222"
            [3%nat; 7%nat; 9%nat] None
            [request_sent; request_finished; request_sent; request_failed] _).
  repeat constructor.
Defined.

(** ** Failures of the command *)

Lemma root_request_failure w q n e :
  root_polling w q n →
  settled_in (answer (Rejected e) w) 0 (Rejected e) ∧
  log (answer (Rejected e) w) = log w.
Proof.
  intros [H0 H1 H3 Hq (Hq0 & Hq1 & Hq3) Hjs Hts Hlast Hsent Hcalls].
  unfold answer. rewrite Hlast. unfold step, task, fuel.
  destruct w as [ls ws ts ps js es me i u b pg lg].
  cbv [promises jobs timers log] in H0, H1, H3, Hq, Hjs, Hts, Hlast, Hsent, Hcalls.
  subst js ts.
  apply lookup_lt_Some in H0 as L0. apply lookup_lt_Some in H1 as L1.
  apply lookup_lt_Some in H3 as L3. apply lookup_lt_Some in Hq as Lq.
  lred. rewrite Hsent. lred. rewrite Hq. lred. drain_loop.
  heap. rewrite H1. lred. drain_loop.
  heap. rewrite H3. lred. drain_loop.
  heap. rewrite H0. lred. rewrite drain_nil by done.
  unfold settled_in. cbv [promises log]. split; [by heap|done].
Qed.

(** X14: #getRoot stops polling when the get-document call fails: after any
    number of empty answers, an error answer fails the method with that
    error and no further call is made. *)
Theorem getRoot_fails_with_call
    (me : page_ref) (id_ : string) (url_ : option string) (base : string)
    (pgs : list page_ref) (os : list outcome) (e : error) :
  let start := invoke getRoot (new_Page me id_ url_ base pgs) in
  let w := answers os start.2 in
  Forall falsy os →
  settled_in (answer (Rejected e) w) start.1 (Rejected e) ∧
  log (answer (Rejected e) w) = log w.
Proof.
  intros start w Hf. subst start w.
  destruct (root_invoke me id_ url_ base pgs) as [Hs ->].
  destruct (root_answers os _ _ _ Hs Hf) as [q Hq].
  by eapply root_request_failure.
Qed.

Lemma getRoot_fails_with_call_witness :
  let os := [Fulfilled (Js VUndefined); Fulfilled (Js VNull)] in
  let start := invoke getRoot sample_page in
  settled_in (answer (Rejected (ProtocolError "gone")) (answers os start.2))
    start.1 (Rejected (ProtocolError "gone")).
Proof.
  refine (proj1 (getRoot_fails_with_call 7 "ABC" None "http://localhost:9222"
            [3%nat; 7%nat; 9%nat] [Fulfilled (Js VUndefined); Fulfilled (Js VNull)]
            (ProtocolError "gone") _)).
  repeat constructor; by eexists.
Defined.

(** X15: goto and reload fail as soon as their command fails, with the error of
    the command, although the navigation has not completed; the navigation
    wait they started is left as it is, its load listener registered. *)
Theorem goto_reload_fail_with_command
    (me : page_ref) (id_ : string) (url_ : option string) (base : string)
    (pgs : list page_ref) (u : string) (options : option GoToOptions)
    (reload_options : option WaitForOptions) (e : error) :
  let w0 := new_Page me id_ url_ base pgs in
  let failed (s : promise * World) :=
    let w' := answer (Rejected e) s.2 in
    is_pending s.2 s.1 = true ∧
    settled_in w' s.1 (Rejected e) ∧
    listeners w' = listeners s.2 ∧
    (∃ p, ("Page.loadEventFired", LoadCallback p) ∈ listeners w') in
  failed (invoke (goto u options) w0) ∧
  failed (invoke (reload reload_options) w0).
Proof.
  cbv zeta. split.
  - destruct options as [[[[]|] ref]|];
      (split; [by vm_compute|]; split; [by vm_compute|]; split; [by vm_compute|]);
      first [exists 4%nat; by vm_compute; repeat constructor
            |exists 5%nat; by vm_compute; repeat constructor].
  - destruct reload_options as [[[[]|]]|];
      (split; [by vm_compute|]; split; [by vm_compute|]; split; [by vm_compute|]);
      first [exists 4%nat; by vm_compute; repeat constructor
            |exists 5%nat; by vm_compute; repeat constructor].
Qed.

(** ** waitForFunction: one poll at a time *)

Lemma func_falsy_poll_log func opts w q d r' t p :
  func_polling func opts w q d r' t → falsy (unmarshal p.1 p.2) →
  calls_of (log (answer (evaluated p) w))
  = calls_of (log w) ++ [evaluate_call func opts].
Proof.
  intros [H0 H1 H5 Hq Hd Hr' (D1 & D2 & D3 & D4 & D5 & D6 & D7 & D8 & D9)
            Hjs Hts Hto Hlast Hsent] (v & Hu & Hv).
  unfold answer, evaluated. rewrite Hlast. unfold step, task, fuel.
  destruct p as [result exc]. cbn [fst snd] in *.
  destruct w as [ls ws ts ps js es me i u b pg lg].
  cbv [promises jobs timers log] in H0, H1, H5, Hq, Hd, Hr', Hjs, Hts, Hlast, Hsent.
  subst js.
  apply lookup_lt_Some in H0 as L0. apply lookup_lt_Some in H1 as L1.
  apply lookup_lt_Some in H5 as L5. apply lookup_lt_Some in Hq as Lq.
  apply lookup_lt_Some in Hd as Ld. apply lookup_lt_Some in Hr' as Lr.
  apply lookup_lt_Some in Hts as Lt.
  remember calls_of as C eqn:HC. remember (evaluate_call func opts) as call_ eqn:Hc.
  lred. rewrite Hsent. lred. rewrite Hq. lred. drain_loop.
  heap. rewrite Hd. lred. drain_loop.
  heap. rewrite Hr'. lred. rewrite Hu. lred. drain_loop. rewrite Hv. lred.
  repeat (progress heap_app; lred).
  rewrite drain_nil by done.
  cbv [log]. subst C call_. unfold calls_of. by rewrite omap_app.
Qed.

Lemma func_polls_log func opts polls : ∀ w q d r' t,
  func_polling func opts w q d r' t →
  Forall (λ p, falsy (unmarshal p.1 p.2)) polls →
  calls_of (log (answers (evaluated <$> polls) w))
  = calls_of (log w) ++ replicate (length polls) (evaluate_call func opts).
Proof.
  induction polls as [|p polls IH]; intros w q d r' t Hs Hf;
    [by rewrite app_nil_r|].
  apply Forall_cons in Hf as [Hp Hf].
  change (answers (evaluated <$> p :: polls) w)
    with (answers (evaluated <$> polls) (answer (evaluated p) w)).
  destruct (func_falsy_poll _ _ _ _ _ _ _ p Hs Hp) as (q' & d' & r'' & t' & Hs').
  rewrite (IH _ _ _ _ _ Hs' Hf), (func_falsy_poll_log _ _ _ _ _ _ _ p Hs Hp).
  by rewrite <- app_assoc.
Qed.

(** X16: waitForFunction polls one call at a time: after [n] polls that produced
    a falsy value the page has sent [n + 1] commands, every one the
    Runtime.evaluate of the same expression, and nothing else. *)
Theorem waitForFunction_polls_in_sequence
    (me : page_ref) (id_ : string) (url_ : option string) (base : string)
    (pgs : list page_ref) (func : EvaluateFunction)
    (evaluateOptions : option EvaluateOptions)
    (polls : list (RemoteObject * option ExceptionDetails)) :
  let start := invoke (waitForFunction func evaluateOptions)
                 (new_Page me id_ url_ base pgs) in
  let w := answers (evaluated <$> polls) start.2 in
  Forall (λ p, falsy (unmarshal p.1 p.2)) polls →
  calls_of (log w)
  = replicate (S (length polls)) (evaluate_call func evaluateOptions).
Proof.
  intros start w Hf. subst start w.
  destruct (func_invoke me id_ url_ base pgs func evaluateOptions) as [Hs _].
  rewrite (func_polls_log _ _ polls _ _ _ _ _ Hs Hf).
  by change (calls_of (log _)) with [evaluate_call func evaluateOptions].
Qed.

Lemma waitForFunction_polls_in_sequence_witness :
  let undefined_ := {| type := "undefined"; subtype := None; value := VUndefined;
                       unserializableValue := None |} in
  let start := invoke (waitForFunction (Expression "f()") None) sample_page in
  calls_of (log (answers (evaluated <$> [(undefined_, None); (undefined_, None)])
                   start.2))
  = replicate 3 (evaluate_call (Expression "f()") None).
Proof.
  refine (waitForFunction_polls_in_sequence 7 "ABC" None "http://localhost:9222"
            [3%nat; 7%nat; 9%nat] (Expression "f()") None
            [({| type := "undefined"; subtype := None; value := VUndefined;
                 unserializableValue := None |}, None);
             ({| type := "undefined"; subtype := None; value := VUndefined;
                 unserializableValue := None |}, None)] _).
  repeat constructor; by eexists.
Defined.
